(** * Quantum cellular automaton: simulation kernel, fitness evaluator,
      genetic search driver and reversible registers.

    Shallow embedding of [simulation.ts], [hooks/useRuleSearch.ts],
    [hooks/useReversibleLife.ts], [types.ts] and [constants.ts].

    Numbers.  A JavaScript [number] that carries an amplitude, a probability
    or a fitness is a real number ([R]) and its arithmetic is the exact one.
    A [number] that is a cell of a classical grid, a population or a flip
    count is an integer ([Z]); array indices are naturals.  Where the code
    can compute [NaN] without throwing (the error totals and the result of
    [calculateFitness]), the number is a [JsNumber]: [NaN] or a value.
    Doubles are exact on integers below 2^53 only: the theorems that state
    a bound on a fitness bound the data that it is computed from.

    Errors.  A function returns [None] where the JavaScript code throws a
    [TypeError] (a property read on [undefined]); where a read of [undefined]
    does not throw, the definition says what it yields.

    Randomness.  [Math.random()] is a stream of reals that the computation
    consumes in the order of the calls.

    Scheduling.  The hooks are modelled by the functions that their callbacks
    compute on the state of the current render; timers and rendering are not
    modelled. *)

From Stdlib Require Import Reals Lra Lia ZArith.
From stdpp Require Import base option list.

Local Open Scope R_scope.

(** ** Data model ([types.ts]) *)

Record Complex : Type := mkComplex { re : R; im : R }.

(** [alpha|0> + beta|1>] *)
Abbreviation QubitState := (Complex * Complex)%type (only parsing).

Abbreviation GridState := (list (list QubitState)) (only parsing).
Abbreviation ClassicalGridState := (list (list Z)) (only parsing).

Record PauliCoefficients : Type := mkPauli {
  cI : Complex; cX : Complex; cY : Complex; cZ : Complex
}.

Record SimulationParameters : Type := mkParams {
  gamma : R;
  w_self : PauliCoefficients;
  w_neighbor : PauliCoefficients
}.

(** A [[Complex, Complex][]] with two rows. *)
Abbreviation Matrix := ((Complex * Complex) * (Complex * Complex))%type
  (only parsing).

(** ** Complex arithmetic and matrix helpers ([simulation.ts]) *)

Definition cadd (a b : Complex) : Complex :=
  {| re := re a + re b; im := im a + im b |}.

Definition cmul (a b : Complex) : Complex :=
  {| re := re a * re b - im a * im b; im := re a * im b + im a * re b |}.

Definition applyMatrix (mat : Matrix) (q : QubitState) : QubitState :=
  let '(a, b) := q in
  (cadd (cmul mat.1.1 a) (cmul mat.1.2 b),
   cadd (cmul mat.2.1 a) (cmul mat.2.2 b)).

Definition magSq (q : QubitState) : R :=
  re q.1 * re q.1 + im q.1 * im q.1 + re q.2 * re q.2 + im q.2 * im q.2.

Definition ket0 : QubitState := ({| re := 1; im := 0 |}, {| re := 0; im := 0 |}).
Definition ket1 : QubitState := ({| re := 0; im := 0 |}, {| re := 1; im := 0 |}).

Definition normalizeQubit (q : QubitState) : QubitState :=
  let '(alpha, beta) := q in
  let magSq := re alpha * re alpha + im alpha * im alpha
               + re beta * re beta + im beta * im beta in
  if Rlt_dec magSq (1 / 10 ^ 12) then ket0
  else
    let mag := sqrt magSq in
    ({| re := re alpha / mag; im := im alpha / mag |},
     {| re := re beta / mag; im := im beta / mag |}).

Definition pauliI : Matrix :=
  ((mkComplex 1 0, mkComplex 0 0), (mkComplex 0 0, mkComplex 1 0)).
Definition pauliX : Matrix :=
  ((mkComplex 0 0, mkComplex 1 0), (mkComplex 1 0, mkComplex 0 0)).
Definition pauliY : Matrix :=
  ((mkComplex 0 0, mkComplex 0 (-1)), (mkComplex 0 1, mkComplex 0 0)).
Definition pauliZ : Matrix :=
  ((mkComplex 1 0, mkComplex 0 0), (mkComplex 0 0, mkComplex (-1) 0)).

Definition mapMatrix (f : Complex -> Complex) (m : Matrix) : Matrix :=
  ((f m.1.1, f m.1.2), (f m.2.1, f m.2.2)).

Definition scaleMatrix (mat : Matrix) (s : Complex) : Matrix :=
  mapMatrix (fun cell => cmul cell s) mat.

Definition addMatrices (mat1 mat2 : Matrix) : Matrix :=
  ((cadd mat1.1.1 mat2.1.1, cadd mat1.1.2 mat2.1.2),
   (cadd mat1.2.1 mat2.2.1, cadd mat1.2.2 mat2.2.2)).

Definition constructMatrix (coeffs : PauliCoefficients) : Matrix :=
  let m := scaleMatrix pauliI (cI coeffs) in
  let m := addMatrices m (scaleMatrix pauliX (cX coeffs)) in
  let m := addMatrices m (scaleMatrix pauliY (cY coeffs)) in
  let m := addMatrices m (scaleMatrix pauliZ (cZ coeffs)) in
  m.

Definition prob1 (q : QubitState) : R := re q.2 * re q.2 + im q.2 * im q.2.

Definition getClassicalState (q : QubitState) : Z :=
  if Rle_dec (1 / 2) (prob1 q) then 1%Z else 0%Z.


(** ** JavaScript arrays and the remainder operator *)

(** [a % n] on integers; [None] is [NaN] (division by zero). *)
Definition jsRem (a n : Z) : option Z :=
  if (n =? 0)%Z then None else Some (Z.rem a n).

(** [arr[i]]; [None] is [undefined] (index [NaN], negative or out of range). *)
Definition jsIndex {A : Type} (arr : list A) (i : option Z) : option A :=
  match i with
  | Some i => if (i <? 0)%Z then None else arr !! Z.to_nat i
  | None => None
  end.

(** [arr.map((a, i) => f i a)] for a callback that may throw. *)
Definition imapM {A B : Type} (f : nat -> A -> option B) (arr : list A)
  : option (list B) :=
  mapM (fun b => b) (imap f arr).

(** A [for] loop over the items [l] whose body may throw. *)
Fixpoint foldlM {A B : Type} (f : B -> A -> option B) (acc : B) (l : list A)
  : option B :=
  match l with
  | [] => Some acc
  | a :: l' => match f acc a with
               | Some acc' => foldlM f acc' l'
               | None => None
               end
  end.

(** The pairs [(i, j)] visited by
    [for (i = -1; i <= 1; i++) for (j = -1; j <= 1; j++) if (i === 0 && j === 0) continue],
    in the order of the loops. *)
Definition neighborOffsets : list (Z * Z) :=
  [(-1, -1); (-1, 0); (-1, 1); (0, -1); (0, 1); (1, -1); (1, 0); (1, 1)]%Z.

(** ** The quantum step ([simulation.ts], [performQuantumStep]) *)

Definition czero : Complex := {| re := 0; im := 0 |}.

(** Stage A, step 1: the sum of the eight neighbour states of cell [(y, x)]. *)
Definition sumNeighbors (currentGrid : GridState) (gridHeight gridWidth : Z)
    (y x : Z) : option QubitState :=
  foldlM (fun (sumNeighborState : QubitState) '(i, j) =>
            let ny := jsRem (y + i + gridHeight) gridHeight in
            let nx := jsRem (x + j + gridWidth) gridWidth in
            row ← jsIndex currentGrid ny;
            neighborQubit ← jsIndex row nx;
            Some (cadd sumNeighborState.1 neighborQubit.1,
                  cadd sumNeighborState.2 neighborQubit.2))
         (czero, czero) neighborOffsets.

(** Stage A, steps 2 and 3, given the neighbour sum. *)
Definition combine (W_self W_neighbor : Matrix)
    (qubit sumNeighborState : QubitState) : QubitState :=
  let selfTerm := applyMatrix W_self qubit in
  let neighborTerm := applyMatrix W_neighbor sumNeighborState in
  let nextStateVector :=
    (cadd selfTerm.1 neighborTerm.1, cadd selfTerm.2 neighborTerm.2) in
  normalizeQubit nextStateVector.

(** Stage A for the cell [qubit] at [(y, x)]. *)
Definition evolveCell (currentGrid : GridState) (gridHeight gridWidth : Z)
    (W_self W_neighbor : Matrix) (y x : nat) (qubit : QubitState)
  : option QubitState :=
  sumNeighborState ← sumNeighbors currentGrid gridHeight gridWidth
                        (Z.of_nat y) (Z.of_nat x);
  Some (combine W_self W_neighbor qubit sumNeighborState).

(** [Math.max(0, Math.min(1, pFinal))] *)
Definition clamp01 (pFinal : R) : R := Rmax 0 (Rmin 1 pFinal).

(** Stage B for one cell. *)
Definition decohere (gamma : R) (qubit : QubitState) : QubitState :=
  let pQuantum := re qubit.2 * re qubit.2 + im qubit.2 * im qubit.2 in
  let classicalAttractor := if Rle_dec (1 / 2) pQuantum then 1 else 0 in
  let pFinal := (1 - gamma) * pQuantum + gamma * classicalAttractor in
  let prob := clamp01 pFinal in
  ({| re := sqrt (1 - prob); im := 0 |}, {| re := sqrt prob; im := 0 |}).

Definition performQuantumStep (currentGrid : GridState)
    (params : SimulationParameters) : option GridState :=
  row0 ← currentGrid !! 0%nat;
  let gridHeight := Z.of_nat (length currentGrid) in
  let gridWidth := Z.of_nat (length row0) in
  let W_self := constructMatrix (w_self params) in
  let W_neighbor := constructMatrix (w_neighbor params) in
  coherentlyEvolvedGrid ←
    imapM (fun y row =>
             imapM (fun x qubit =>
                      evolveCell currentGrid gridHeight gridWidth
                                 W_self W_neighbor y x qubit)
                   row)
          currentGrid;
  Some (map (map (decohere (gamma params))) coherentlyEvolvedGrid).

(** ** The classical step ([simulation.ts], [performGOLStep]) *)

(** [acc + v] where [acc] may be [NaN] and [v] may be [undefined]. *)
Definition jsPlus (acc : option Z) (v : option Z) : option Z :=
  match acc, v with
  | Some a, Some b => Some (a + b)%Z
  | _, _ => None
  end.

(** The neighbour count of cell [(y, x)]; the inner [None] is [NaN]. *)
Definition neighborCount (grid : ClassicalGridState) (gridHeight gridWidth : Z)
    (y x : Z) : option (option Z) :=
  foldlM (fun (neighborCount : option Z) '(i, j) =>
            let ny := jsRem (y + i + gridHeight) gridHeight in
            let nx := jsRem (x + j + gridWidth) gridWidth in
            row ← jsIndex grid ny;
            Some (jsPlus neighborCount (jsIndex row nx)))
         (Some 0%Z) neighborOffsets.

(** Survival, birth or death of a cell ([undefined] cell or [NaN] count: death). *)
Definition golRule (cell neighborCount : option Z) : Z :=
  if bool_decide (cell = Some 1%Z)
     && (bool_decide (neighborCount = Some 2%Z)
         || bool_decide (neighborCount = Some 3%Z))
  then 1%Z
  else if bool_decide (cell = Some 0%Z) && bool_decide (neighborCount = Some 3%Z)
  then 1%Z
  else 0%Z.

Definition performGOLStep (grid : ClassicalGridState)
  : option ClassicalGridState :=
  row0 ← grid !! 0%nat;
  let gridHeight := length grid in
  let gridWidth := length row0 in
  mapM (fun y =>
          mapM (fun x =>
                  neighborCount ← neighborCount grid (Z.of_nat gridHeight)
                                     (Z.of_nat gridWidth)
                                     (Z.of_nat y) (Z.of_nat x);
                  row ← grid !! y;
                  Some (golRule (row !! x) neighborCount))
               (seq 0 gridWidth))
       (seq 0 gridHeight).

(** ** Reversible registers ([hooks/useReversibleLife.ts]) *)

Definition GRID_SIZE : nat := 32.

Definition createGrid (fill : Z) : ClassicalGridState :=
  replicate GRID_SIZE (replicate GRID_SIZE fill).

Definition cloneGrid (grid : ClassicalGridState) : ClassicalGridState :=
  map (fun row => row) grid.

(** The two pieces of state of the hook. *)
Record Registers : Type := mkRegisters {
  systemGrid : ClassicalGridState;
  targetGrid : ClassicalGridState
}.

(** [grid.reduce((acc, row) => acc + row.reduce((sum, cell) => sum + cell, 0), 0)] *)
Definition gridPopulation (grid : ClassicalGridState) : Z :=
  foldl (fun acc row => (acc + foldl (fun sum cell => sum + cell) 0 row)%Z)
        0%Z grid.

Definition isTargetClean (r : Registers) : bool :=
  bool_decide (gridPopulation (targetGrid r) = 0%Z).

(** The [ToInt32] conversion of an integer. *)
Definition toInt32 (z : Z) : Z := ((z + 2 ^ 31) mod 2 ^ 32 - 2 ^ 31)%Z.

(** [value ^ v], where [v] may be [undefined] (which converts to 0). *)
Definition jsXor (value : Z) (v : option Z) : Z :=
  Z.lxor (toInt32 value) (toInt32 (default 0%Z v)).

(** [target.map((row, y) => row.map((value, x) => value ^ update[y][x]))] *)
Definition xorInto (target update : ClassicalGridState)
  : option ClassicalGridState :=
  imapM (fun y row =>
           imapM (fun x value =>
                    updateRow ← update !! y;
                    Some (jsXor value (updateRow !! x)))
                 row)
        target.

(** [advanceCycle], as a function of the registers of the current render:
    the returned boolean, and the registers after the state setters ran.
    [computePreview] is the memoised [performGOLStep(systemGrid)]. *)
Definition advanceCycle (r : Registers) : option (bool * Registers) :=
  computePreview ← performGOLStep (systemGrid r);
  if negb (isTargetClean r) then Some (false, r)
  else
    let update := computePreview in
    newTarget ← xorInto (targetGrid r) update;
    let newSystem := cloneGrid newTarget in
    let oldSystem := cloneGrid (systemGrid r) in
    Some (true, {| systemGrid := newSystem; targetGrid := oldSystem |}).

(** ** Rule search: constants and fitness ([hooks/useRuleSearch.ts]) *)

Definition POPULATION_SIZE : nat := 50.
Definition MUTATION_RATE : R := 1 / 10.
Definition MUTATION_AMOUNT : R := 1 / 10.
Definition CROSSOVER_RATE : R := 7 / 10.
Definition ELITISM_COUNT : nat := 2.
Definition FITNESS_SIM_STEPS : nat := 15.
Definition FITNESS_GRID_SIZE : nat := 32.
Definition POPULATION_PENALTY_WEIGHT : R := 3 / 2.
Definition DYNAMISM_ERROR_WEIGHT : R := 1.
Definition DYNAMISM_BONUS_MULTIPLIER : R := 3 / 2.
Definition STAGNATION_CHECK_LENGTH : nat := 4.
Definition SELECTION_NOISE_PROBABILITY : R := 1 / 10.
Definition SEED : Z := 1337.

Record TrajectoryStep : Type := mkTrajectoryStep {
  grid : ClassicalGridState;
  population : Z;
  flipsSincePrevStep : Z
}.

Definition createQubitGridFromClassical (classical : ClassicalGridState)
  : GridState :=
  match classical with
  | [] => []
  | row0 :: _ =>
      if bool_decide (length row0 = 0%nat) then []
      else
        let height := length classical in
        let width := length row0 in
        map (fun y =>
               map (fun x =>
                      if bool_decide ((classical !! y) ≫= (.!! x) = Some 1%Z)
                      then ket1 else ket0)
                   (seq 0 width))
            (seq 0 height)
  end.

(** A JavaScript number that can be [NaN]. *)
Inductive JsNumber (A : Type) : Type :=
| NaN : JsNumber A
| Num : A -> JsNumber A.

Arguments NaN {A}.
Arguments Num {A} _.

(** An operation on numbers: [NaN] as soon as an operand is [NaN]. *)
Definition lift1 {A B : Type} (f : A -> B) (a : JsNumber A) : JsNumber B :=
  match a with
  | Num v => Num (f v)
  | NaN => NaN
  end.

Definition lift2 {A B C : Type} (f : A -> B -> C) (a : JsNumber A)
    (b : JsNumber B) : JsNumber C :=
  match a, b with
  | Num v, Num w => Num (f v w)
  | _, _ => NaN
  end.

(** The number that a cell read in an array converts to: [undefined], the
    value of a read past the end of a row, converts to [NaN]. *)
Definition toNumber (cell : option Z) : JsNumber Z :=
  match cell with
  | Some v => Num v
  | None => NaN
  end.

(** The accumulators of the two inner loops of one simulated step. *)
Record CellTotals : Type := mkCellTotals {
  mismatchError : JsNumber Z;
  candidatePopulation : JsNumber Z;
  candidateFlips : Z
}.

(** The body of the loops over [y] and [x].  A row that is missing makes the
    read of its cell throw ([None]); a cell that is missing in a row reads as
    [undefined], which makes the sums [NaN] and is [===] to [undefined]
    only. *)
Definition compareCell (candidateClassicalGrid groundTruthGrid
    prevClassicalGrid : ClassicalGridState) (y x : nat) (acc : CellTotals)
  : option CellTotals :=
  candidateRow ← candidateClassicalGrid !! y;
  let cellState := candidateRow !! x in
  groundTruthRow ← groundTruthGrid !! y;
  prevRow ← prevClassicalGrid !! y;
  Some {| mismatchError :=
            lift2 Z.add (mismatchError acc)
                  (lift1 Z.abs (lift2 Z.sub (toNumber cellState)
                                      (toNumber (groundTruthRow !! x))));
          candidatePopulation :=
            lift2 Z.add (candidatePopulation acc) (toNumber cellState);
          candidateFlips := if bool_decide (cellState = prevRow !! x)
                            then candidateFlips acc
                            else (candidateFlips acc + 1)%Z |}.

Definition compareGrids (candidateClassicalGrid groundTruthGrid
    prevClassicalGrid : ClassicalGridState) (mismatchError : JsNumber Z)
  : option CellTotals :=
  foldlM (fun acc y =>
            foldlM (fun acc x =>
                      compareCell candidateClassicalGrid groundTruthGrid
                                  prevClassicalGrid y x acc)
                   acc (seq 0 FITNESS_GRID_SIZE))
         {| mismatchError := mismatchError;
            candidatePopulation := Num 0%Z; candidateFlips := 0 |}
         (seq 0 FITNESS_GRID_SIZE).

(** The variables that the loop over [step] updates. *)
Record FitnessLoop : Type := mkFitnessLoop {
  quantumGrid : GridState;
  prevClassicalGrid : ClassicalGridState;
  totalMismatch : JsNumber Z;
  populationError : JsNumber Z;
  dynamismError : Z;
  candidateDynamismHistory : list Z
}.

(** [{ ...params, gamma: 1.0 }] *)
Definition withFullDecoherence (params : SimulationParameters)
  : SimulationParameters :=
  {| gamma := 1; w_self := w_self params; w_neighbor := w_neighbor params |}.

Definition fitnessStep (trajectory : list TrajectoryStep)
    (params : SimulationParameters) (st : FitnessLoop) (step : nat)
  : option FitnessLoop :=
  quantumGrid' ← performQuantumStep (quantumGrid st) (withFullDecoherence params);
  let candidateClassicalGrid := map (map getClassicalState) quantumGrid' in
  groundTruthStep ← trajectory !! (step + 1)%nat;
  totals ← compareGrids candidateClassicalGrid (grid groundTruthStep)
                        (prevClassicalGrid st) (totalMismatch st);
  Some {| quantumGrid := quantumGrid';
          prevClassicalGrid := candidateClassicalGrid;
          totalMismatch := mismatchError totals;
          populationError :=
            lift2 Z.add (populationError st)
                  (lift1 Z.abs (lift2 Z.sub (candidatePopulation totals)
                                      (Num (population groundTruthStep))));
          dynamismError :=
            (dynamismError st
             + Z.abs (candidateFlips totals - flipsSincePrevStep groundTruthStep))%Z;
          candidateDynamismHistory :=
            candidateDynamismHistory st ++ [candidateFlips totals] |}.

(** [history.slice(-n)] *)
Definition lastSlice {A : Type} (n : nat) (history : list A) : list A :=
  drop (length history - n) history.

Definition isStagnant (history : list Z) : bool :=
  if bool_decide (STAGNATION_CHECK_LENGTH <= length history)%nat
  then forallb (fun flips => bool_decide (flips = 0%Z))
               (lastSlice STAGNATION_CHECK_LENGTH history)
  else false.

(** [calculateFitness], reading [groundTruthTrajectoryRef.current] as
    [trajectory].  [None]: the evaluation throws; [Some NaN]: it returns
    [NaN]. *)
Definition calculateFitness (trajectory : list TrajectoryStep)
    (params : SimulationParameters) : option (JsNumber R) :=
  match trajectory with
  | [] => Some (Num 0)
  | first :: _ =>
      let initialGrid := grid first in
      st ← foldlM (fitnessStep trajectory params)
                  {| quantumGrid := createQubitGridFromClassical initialGrid;
                     prevClassicalGrid := initialGrid;
                     totalMismatch := Num 0%Z; populationError := Num 0%Z;
                     dynamismError := 0; candidateDynamismHistory := [] |}
                  (seq 0 FITNESS_SIM_STEPS);
      let totalError :=
        lift2 Rplus
              (lift2 Rplus (lift1 IZR (totalMismatch st))
                     (lift1 (fun e => IZR e * POPULATION_PENALTY_WEIGHT)
                            (populationError st)))
              (Num (IZR (dynamismError st) * DYNAMISM_ERROR_WEIGHT)) in
      let fitness := lift1 (fun e => 1 / (1 + e)) totalError in
      Some (if isStagnant (candidateDynamismHistory st) then fitness
            else lift1 (fun f => f * DYNAMISM_BONUS_MULTIPLIER) fitness)
  end.

(** ** Rule search: the ground truth ([precomputeGroundTruth]) *)

(** The [k]-th value returned by the generator [createSeededRandom(seed)]. *)
Definition seededRandom (seed : Z) (k : nat) : R :=
  let x := sin (IZR (seed + Z.of_nat k)) * 10000 in
  x - IZR (Zfloor x).

(** [grid.flat().reduce((a, b) => a + b, 0)] *)
Definition flatSum (g : ClassicalGridState) : Z :=
  foldl (fun a b => (a + b)%Z) 0%Z (concat g).

(** The number of cells of the 32 x 32 window where [g] and [prevGrid] differ. *)
Definition countFlips (g prevGrid : ClassicalGridState) : option Z :=
  foldlM (fun flips y =>
            foldlM (fun flips x =>
                      row ← g !! y;
                      prevRow ← prevGrid !! y;
                      Some (if bool_decide (row !! x = prevRow !! x)
                            then flips else (flips + 1)%Z))
                   flips (seq 0 FITNESS_GRID_SIZE))
         0%Z (seq 0 FITNESS_GRID_SIZE).

(** One iteration of the loop of [precomputeGroundTruth]: the state is the
    current grid and the trajectory built so far. *)
Definition groundTruthStep (st : ClassicalGridState * list TrajectoryStep)
    (i : nat) : option (ClassicalGridState * list TrajectoryStep) :=
  let '(prevGrid, trajectory) := st in
  g ← performGOLStep prevGrid;
  flips ← countFlips g prevGrid;
  Some (g, trajectory ++ [{| grid := g; population := flatSum g;
                             flipsSincePrevStep := flips |}]).

Definition seedGrid : ClassicalGridState :=
  map (fun y =>
         map (fun x =>
                if Rgt_dec (seededRandom SEED (y * FITNESS_GRID_SIZE + x)) (6 / 10)
                then 1%Z else 0%Z)
             (seq 0 FITNESS_GRID_SIZE))
      (seq 0 FITNESS_GRID_SIZE).

Definition precomputeGroundTruth : option (list TrajectoryStep) :=
  let g := seedGrid in
  snd <$> foldlM groundTruthStep
            (g, [{| grid := g; population := flatSum g; flipsSincePrevStep := 0 |}])
            (seq 0 FITNESS_SIM_STEPS).

(** ** Rule search: the genetic algorithm *)

Record SearchProgress : Type := mkSearchProgress {
  generation : Z;
  bestFitness : R
}.

(** The state and the refs of the hook [useRuleSearch]. *)
Record SearchState : Type := mkSearchState {
  isSearching : bool;
  searchProgress : SearchProgress;
  bestParams : option SimulationParameters;
  populationRef : list SimulationParameters;
  generationRef : Z;
  groundTruthTrajectoryRef : list TrajectoryStep
}.

(** An element [{ params, fitness }] of [fitnessScores]. *)
Record Scored : Type := mkScored {
  params : SimulationParameters;
  fitness : R
}.

(** [{ params: p, fitness: calculateFitness(p) }].  With a fitness that is
    [NaN] the comparison function of the sort is not consistent and the order
    of [fitnessScores] is left to the implementation: such a score is outside
    of the model ([None]). *)
Definition scoreOf (trajectory : list TrajectoryStep)
    (p : SimulationParameters) : option Scored :=
  f ← calculateFitness trajectory p;
  match f with
  | Num f => Some {| params := p; fitness := f |}
  | NaN => None
  end.

(** [fitnessScores.sort((a, b) => b.fitness - a.fitness)]: a stable sort,
    by decreasing fitness. *)
Fixpoint insertScored (a : Scored) (l : list Scored) : list Scored :=
  match l with
  | [] => [a]
  | b :: l' => if Rlt_dec (fitness a) (fitness b)
               then b :: insertScored a l'
               else a :: b :: l'
  end.

Definition sortScores (l : list Scored) : list Scored :=
  foldr insertScored [] l.

(** Computations that call [Math.random()] and may throw: the state is the
    number of values drawn so far. *)
Definition Rand (A : Type) : Type := nat -> option (A * nat).

Definition ret {A : Type} (a : A) : Rand A := fun n => Some (a, n).

Definition bind {A B : Type} (m : Rand A) (k : A -> Rand B) : Rand B :=
  fun n => match m n with
           | Some (a, n') => k a n'
           | None => None
           end.

Definition liftOption {A : Type} (o : option A) : Rand A :=
  fun n => match o with
           | Some a => Some (a, n)
           | None => None
           end.

Declare Scope rand_scope.
Delimit Scope rand_scope with rand.
Notation "x <- m ;; k" := (bind m (fun x => k))
  (at level 200, m at level 99, k at level 200, only parsing) : rand_scope.

Section RuleSearch.

(** [random n] is the value of the [n]-th call of [Math.random()]. *)
Variable random : nat -> R.

Local Open Scope rand_scope.

Definition mathRandom : Rand R := fun n => Some (random n, S n).

Definition randomCoeff : Rand R :=
  r <- mathRandom ;; ret ((r - 1 / 2) * (2 / 10)).

(** [{ re: randomCoeff(), im: randomCoeff() }] *)
Definition randomComplex : Rand Complex :=
  a <- randomCoeff ;; b <- randomCoeff ;;
  ret {| re := a; im := b |}.

Definition createRandomCoefficients : Rand PauliCoefficients :=
  i <- randomComplex ;; x <- randomComplex ;;
  y <- randomComplex ;; z <- randomComplex ;;
  ret {| cI := i; cX := x; cY := y; cZ := z |}.

(** [w_self] starts near the identity. *)
Definition createRandomParams : Rand SimulationParameters :=
  a <- randomCoeff ;; b <- randomCoeff ;;
  x <- randomComplex ;; y <- randomComplex ;; z <- randomComplex ;;
  wn <- createRandomCoefficients ;;
  ret {| gamma := 1;
         w_self := {| cI := {| re := 1 + a; im := b |};
                      cX := x; cY := y; cZ := z |};
         w_neighbor := wn |}.

Definition mutatePart (v : R) : Rand R :=
  r <- mathRandom ;;
  if Rlt_dec r MUTATION_RATE
  then (d <- mathRandom ;; ret (v + (d - 1 / 2) * 2 * MUTATION_AMOUNT))
  else ret v.

Definition mutateComplex (c : Complex) : Rand Complex :=
  a <- mutatePart (re c) ;; b <- mutatePart (im c) ;;
  ret {| re := a; im := b |}.

Definition mutateCoefficients (coeffs : PauliCoefficients)
  : Rand PauliCoefficients :=
  i <- mutateComplex (cI coeffs) ;; x <- mutateComplex (cX coeffs) ;;
  y <- mutateComplex (cY coeffs) ;; z <- mutateComplex (cZ coeffs) ;;
  ret {| cI := i; cX := x; cY := y; cZ := z |}.

Definition mutate (p : SimulationParameters) : Rand SimulationParameters :=
  ws <- mutateCoefficients (w_self p) ;;
  wn <- mutateCoefficients (w_neighbor p) ;;
  ret {| gamma := 1; w_self := ws; w_neighbor := wn |}.

Definition pick {A : Type} (a b : A) : Rand A :=
  r <- mathRandom ;; ret (if Rlt_dec r (1 / 2) then a else b).

Definition crossoverCoefficients (p1 p2 : PauliCoefficients)
  : Rand PauliCoefficients :=
  i <- pick (cI p1) (cI p2) ;; x <- pick (cX p1) (cX p2) ;;
  y <- pick (cY p1) (cY p2) ;; z <- pick (cZ p1) (cZ p2) ;;
  ret {| cI := i; cX := x; cY := y; cZ := z |}.

Definition crossover (parent1 parent2 : SimulationParameters)
  : Rand SimulationParameters :=
  ws <- crossoverCoefficients (w_self parent1) (w_self parent2) ;;
  wn <- crossoverCoefficients (w_neighbor parent1) (w_neighbor parent2) ;;
  ret {| gamma := 1; w_self := ws; w_neighbor := wn |}.

(** [fitnessScores[Math.floor(Math.random() * fitnessScores.length)]];
    reading a field of an [undefined] contestant throws. *)
Definition contestant (fitnessScores : list Scored) : Rand Scored :=
  r <- mathRandom ;;
  liftOption
    (jsIndex fitnessScores
             (Some (Zfloor (r * INR (length fitnessScores))))).

Definition selectParent (fitnessScores : list Scored)
  : Rand SimulationParameters :=
  contestant1 <- contestant fitnessScores ;;
  contestant2 <- contestant fitnessScores ;;
  let '(winner, loser) :=
    if Rgt_dec (fitness contestant1) (fitness contestant2)
    then (contestant1, contestant2) else (contestant2, contestant1) in
  r <- mathRandom ;;
  ret (if Rlt_dec r SELECTION_NOISE_PROBABILITY
       then params loser else params winner).

(** The loop [while (newPopulation.length < POPULATION_SIZE)]: every
    iteration pushes one child, so [n] counts the missing individuals. *)
Fixpoint fillPopulation (n : nat) (fitnessScores : list Scored)
    (newPopulation : list SimulationParameters)
  : Rand (list SimulationParameters) :=
  match n with
  | O => ret newPopulation
  | S n' =>
      parent1 <- selectParent fitnessScores ;;
      parent2 <- selectParent fitnessScores ;;
      r <- mathRandom ;;
      child <- (if Rlt_dec r CROSSOVER_RATE
                then crossover parent1 parent2
                else ret parent1) ;;
      child <- mutate child ;;
      fillPopulation n' fitnessScores (newPopulation ++ [child])
  end.

(** One call of [runGeneration], on the state of the latest render.
    [None]: the call throws, or a fitness is [NaN] (see [scoreOf]). *)
Definition runGeneration (s : SearchState) : Rand SearchState :=
  let generationRef' := (generationRef s + 1)%Z in
  fitnessScores <-
    liftOption
      (mapM (scoreOf (groundTruthTrajectoryRef s)) (populationRef s)) ;;
  let fitnessScores := sortScores fitnessScores in
  bestIndividual <- liftOption (fitnessScores !! 0%nat) ;;
  let currentBestFitness :=
    match bestParams s with
    | Some _ => bestFitness (searchProgress s)
    | None => -1
    end in
  let improved :=
    Rgt_dec (fitness bestIndividual) (currentBestFitness + 1 / 10 ^ 9) in
  let bestParams' :=
    if improved then Some (params bestIndividual) else bestParams s in
  let searchProgress' :=
    if improved
    then {| generation := generationRef';
            bestFitness := fitness bestIndividual |}
    else {| generation := generationRef';
            bestFitness := bestFitness (searchProgress s) |} in
  if Rgt_dec (fitness bestIndividual) (149 / 100)
  then ret {| isSearching := false;
              searchProgress := searchProgress';
              bestParams := bestParams';
              populationRef := populationRef s;
              generationRef := generationRef';
              groundTruthTrajectoryRef := groundTruthTrajectoryRef s |}
  else
    elite <- liftOption
               (mapM (fun i => params <$> fitnessScores !! i)
                     (seq 0 ELITISM_COUNT)) ;;
    newPopulation <-
      fillPopulation (POPULATION_SIZE - length elite) fitnessScores elite ;;
    ret {| isSearching := isSearching s;
           searchProgress := searchProgress';
           bestParams := bestParams';
           populationRef := newPopulation;
           generationRef := generationRef';
           groundTruthTrajectoryRef := groundTruthTrajectoryRef s |}.

(** [Array.from({ length: n }, createRandomParams)] *)
Fixpoint randomPopulation (n : nat) : Rand (list SimulationParameters) :=
  match n with
  | O => ret []
  | S n' => p <- createRandomParams ;;
            ps <- randomPopulation n' ;;
            ret (p :: ps)
  end.

Definition initializeSearch (s : SearchState) : Rand SearchState :=
  trajectory <- liftOption precomputeGroundTruth ;;
  pop <- randomPopulation POPULATION_SIZE ;;
  ret {| isSearching := isSearching s;
         searchProgress := {| generation := 0; bestFitness := 0 |};
         bestParams := None;
         populationRef := pop;
         generationRef := 0;
         groundTruthTrajectoryRef := trajectory |}.

(** The states of a search: those set up by [initializeSearch], and those
    that completed calls of [runGeneration] lead to. *)
Inductive reachable : SearchState -> Prop :=
| reachable_init s0 n s n' :
    initializeSearch s0 n = Some (s, n') -> reachable s
| reachable_step s n s' n' :
    reachable s -> runGeneration s n = Some (s', n') -> reachable s'.

(** [generations s k s']: [k] completed calls of [runGeneration] lead from
    [s] to [s']. *)
Inductive generations : SearchState -> nat -> SearchState -> Prop :=
| generations_none s : generations s 0 s
| generations_next s k s1 n s2 n' :
    generations s k s1 -> runGeneration s1 n = Some (s2, n') ->
    generations s (S k) s2.

End RuleSearch.

(** ** Reversible registers: the other operations of the hook *)

(** [base[r][c] = 1].  [base[r]] undefined throws.  A negative [c] names a
    property that is no element, so the cells stay as they are; [c] equal to
    the length appends; a larger [c] would leave holes in the array, which is
    no grid any more: [None] as well. *)
Definition setCell (base : ClassicalGridState) (r c : Z)
  : option ClassicalGridState :=
  row ← jsIndex base (Some r);
  if (c <? 0)%Z then Some base
  else if (c <? Z.of_nat (length row))%Z
  then Some (<[Z.to_nat r := <[Z.to_nat c := 1%Z]> row]> base)
  else if (c =? Z.of_nat (length row))%Z
  then Some (<[Z.to_nat r := row ++ [1%Z]]> base)
  else None.

Definition placePattern (pattern : list (list Z)) : option ClassicalGridState :=
  let base := createGrid 0 in
  match pattern with
  | [] => Some base
  | row0 :: _ =>
      let patternHeight := length pattern in
      let patternWidth := length row0 in
      let startY := ((Z.of_nat GRID_SIZE - Z.of_nat patternHeight) / 2)%Z in
      let startX := ((Z.of_nat GRID_SIZE - Z.of_nat patternWidth) / 2)%Z in
      foldlM (fun base y =>
                foldlM (fun base x =>
                          if bool_decide (pattern !! y ≫= (.!! x) = Some 1%Z)
                          then setCell base (startY + Z.of_nat y)
                                       (startX + Z.of_nat x)
                          else Some base)
                       base (seq 0 patternWidth))
             base (seq 0 patternHeight)
  end.

(** The enum [Pattern] and the catalogue [PATTERNS] ([types.ts], [constants.ts]). *)
Inductive Pattern : Type := RANDOM | GLIDER | LWSS | BLINKER | CLEAR.

Definition PATTERNS (pattern : Pattern) : list (list Z) :=
  match pattern with
  | RANDOM => []
  | CLEAR => []
  | GLIDER => [[0; 1; 0]; [0; 0; 1]; [1; 1; 1]]
  | LWSS => [[1; 0; 0; 1; 0]; [0; 0; 0; 0; 1]; [1; 0; 0; 0; 1]; [0; 1; 1; 1; 1]]
  | BLINKER => [[1; 1; 1]]
  end%Z.

Definition toggleSystemCell (x y : nat) (r : Registers) : Registers :=
  {| systemGrid :=
       imap (fun rowIndex row =>
               imap (fun colIndex value =>
                       if (rowIndex =? y)%nat && (colIndex =? x)%nat
                       then (1 - value)%Z else value)
                    row)
            (systemGrid r);
     targetGrid := targetGrid r |}.

Definition clearAll (r : Registers) : Registers :=
  {| systemGrid := createGrid 0; targetGrid := createGrid 0 |}.

Definition resetTarget (r : Registers) : Registers :=
  {| systemGrid := systemGrid r; targetGrid := createGrid 0 |}.

(** [target ^= computePreview], cell by cell. *)
Definition computeIntoTarget (r : Registers) : option Registers :=
  computePreview ← performGOLStep (systemGrid r);
  newTarget ← xorInto (targetGrid r) computePreview;
  Some {| systemGrid := systemGrid r; targetGrid := newTarget |}.

Definition swapRegisters (r : Registers) : Registers :=
  {| systemGrid := cloneGrid (targetGrid r);
     targetGrid := cloneGrid (systemGrid r) |}.

(** The number of cells of the 32 x 32 window that the next step changes. *)
Definition changedCells (r : Registers) : option Z :=
  computePreview ← performGOLStep (systemGrid r);
  foldlM (fun delta y =>
            foldlM (fun delta x =>
                      previewRow ← computePreview !! y;
                      systemRow ← systemGrid r !! y;
                      Some (if bool_decide (previewRow !! x = systemRow !! x)
                            then delta else (delta + 1)%Z))
                   delta (seq 0 GRID_SIZE))
         0%Z (seq 0 GRID_SIZE).

(** [arr.map(f)] for a callback that draws random numbers. *)
Fixpoint mapRand {A B : Type} (f : A -> Rand B) (l : list A) : Rand (list B) :=
  match l with
  | [] => ret []
  | a :: l' => bind (f a) (fun b => bind (mapRand f l') (fun bs => ret (b :: bs)))
  end.

Section ReversiblePatterns.

(** [random n] is the value of the [n]-th call of [Math.random()]. *)
Variable random : nat -> R.

Local Open Scope rand_scope.

(** [createGrid(0).map(row => row.map(() => (Math.random() > 0.7 ? 1 : 0)))] *)
Definition randomSystem : Rand ClassicalGridState :=
  mapRand (fun row : list Z =>
             mapRand (fun _ : Z =>
                        r <- mathRandom random ;;
                        ret (if Rgt_dec r (7 / 10) then 1%Z else 0%Z))
                     row)
          (createGrid 0).

Definition setPattern (pattern : Pattern) (r : Registers) : Rand Registers :=
  system <- match pattern with
            | RANDOM => randomSystem
            | CLEAR => ret (createGrid 0)
            | _ => liftOption (placePattern (PATTERNS pattern))
            end ;;
  ret {| systemGrid := system; targetGrid := createGrid 0 |}.

End ReversiblePatterns.

(** ** The quantum grid of the main view ([hooks/useQuantumLife.ts]) *)

Definition GRID_WIDTH : nat := 128.
Definition GRID_HEIGHT : nat := 128.

(** All cells start as |0>. *)
Definition createEmptyGrid : GridState :=
  replicate GRID_HEIGHT (replicate GRID_WIDTH ket0).

(** ** Notions used to state the properties *)

(** The cell in row [y] and column [x]. *)
Definition cellOf {A : Type} (g : list (list A)) (y x : nat) : option A :=
  g !! y ≫= (.!! x).

(** A grid of height [H] and width [W]. *)
Definition isGrid {A : Type} (H W : nat) (g : list (list A)) : Prop :=
  length g = H /\ Forall (fun row => length row = W) g.

(** A grid of 0/1 cells. *)
Definition isBinary (g : ClassicalGridState) : Prop :=
  Forall (Forall (fun cell => cell = 0%Z \/ cell = 1%Z)) g.

(** The coordinate [k + off] on a torus of size [n]. *)
Definition wrap (k : nat) (off : Z) (n : nat) : nat :=
  Z.to_nat ((Z.of_nat k + off) mod Z.of_nat n).

Definition qadd (a b : QubitState) : QubitState := (cadd a.1 b.1, cadd a.2 b.2).

Definition qubitAt (g : GridState) (y x : nat) : QubitState :=
  default (czero, czero) (cellOf g y x).

(** The component-wise sum of the eight toroidal neighbours of [(y, x)]. *)
Definition neighborSum (g : GridState) (H W y x : nat) : QubitState :=
  foldl (fun acc '(i, j) => qadd acc (qubitAt g (wrap y i H) (wrap x j W)))
        (czero, czero) neighborOffsets.

(** The normalized coherently evolved state of cell [(y, x)]:
    [normalize (W_self * own + W_neighbor * neighbourSum)]. *)
Definition coherentState (g : GridState) (p : SimulationParameters)
    (H W y x : nat) : QubitState :=
  normalizeQubit
    (qadd (applyMatrix (constructMatrix (w_self p)) (qubitAt g y x))
          (applyMatrix (constructMatrix (w_neighbor p)) (neighborSum g H W y x))).

(** [v] clamped to the interval [[lo, hi]]. *)
Definition clamp (v lo hi : R) : R :=
  if Rlt_dec v lo then lo else if Rlt_dec hi v then hi else v.

(** The probability of basis state 1 after decoherence. *)
Definition collapsedProbability (gamma p : R) : R :=
  let attractor := if Rle_dec (1 / 2) p then 1 else 0 in
  clamp ((1 - gamma) * p + gamma * attractor) 0 1.

(** [l] moved by [k] places around the torus: the element at index [i] goes
    to index [i + k]. *)
Definition rotateZ {A : Type} (k : Z) (l : list A) : list A :=
  rotate (Z.to_nat ((- k) mod Z.of_nat (length l))) l.

(** The toroidal translation of a grid by [(dy, dx)]. *)
Definition translateGrid {A : Type} (dy dx : Z) (g : list (list A))
  : list (list A) :=
  rotateZ dy (map (rotateZ dx) g).

Definition cellValue (g : ClassicalGridState) (y x : nat) : Z :=
  default 0%Z (cellOf g y x).

(** The number of live cells among the eight toroidal neighbours of [(y, x)]. *)
Definition liveNeighbors (g : ClassicalGridState) (H W y x : nat) : Z :=
  foldl (fun acc '(i, j) => (acc + cellValue g (wrap y i H) (wrap x j W))%Z)
        0%Z neighborOffsets.

(** Conway's rule: survival with 2 or 3 neighbours, birth with 3. *)
Definition golNext (cell count : Z) : Z :=
  if ((cell =? 1) && ((count =? 2) || (count =? 3)))%Z then 1%Z
  else if ((cell =? 0) && (count =? 3))%Z then 1%Z
  else 0%Z.

(** One generation of Life on the [H] x [W] torus. *)
Definition golStep (H W : nat) (g : ClassicalGridState) : ClassicalGridState :=
  map (fun y =>
         map (fun x => golNext (cellValue g y x) (liveNeighbors g H W y x))
             (seq 0 W))
      (seq 0 H).

Definition allZero (g : ClassicalGridState) : Prop :=
  Forall (Forall (fun cell => cell = 0%Z)) g.

(** A ground truth as [precomputeGroundTruth] builds it: the initial grid and
    one snapshot per simulated step, each of the size of the fitness grid. *)
Definition wfTrajectory (trajectory : list TrajectoryStep) : Prop :=
  length trajectory = S FITNESS_SIM_STEPS /\
  Forall (fun s => isGrid FITNESS_GRID_SIZE FITNESS_GRID_SIZE (grid s)) trajectory.

(** [k] is [c] or one of its two neighbours on a ring of size [n]. *)
Definition near (n c k : nat) : bool :=
  (k =? c)%nat || (k =? wrap c 1 n)%nat || (k =? wrap c (-1) n)%nat.

(** The [H] x [W] grid that is all-zero except for the blinker [[1,1,1]]
    lying in row [y0], centred on column [x0]. *)
Definition horizontalBlinker (H W y0 x0 : nat) : ClassicalGridState :=
  map (fun y =>
         map (fun x => if (y =? y0)%nat && near W x0 x then 1%Z else 0%Z)
             (seq 0 W))
      (seq 0 H).

(** The same blinker standing in column [x0], centred on row [y0]. *)
Definition verticalBlinker (H W y0 x0 : nat) : ClassicalGridState :=
  map (fun y =>
         map (fun x => if near H y0 y && (x =? x0)%nat then 1%Z else 0%Z)
             (seq 0 W))
      (seq 0 H).

(** ** Initial values ([constants.ts] and the hooks) *)

Definition ZERO_C : Complex := {| re := 0; im := 0 |}.
Definition ONE_C : Complex := {| re := 1; im := 0 |}.

Definition DEFAULT_PARAMETERS : SimulationParameters :=
  {| gamma := 1;
     w_self := {| cI := ONE_C; cX := ZERO_C; cY := ZERO_C; cZ := ZERO_C |};
     w_neighbor := {| cI := ZERO_C; cX := ZERO_C; cY := ZERO_C; cZ := ZERO_C |} |}.

(** The state of [useRuleSearch] before the first [initializeSearch]. *)
Definition initialSearchState : SearchState :=
  {| isSearching := false;
     searchProgress := {| generation := 0; bestFitness := 0 |};
     bestParams := None;
     populationRef := [];
     generationRef := 0;
     groundTruthTrajectoryRef := [] |}.

(** A ground truth with the data that [precomputeGroundTruth] records: the
    initial grid and one snapshot per simulated step, each a 32 x 32 grid of
    0/1 cells with a population and a number of flips between 0 and the
    number of cells. *)
Definition groundTruthData (trajectory : list TrajectoryStep) : Prop :=
  length trajectory = S FITNESS_SIM_STEPS /\
  Forall (fun s =>
            isGrid FITNESS_GRID_SIZE FITNESS_GRID_SIZE (grid s) /\
            isBinary (grid s) /\
            (0 <= population s <= 1024)%Z /\
            (0 <= flipsSincePrevStep s <= 1024)%Z) trajectory.

(** A ground truth where nothing ever lives. *)
Definition barrenTrajectory : list TrajectoryStep :=
  replicate (S FITNESS_SIM_STEPS)
            {| grid := replicate FITNESS_GRID_SIZE (replicate FITNESS_GRID_SIZE 0%Z);
               population := 0; flipsSincePrevStep := 0 |}.

(** ** Invariants used in the proofs *)

(** Offsets that keep [k + off + n] non-negative. *)
Definition smallOffsets (offs : list (Z * Z)) : Prop :=
  Forall (fun ij => (-1 <= ij.1)%Z /\ (-1 <= ij.2)%Z) offs.

(** A total that is not below zero, when it is a number. *)
Definition nonnegNumber (n : JsNumber Z) : Prop :=
  match n with
  | Num v => (0 <= v)%Z
  | NaN => True
  end.

(** The error totals of the fitness loop never go below zero. *)
Definition fitnessLoopNonneg (st : FitnessLoop) : Prop :=
  nonnegNumber (totalMismatch st) /\ nonnegNumber (populationError st) /\
  (0 <= dynamismError st)%Z.

(** The grids of the fitness loop keep the size of the fitness grid, and its
    totals stay numbers. *)
Definition fitnessLoopGrids (st : FitnessLoop) : Prop :=
  isGrid FITNESS_GRID_SIZE FITNESS_GRID_SIZE (quantumGrid st) /\
  isGrid FITNESS_GRID_SIZE FITNESS_GRID_SIZE (prevClassicalGrid st) /\
  totalMismatch st <> NaN /\ populationError st <> NaN.

(** The invariant of the search state. *)
Definition searchInvariant (s : SearchState) : Prop :=
  generation (searchProgress s) = generationRef s /\
  (bestParams s = None -> bestFitness (searchProgress s) = 0).

(** The state of the loop of [precomputeGroundTruth]. *)
Definition groundTruthLoop (st : list (list Z) * list TrajectoryStep) : Prop :=
  isGrid FITNESS_GRID_SIZE FITNESS_GRID_SIZE st.1 /\
  Forall (fun s => isGrid FITNESS_GRID_SIZE FITNESS_GRID_SIZE (grid s)) st.2.

(** Computations that never throw. *)
Definition total {A : Type} (m : Rand A) : Prop := forall n, is_Some (m n).

(** ** Notions used to state the further properties *)

(** [n] applications of [performGOLStep]. *)
Definition golSteps (n : nat) (g : ClassicalGridState)
  : option ClassicalGridState :=
  Nat.iter n (fun o => o ≫= performGOLStep) (Some g).

(** The cell [(r, c)] of the 32 x 32 grid on which [pattern], of height [h]
    and width [w], lies centred: its top-left corner is at
    [((32 - h) / 2, (32 - w) / 2)]. *)
Definition centredCell (h w : nat) (pattern : list (list Z)) (r c : nat) : Z :=
  let sy := ((GRID_SIZE - h) / 2)%nat in
  let sx := ((GRID_SIZE - w) / 2)%nat in
  if bool_decide ((sy <= r)%nat /\ (sx <= c)%nat /\
                  cellOf pattern (r - sy) (c - sx) = Some 1%Z)
  then 1%Z else 0%Z.

(** The cells that [placePattern] has written when it reaches the pattern
    cell [(y, x)]. *)
Definition placedSoFar (h w : nat) (pattern : list (list Z)) (y x : nat)
    (g : ClassicalGridState) : Prop :=
  let sy := ((GRID_SIZE - h) / 2)%nat in
  let sx := ((GRID_SIZE - w) / 2)%nat in
  isGrid GRID_SIZE GRID_SIZE g /\
  forall r c, (r < GRID_SIZE)%nat -> (c < GRID_SIZE)%nat ->
    cellValue g r c
    = if bool_decide ((sy <= r)%nat /\ (sx <= c)%nat /\
                      ((r - sy < y)%nat \/ ((r - sy)%nat = y /\ (c - sx < x)%nat)) /\
                      cellOf pattern (r - sy) (c - sx) = Some 1%Z)
      then 1%Z else 0%Z.

(** The double loop that counts the cells where two grids differ, on the
    window of [n] x [n] cells. *)
Definition countDifferences (n : nat) (a b : ClassicalGridState) : option Z :=
  foldlM (fun delta y =>
            foldlM (fun delta x =>
                      rowA ← a !! y;
                      rowB ← b !! y;
                      Some (if bool_decide (rowA !! x = rowB !! x)
                            then delta else (delta + 1)%Z))
                   delta (seq 0 n))
         0%Z (seq 0 n).

(** The state of [countDifferences] when it reaches the cell [(y, x)]:
    [delta] counts the differences met so far. *)
Definition differencesSoFar (n : nat) (a b : ClassicalGridState) (y x : nat)
    (delta : Z) : Prop :=
  (0 <= delta <= Z.of_nat (y * n + x))%Z /\
  (delta = 0%Z <->
   forall r c, ((r < y)%nat /\ (c < n)%nat) \/ (r = y /\ (c < x)%nat) ->
               cellOf a r c = cellOf b r c).

(** Scores in decreasing order of fitness. *)
Definition descending (l : list Scored) : Prop :=
  forall i j a b, (i < j)%nat -> l !! i = Some a -> l !! j = Some b ->
                  fitness b <= fitness a.

(** What the search keeps true of its population. *)
Definition populationInvariant (s : SearchState) : Prop :=
  length (populationRef s) = POPULATION_SIZE /\
  Forall (fun p => gamma p = 1) (populationRef s).

(** What the search keeps true of the best individual it reports. *)
Definition bestInvariant (s : SearchState) : Prop :=
  match bestParams s with
  | Some p => calculateFitness (groundTruthTrajectoryRef s) p
              = Some (Num (bestFitness (searchProgress s)))
  | None => generationRef s = 0%Z /\ bestFitness (searchProgress s) = 0
  end.

(** The eight coefficients and the sixteen real parts of a parameter set. *)
Definition coefficientsOf (p : SimulationParameters) : list Complex :=
  [cI (w_self p); cX (w_self p); cY (w_self p); cZ (w_self p);
   cI (w_neighbor p); cX (w_neighbor p); cY (w_neighbor p); cZ (w_neighbor p)].

Definition partsOf (p : SimulationParameters) : list R :=
  coefficientsOf p ≫= fun c => [re c; im c].

(** The state of the loop of [precomputeGroundTruth], in full: the trajectory
    ends with the current grid, its snapshots are 32 x 32 grids of 0/1 cells
    with their population, and each snapshot is the classical step of the one
    before, with the number of cells that the step flipped. *)
Definition groundTruthInvariant (first : ClassicalGridState)
    (st : ClassicalGridState * list TrajectoryStep) : Prop :=
  (exists s, last st.2 = Some s /\ grid s = st.1) /\
  (exists s, st.2 !! 0%nat = Some s /\ grid s = first /\
             flipsSincePrevStep s = 0%Z) /\
  (forall i s, st.2 !! i = Some s ->
     isGrid FITNESS_GRID_SIZE FITNESS_GRID_SIZE (grid s) /\ isBinary (grid s) /\
     population s = gridPopulation (grid s) /\
     (0 <= population s <= 1024)%Z) /\
  (forall i s s', st.2 !! i = Some s -> st.2 !! S i = Some s' ->
     performGOLStep (grid s) = Some (grid s') /\
     (0 <= flipsSincePrevStep s' <= 1024)%Z /\
     (flipsSincePrevStep s' = 0%Z <-> grid s' = grid s)).

(** The totals of [compareGrids] when it reaches the cell [(y, x)], from the
    mismatch [m0]: each of the [32 y + x] cells met so far adds at most 1 to
    each total. *)
Definition totalsSoFar (m0 : Z) (y x : nat) (t : CellTotals) : Prop :=
  exists m c,
    mismatchError t = Num m /\ candidatePopulation t = Num c /\
    (m0 <= m <= m0 + Z.of_nat (FITNESS_GRID_SIZE * y + x))%Z /\
    (0 <= c <= Z.of_nat (FITNESS_GRID_SIZE * y + x))%Z /\
    (0 <= candidateFlips t <= Z.of_nat (FITNESS_GRID_SIZE * y + x))%Z.

(** The state of the fitness loop after [i] simulated steps on a ground truth
    of 0/1 grids: each step adds at most 1024 to each error total. *)
Definition errorsSoFar (i : nat) (st : FitnessLoop) : Prop :=
  isGrid FITNESS_GRID_SIZE FITNESS_GRID_SIZE (quantumGrid st) /\
  isGrid FITNESS_GRID_SIZE FITNESS_GRID_SIZE (prevClassicalGrid st) /\
  exists m e,
    totalMismatch st = Num m /\ populationError st = Num e /\
    (0 <= m <= 1024 * Z.of_nat i)%Z /\ (0 <= e <= 1024 * Z.of_nat i)%Z /\
    (0 <= dynamismError st <= 1024 * Z.of_nat i)%Z.

(** * Properties *)

(** ** Arrays and loops *)

Lemma imapM_Some {A B : Type} (f : nat -> A -> option B) (l : list A) (k : list B) :
  imapM f l = Some k <->
  length k = length l /\ forall i a, l !! i = Some a -> f i a = k !! i.
Proof.
  unfold imapM. rewrite mapM_Some, Forall2_same_length_lookup, length_imap.
  split.
  - intros [Hlen Hlk]. split; [done |]. intros i a Hi.
    destruct (lookup_lt_is_Some_2 k i) as [b Hb].
    { rewrite <- Hlen. eapply lookup_lt_Some; eauto. }
    rewrite Hb. apply (Hlk i (f i a) b); [| done].
    by rewrite list_lookup_imap, Hi.
  - intros [Hlen Hlk]. split; [done |]. intros i o b Ho Hb.
    rewrite list_lookup_imap in Ho.
    destruct (l !! i) as [a |] eqn:Hi; simplify_eq/=.
    rewrite (Hlk i a Hi). done.
Qed.

Lemma imapM_is_Some {A B : Type} (f : nat -> A -> option B) (l : list A) :
  (forall i a, l !! i = Some a -> is_Some (f i a)) -> is_Some (imapM f l).
Proof.
  intros Hf. unfold imapM. apply mapM_is_Some, Forall_lookup.
  intros i o Ho. rewrite list_lookup_imap in Ho.
  destruct (l !! i) as [a |] eqn:Hi; simplify_eq/=. by apply Hf.
Qed.

Lemma cellOf_Some {A : Type} (H W : nat) (g : list (list A)) (y x : nat) :
  isGrid H W g -> (y < H)%nat -> (x < W)%nat -> is_Some (cellOf g y x).
Proof.
  intros [Hlen Hrows] Hy Hx. unfold cellOf.
  destruct (lookup_lt_is_Some_2 g y) as [row Hrow]; [lia |].
  rewrite Hrow. simpl. apply lookup_lt_is_Some_2.
  rewrite Forall_lookup in Hrows. rewrite (Hrows y row Hrow). done.
Qed.

Lemma isGrid_row {A : Type} (H W : nat) (g : list (list A)) (y : nat) row :
  isGrid H W g -> g !! y = Some row -> length row = W.
Proof. intros [_ Hrows] Hrow. rewrite Forall_lookup in Hrows. eauto. Qed.

Lemma grid_eq {A : Type} (H W : nat) (g1 g2 : list (list A)) :
  isGrid H W g1 -> isGrid H W g2 ->
  (forall y x, (y < H)%nat -> (x < W)%nat -> cellOf g1 y x = cellOf g2 y x) ->
  g1 = g2.
Proof.
  intros G1 G2 Hcells. apply list_eq. intros y.
  destruct (decide (y < H)%nat) as [Hy | Hy].
  - destruct (lookup_lt_is_Some_2 g1 y) as [r1 Hr1]; [destruct G1; lia |].
    destruct (lookup_lt_is_Some_2 g2 y) as [r2 Hr2]; [destruct G2; lia |].
    rewrite Hr1, Hr2. f_equal. apply list_eq. intros x.
    destruct (decide (x < W)%nat) as [Hx | Hx].
    + specialize (Hcells y x Hy Hx). unfold cellOf in Hcells.
      by rewrite Hr1, Hr2 in Hcells.
    + rewrite !lookup_ge_None_2; [done | |].
      * rewrite (isGrid_row H W g2 y r2); [lia | done | done].
      * rewrite (isGrid_row H W g1 y r1); [lia | done | done].
  - rewrite !lookup_ge_None_2; [done | destruct G2; lia | destruct G1; lia].
Qed.

(** ** Toroidal indices *)

Lemma wrap_lt (k : nat) (off : Z) (n : nat) : (1 <= n)%nat -> (wrap k off n < n)%nat.
Proof.
  intros Hn. unfold wrap.
  pose proof (Z.mod_pos_bound (Z.of_nat k + off) (Z.of_nat n)). lia.
Qed.

Lemma jsIndex_wrap {A : Type} (l : list A) (k : nat) (off : Z) (n : nat) :
  (1 <= n)%nat -> (-1 <= off)%Z ->
  jsIndex l (jsRem (Z.of_nat k + off + Z.of_nat n) (Z.of_nat n)) = l !! wrap k off n.
Proof.
  intros Hn Hoff. unfold jsRem, jsIndex, wrap.
  destruct (Z.eqb_spec (Z.of_nat n) 0); [lia |].
  rewrite Z.rem_mod_nonneg by lia.
  replace (Z.of_nat k + off + Z.of_nat n)%Z
    with (Z.of_nat k + off + 1 * Z.of_nat n)%Z by lia.
  rewrite Z_mod_plus_full.
  pose proof (Z.mod_pos_bound (Z.of_nat k + off) (Z.of_nat n)).
  destruct (Z.ltb_spec ((Z.of_nat k + off) mod Z.of_nat n) 0); [lia | done].
Qed.

Lemma neighborOffsets_small : smallOffsets neighborOffsets.
Proof. unfold smallOffsets, neighborOffsets. repeat constructor; simpl; lia. Qed.

(** ** The quantum step, cell by cell *)

Section QuantumStep.

Variables (H W : nat) (g : GridState) (p : SimulationParameters).
Hypothesis (Hgrid : isGrid H W g) (HH : (1 <= H)%nat) (HW : (1 <= W)%nat).

Lemma qubitAt_cellOf (y x : nat) :
  (y < H)%nat -> (x < W)%nat -> cellOf g y x = Some (qubitAt g y x).
Proof.
  intros Hy Hx. unfold qubitAt.
  destruct (cellOf_Some H W g y x Hgrid Hy Hx) as [q ->]. done.
Qed.

Lemma sumNeighbors_fold (y x : nat) (offs : list (Z * Z)) (acc : QubitState) :
  smallOffsets offs ->
  foldlM (fun (sumNeighborState : QubitState) '(i, j) =>
            let ny := jsRem (Z.of_nat y + i + Z.of_nat H) (Z.of_nat H) in
            let nx := jsRem (Z.of_nat x + j + Z.of_nat W) (Z.of_nat W) in
            row ← jsIndex g ny;
            neighborQubit ← jsIndex row nx;
            Some (cadd sumNeighborState.1 neighborQubit.1,
                  cadd sumNeighborState.2 neighborQubit.2))
         acc offs
  = Some (foldl (fun acc '(i, j) => qadd acc (qubitAt g (wrap y i H) (wrap x j W)))
                acc offs).
Proof.
  intros Hoffs. revert acc.
  induction Hoffs as [| [i j] offs [Hi Hj] _ IH]; intros acc; [done |].
  cbn [foldlM foldl]. simpl in Hi, Hj.
  rewrite jsIndex_wrap by done.
  pose proof (qubitAt_cellOf (wrap y i H) (wrap x j W)
                (wrap_lt y i H HH) (wrap_lt x j W HW)) as Hc.
  unfold cellOf in Hc.
  destruct (g !! wrap y i H) as [row |] eqn:Hrow; [| by simplify_eq/=].
  simpl in Hc |- *. rewrite jsIndex_wrap by done. rewrite Hc. simpl.
  apply IH.
Qed.

Lemma sumNeighbors_spec (y x : nat) :
  sumNeighbors g (Z.of_nat H) (Z.of_nat W) (Z.of_nat y) (Z.of_nat x)
  = Some (neighborSum g H W y x).
Proof. apply sumNeighbors_fold, neighborOffsets_small. Qed.

Lemma evolveCell_spec (y x : nat) :
  (y < H)%nat -> (x < W)%nat ->
  evolveCell g (Z.of_nat H) (Z.of_nat W) (constructMatrix (w_self p))
             (constructMatrix (w_neighbor p)) y x (qubitAt g y x)
  = Some (coherentState g p H W y x).
Proof.
  intros Hy Hx. unfold evolveCell. rewrite sumNeighbors_spec. done.
Qed.

(** The step succeeds on a grid, keeps its shape, and each cell of the
    result is the decohered coherent state of that cell. *)
Lemma performQuantumStep_cells :
  exists nextGrid,
    performQuantumStep g p = Some nextGrid /\
    isGrid H W nextGrid /\
    forall y x, (y < H)%nat -> (x < W)%nat ->
      cellOf nextGrid y x
      = Some (decohere (gamma p) (coherentState g p H W y x)).
Proof.
  destruct Hgrid as [Hlen Hrows].
  destruct (lookup_lt_is_Some_2 g 0) as [row0 Hrow0]; [lia |].
  assert (Hw0 : length row0 = W) by (eapply isGrid_row; eauto).
  unfold performQuantumStep. rewrite Hrow0. cbn [mbind option_bind].
  rewrite Hlen, Hw0.
  set (cellf := fun y x qubit =>
         evolveCell g (Z.of_nat H) (Z.of_nat W) (constructMatrix (w_self p))
                    (constructMatrix (w_neighbor p)) y x qubit).
  destruct (imapM_is_Some (fun y row => imapM (cellf y) row) g) as [coh Hcoh].
  { intros y row Hrow. apply imapM_is_Some. intros x q Hq.
    assert (Hy : (y < H)%nat) by (rewrite <- Hlen; eapply lookup_lt_Some; eauto).
    assert (Hx : (x < W)%nat).
    { rewrite <- (isGrid_row H W g y row Hgrid Hrow). eapply lookup_lt_Some; eauto. }
    assert (q = qubitAt g y x) as ->.
    { unfold qubitAt, cellOf. rewrite Hrow. simpl. by rewrite Hq. }
    unfold cellf. rewrite evolveCell_spec by done. done. }
  change (imapM _ g) with (imapM (fun y row => imapM (cellf y) row) g).
  rewrite Hcoh. cbn [mbind option_bind].
  apply imapM_Some in Hcoh as [Hclen Hcoh].
  eexists. split; [reflexivity |].
  assert (Hrow : forall y row, g !! y = Some row ->
            exists crow, coh !! y = Some crow /\ length crow = W /\
              forall x, (x < W)%nat ->
                crow !! x = Some (coherentState g p H W y x)).
  { intros y row Hr. specialize (Hcoh y row Hr).
    destruct (coh !! y) as [crow |] eqn:Hcrow.
    2:{ apply lookup_ge_None in Hcrow. apply lookup_lt_Some in Hr. lia. }
    apply imapM_Some in Hcoh as [Hl Hc].
    assert (Hy : (y < H)%nat) by (rewrite <- Hlen; eapply lookup_lt_Some; eauto).
    pose proof (isGrid_row H W g y row Hgrid Hr) as Hrl.
    exists crow. split; [done |]. split; [lia |]. intros x Hx.
    destruct (lookup_lt_is_Some_2 row x) as [q Hq]; [lia |].
    rewrite <- (Hc x q Hq).
    assert (q = qubitAt g y x) as ->.
    { unfold qubitAt, cellOf. rewrite Hr. simpl. by rewrite Hq. }
    unfold cellf. by apply evolveCell_spec. }
  split.
  - split; [by rewrite length_map; lia |].
    apply Forall_lookup. intros y orow Ho.
    rewrite list_lookup_fmap in Ho.
    destruct (coh !! y) as [crow |] eqn:Hcrow; simplify_eq/=.
    destruct (lookup_lt_is_Some_2 g y) as [row Hr].
    { rewrite <- Hclen. eapply lookup_lt_Some; eauto. }
    destruct (Hrow y row Hr) as (crow' & Hc' & Hl' & _). simplify_eq.
    by rewrite length_map.
  - intros y x Hy Hx.
    destruct (lookup_lt_is_Some_2 g y) as [row Hr]; [lia |].
    destruct (Hrow y row Hr) as (crow & Hc & Hl & Hx').
    unfold cellOf. rewrite list_lookup_fmap, Hc. simpl.
    rewrite list_lookup_fmap, (Hx' x Hx). done.
Qed.

End QuantumStep.

Lemma clamp01_clamp (v : R) : clamp01 v = clamp v 0 1.
Proof.
  unfold clamp01, clamp, Rmax, Rmin.
  repeat (destruct (Rle_dec _ _) || destruct (Rlt_dec _ _)); lra.
Qed.

Lemma decohere_collapsed (gamma : R) (q : QubitState) :
  decohere gamma q
  = ({| re := sqrt (1 - collapsedProbability gamma (prob1 q)); im := 0 |},
     {| re := sqrt (collapsedProbability gamma (prob1 q)); im := 0 |}).
Proof.
  unfold decohere, collapsedProbability, prob1. cbv zeta.
  by rewrite clamp01_clamp.
Qed.

(** ** Toroidal translation *)

Lemma wrap_wrap (k : nat) (a b : Z) (n : nat) :
  (1 <= n)%nat ->
  wrap (wrap k a n) b n = Z.to_nat ((Z.of_nat k + a + b) mod Z.of_nat n).
Proof.
  intros Hn. unfold wrap. f_equal.
  rewrite Z2Nat.id by (apply Z.mod_pos_bound; lia).
  by rewrite Zplus_mod_idemp_l.
Qed.

Lemma wrap_comm (k : nat) (a b : Z) (n : nat) :
  (1 <= n)%nat -> wrap (wrap k a n) b n = wrap (wrap k b n) a n.
Proof. intros Hn. rewrite !wrap_wrap by done. f_equal. f_equal. lia. Qed.

Lemma length_rotateZ {A : Type} (k : Z) (l : list A) :
  length (rotateZ k l) = length l.
Proof. apply length_rotate. Qed.

Lemma lookup_rotateZ {A : Type} (k : Z) (l : list A) (i : nat) :
  (i < length l)%nat -> rotateZ k l !! i = l !! wrap i (- k) (length l).
Proof.
  intros Hi. unfold rotateZ. rewrite lookup_rotate_r by done.
  f_equal. unfold rotate_nat_add, wrap. f_equal.
  rewrite Z2Nat.id by (apply Z.mod_pos_bound; lia).
  rewrite Zplus_mod_idemp_l. f_equal. lia.
Qed.

Lemma translateGrid_isGrid {A : Type} (H W : nat) (dy dx : Z) (g : list (list A)) :
  isGrid H W g -> isGrid H W (translateGrid dy dx g).
Proof.
  intros [Hlen Hrows]. unfold translateGrid. split.
  - by rewrite length_rotateZ, length_map.
  - apply Forall_forall. intros row Hin.
    unfold rotateZ in Hin. apply elem_of_rotate in Hin.
    apply list_elem_of_fmap in Hin as (row' & -> & Hin').
    rewrite length_rotate. rewrite Forall_forall in Hrows. auto.
Qed.

Lemma cellOf_translateGrid {A : Type} (H W : nat) (dy dx : Z)
    (g : list (list A)) (y x : nat) :
  isGrid H W g -> (y < H)%nat -> (x < W)%nat ->
  cellOf (translateGrid dy dx g) y x = cellOf g (wrap y (- dy) H) (wrap x (- dx) W).
Proof.
  intros Hg Hy Hx. pose proof Hg as [Hlen Hrows]. unfold cellOf, translateGrid.
  rewrite lookup_rotateZ by (rewrite length_map; lia).
  rewrite length_map, Hlen, list_lookup_fmap.
  destruct (lookup_lt_is_Some_2 g (wrap y (- dy) H)) as [row Hrow].
  { rewrite Hlen. apply wrap_lt. lia. }
  rewrite Hrow. simpl.
  pose proof (isGrid_row H W g _ row Hg Hrow) as Hl.
  rewrite lookup_rotateZ by lia. by rewrite Hl.
Qed.

Section Translation.

Variables (H W : nat) (g : GridState) (p : SimulationParameters) (dy dx : Z).
Hypothesis (Hgrid : isGrid H W g) (HH : (1 <= H)%nat) (HW : (1 <= W)%nat).

Lemma qubitAt_translateGrid (y x : nat) :
  (y < H)%nat -> (x < W)%nat ->
  qubitAt (translateGrid dy dx g) y x
  = qubitAt g (wrap y (- dy) H) (wrap x (- dx) W).
Proof.
  intros Hy Hx. unfold qubitAt.
  by rewrite (cellOf_translateGrid H W).
Qed.

Lemma neighborSum_translateGrid (y x : nat) :
  neighborSum (translateGrid dy dx g) H W y x
  = neighborSum g H W (wrap y (- dy) H) (wrap x (- dx) W).
Proof.
  unfold neighborSum. generalize (czero, czero). generalize neighborOffsets.
  intros offs. induction offs as [| [i j] offs IH]; intros acc; [done |].
  cbn [foldl]. rewrite IH. f_equal. f_equal.
  rewrite qubitAt_translateGrid by (apply wrap_lt; lia).
  by rewrite (wrap_comm y i), (wrap_comm x j).
Qed.

Lemma coherentState_translateGrid (y x : nat) :
  (y < H)%nat -> (x < W)%nat ->
  coherentState (translateGrid dy dx g) p H W y x
  = coherentState g p H W (wrap y (- dy) H) (wrap x (- dx) W).
Proof.
  intros Hy Hx. unfold coherentState.
  by rewrite qubitAt_translateGrid, neighborSum_translateGrid.
Qed.

Lemma performQuantumStep_translateGrid :
  performQuantumStep (translateGrid dy dx g) p
  = translateGrid dy dx <$> performQuantumStep g p.
Proof.
  destruct (performQuantumStep_cells H W g p Hgrid HH HW)
    as (out & -> & Hout & Hcells).
  destruct (performQuantumStep_cells H W (translateGrid dy dx g) p
              (translateGrid_isGrid H W dy dx g Hgrid) HH HW)
    as (out' & -> & Hout' & Hcells').
  simpl. f_equal. apply (grid_eq H W); [done | by apply translateGrid_isGrid |].
  intros y x Hy Hx.
  rewrite Hcells' by done.
  rewrite (cellOf_translateGrid H W) by done.
  rewrite Hcells by (apply wrap_lt; lia).
  by rewrite coherentState_translateGrid.
Qed.

End Translation.

(** ** The classical step, cell by cell *)

Lemma mapM_tabulate {A B : Type} (f : A -> option B) (h : A -> B) (l : list A) :
  (forall a, a ∈ l -> f a = Some (h a)) -> mapM f l = Some (h <$> l).
Proof.
  intros Hf. apply mapM_Some_2. induction l as [| a l IH]; [constructor |].
  simpl. constructor.
  - apply Hf. left.
  - apply IH. intros b Hb. apply Hf. by right.
Qed.

Lemma cellOf_tabulate {A : Type} (H W : nat) (h : nat -> nat -> A) (y x : nat) :
  (y < H)%nat -> (x < W)%nat ->
  cellOf (map (fun y => map (fun x => h y x) (seq 0 W)) (seq 0 H)) y x
  = Some (h y x).
Proof.
  intros Hy Hx. unfold cellOf.
  rewrite list_lookup_fmap, lookup_seq_lt by done. simpl.
  rewrite list_lookup_fmap, lookup_seq_lt by done. done.
Qed.

Lemma isGrid_tabulate {A : Type} (H W : nat) (h : nat -> nat -> A) :
  isGrid H W (map (fun y => map (fun x => h y x) (seq 0 W)) (seq 0 H)).
Proof.
  split.
  - by rewrite length_map, length_seq.
  - apply Forall_forall. intros row Hin.
    apply list_elem_of_fmap in Hin as (y & -> & _).
    by rewrite length_map, length_seq.
Qed.

Lemma bool_decide_Some_Z (a b : Z) :
  bool_decide (Some a = Some b) = (a =? b)%Z.
Proof.
  destruct (Z.eqb_spec a b) as [-> | Hne].
  - by apply bool_decide_eq_true_2.
  - apply bool_decide_eq_false_2. congruence.
Qed.

Lemma golRule_golNext (cell count : Z) :
  golRule (Some cell) (Some count) = golNext cell count.
Proof. unfold golRule, golNext. by rewrite !bool_decide_Some_Z. Qed.

Section ClassicalStep.

Variables (H W : nat) (g : ClassicalGridState).
Hypothesis (Hgrid : isGrid H W g) (HH : (1 <= H)%nat).

Lemma cellValue_cellOf (y x : nat) :
  (y < H)%nat -> (x < W)%nat -> cellOf g y x = Some (cellValue g y x).
Proof.
  intros Hy Hx. unfold cellValue.
  destruct (cellOf_Some H W g y x Hgrid Hy Hx) as [q ->]. done.
Qed.

Lemma neighborCount_fold (y x : nat) (offs : list (Z * Z)) (acc : Z) :
  (1 <= W)%nat -> smallOffsets offs ->
  foldlM (fun (neighborCount : option Z) '(i, j) =>
            let ny := jsRem (Z.of_nat y + i + Z.of_nat H) (Z.of_nat H) in
            let nx := jsRem (Z.of_nat x + j + Z.of_nat W) (Z.of_nat W) in
            row ← jsIndex g ny;
            Some (jsPlus neighborCount (jsIndex row nx)))
         (Some acc) offs
  = Some (Some (foldl (fun acc '(i, j) =>
                         (acc + cellValue g (wrap y i H) (wrap x j W))%Z)
                      acc offs)).
Proof.
  intros HW Hoffs. revert acc.
  induction Hoffs as [| [i j] offs [Hi Hj] _ IH]; intros acc; [done |].
  cbn [foldlM foldl]. simpl in Hi, Hj.
  rewrite jsIndex_wrap by done.
  pose proof (cellValue_cellOf (wrap y i H) (wrap x j W)
                (wrap_lt y i H HH) (wrap_lt x j W HW)) as Hc.
  unfold cellOf in Hc.
  destruct (g !! wrap y i H) as [row |] eqn:Hrow; [| by simplify_eq/=].
  simpl in Hc |- *. rewrite jsIndex_wrap by done. rewrite Hc. simpl.
  apply IH.
Qed.

Lemma neighborCount_spec (y x : nat) :
  (1 <= W)%nat ->
  neighborCount g (Z.of_nat H) (Z.of_nat W) (Z.of_nat y) (Z.of_nat x)
  = Some (Some (liveNeighbors g H W y x)).
Proof. intros HW. by apply neighborCount_fold, neighborOffsets_small. Qed.

(** On a grid the classical step is one generation of Life on the torus. *)
Lemma performGOLStep_golStep : performGOLStep g = Some (golStep H W g).
Proof.
  pose proof Hgrid as [Hlen Hrows].
  destruct (lookup_lt_is_Some_2 g 0) as [row0 Hrow0]; [lia |].
  assert (Hw0 : length row0 = W) by (eapply isGrid_row; eauto).
  unfold performGOLStep, golStep. rewrite Hrow0. cbn [mbind option_bind].
  rewrite Hlen, Hw0.
  apply mapM_tabulate. intros y Hy.
  apply list_elem_of_lookup in Hy as [iy Hy].
  apply lookup_seq in Hy as [-> Hy]. simpl.
  apply mapM_tabulate. intros x Hx.
  apply list_elem_of_lookup in Hx as [ix Hx].
  apply lookup_seq in Hx as [-> Hx]. simpl.
  rewrite neighborCount_spec by lia. cbn [mbind option_bind].
  pose proof (cellValue_cellOf iy ix Hy Hx) as Hc. unfold cellOf in Hc.
  destruct (g !! iy) as [row |] eqn:Hrow; [| by simplify_eq/=].
  simpl in Hc |- *. rewrite Hc. by rewrite golRule_golNext.
Qed.

Lemma golStep_isGrid : isGrid H W (golStep H W g).
Proof. apply isGrid_tabulate. Qed.

End ClassicalStep.

Lemma golNext_binary (cell count : Z) :
  golNext cell count = 0%Z \/ golNext cell count = 1%Z.
Proof.
  unfold golNext.
  destruct (_ && _); [by right |]. destruct (_ && _); [by right | by left].
Qed.

Lemma golStep_isBinary (H W : nat) (g : ClassicalGridState) :
  isBinary (golStep H W g).
Proof.
  unfold isBinary, golStep. apply Forall_fmap, Forall_forall. intros y _. simpl.
  apply Forall_fmap, Forall_forall. intros x _. simpl. apply golNext_binary.
Qed.

(** ** Populations of 0/1 grids *)

Lemma row_sum_binary (row : list Z) (acc : Z) :
  Forall (fun cell => cell = 0%Z \/ cell = 1%Z) row ->
  (acc <= foldl (fun sum cell => sum + cell) acc row)%Z /\
  (foldl (fun sum cell => sum + cell)%Z acc row = acc ->
   Forall (fun cell => cell = 0%Z) row).
Proof.
  intros Hrow. revert acc.
  induction Hrow as [| c row Hc _ IH]; intros acc; simpl; [by split |].
  destruct (IH (acc + c)%Z) as [Hle Hz]. split; [lia |].
  intros Heq. assert (c = 0%Z) as -> by lia. constructor; [done |].
  apply Hz. rewrite Heq. lia.
Qed.

Lemma row_sum_zero (row : list Z) (acc : Z) :
  Forall (fun cell => cell = 0%Z) row ->
  foldl (fun sum cell => sum + cell)%Z acc row = acc.
Proof.
  intros Hrow. revert acc.
  induction Hrow as [| c row -> _ IH]; intros acc; simpl; [done |].
  rewrite IH. lia.
Qed.

Lemma gridPopulation_binary (g : ClassicalGridState) :
  isBinary g -> gridPopulation g = 0%Z <-> allZero g.
Proof.
  intros Hbin. unfold gridPopulation, allZero.
  assert (Hgen : forall acc,
    (acc <= foldl (fun acc row =>
                     acc + foldl (fun sum cell => sum + cell) 0 row) acc g)%Z /\
    (foldl (fun acc row => acc + foldl (fun sum cell => sum + cell) 0 row)%Z acc g
     = acc <-> Forall (Forall (fun cell => cell = 0%Z)) g)).
  { induction Hbin as [| row g Hrow _ IH]; intros acc; simpl.
    - split; [lia |]. split; [constructor | done].
    - destruct (row_sum_binary row 0 Hrow) as [Hle Hz].
      set (s := foldl (fun sum cell => sum + cell)%Z 0%Z row) in *.
      destruct (IH (acc + s)%Z) as [Hle' Hiff]. split; [lia |]. split.
      + intros Heq. assert (s = 0%Z) by lia. constructor.
        * apply Hz. lia.
        * apply Hiff. lia.
      + intros Hall. inversion Hall as [| ? ? Hr Hg]; subst.
        assert (s = 0%Z) as Hs by (unfold s; by apply row_sum_zero).
        apply Hiff in Hg. rewrite Hs in *. lia. }
  apply Hgen.
Qed.

(** ** The reversible advance *)

Lemma jsXor_zero_binary (u : Z) :
  u = 0%Z \/ u = 1%Z -> jsXor 0 (Some u) = u.
Proof. by intros [-> | ->]. Qed.

Lemma xorInto_clean (H W : nat) (target update : ClassicalGridState) :
  isGrid H W target -> isGrid H W update ->
  allZero target -> isBinary update ->
  xorInto target update = Some update.
Proof.
  intros Ht Hu Hzero Hbin. pose proof Ht as [Htl _]. pose proof Hu as [Hul _].
  unfold xorInto. apply imapM_Some. split; [lia |].
  intros y row Hrow.
  destruct (lookup_lt_is_Some_2 update y) as [urow Hurow].
  { rewrite Hul, <- Htl. eapply lookup_lt_Some; eauto. }
  rewrite Hurow. apply imapM_Some.
  pose proof (isGrid_row H W target y row Ht Hrow) as Hrl.
  pose proof (isGrid_row H W update y urow Hu Hurow) as Hurl.
  split; [lia |]. intros x v Hv. simpl.
  destruct (lookup_lt_is_Some_2 urow x) as [u Hu'].
  { rewrite Hurl, <- Hrl. eapply lookup_lt_Some; eauto. }
  rewrite Hu'. f_equal.
  assert (v = 0%Z) as ->.
  { unfold allZero in Hzero. rewrite Forall_lookup in Hzero.
    specialize (Hzero y row Hrow). rewrite Forall_lookup in Hzero. eauto. }
  apply jsXor_zero_binary.
  unfold isBinary in Hbin. rewrite Forall_lookup in Hbin.
  specialize (Hbin y urow Hurow). rewrite Forall_lookup in Hbin. eauto.
Qed.

Lemma cloneGrid_id (g : ClassicalGridState) : cloneGrid g = g.
Proof. unfold cloneGrid. apply map_id. Qed.

Lemma advanceCycle_clean (H W : nat) (r : Registers) :
  (1 <= H)%nat -> isGrid H W (systemGrid r) -> isGrid H W (targetGrid r) ->
  allZero (targetGrid r) ->
  advanceCycle r
  = Some (true, {| systemGrid := golStep H W (systemGrid r);
                   targetGrid := systemGrid r |}).
Proof.
  intros HH Hs Ht Hzero. unfold advanceCycle.
  rewrite (performGOLStep_golStep H W) by done. cbn [mbind option_bind].
  assert (Hclean : isTargetClean r = true).
  { unfold isTargetClean. apply bool_decide_eq_true_2.
    apply gridPopulation_binary; [| done].
    unfold isBinary. eapply Forall_impl; [exact Hzero |].
    intros row Hrow. eapply Forall_impl; [exact Hrow |]. intros c ->. by left. }
  rewrite Hclean. cbn [negb].
  rewrite (xorInto_clean H W);
    [| done | apply golStep_isGrid | done | apply golStep_isBinary].
  cbn [mbind option_bind]. by rewrite !cloneGrid_id.
Qed.

Lemma advanceCycle_dirty (H W : nat) (r : Registers) :
  (1 <= H)%nat -> isGrid H W (systemGrid r) ->
  isBinary (targetGrid r) -> ~ allZero (targetGrid r) ->
  advanceCycle r = Some (false, r).
Proof.
  intros HH Hs Hbin Hnz. unfold advanceCycle.
  rewrite (performGOLStep_golStep H W) by done. cbn [mbind option_bind].
  assert (Hclean : isTargetClean r = false).
  { unfold isTargetClean. apply bool_decide_eq_false_2.
    by rewrite gridPopulation_binary. }
  by rewrite Hclean.
Qed.

(** ** Encoding a classical grid as qubits *)

Lemma getClassicalState_ket1 : getClassicalState ket1 = 1%Z.
Proof.
  unfold getClassicalState, prob1, ket1. simpl.
  destruct (Rle_dec _ _); [done | lra].
Qed.

Lemma getClassicalState_ket0 : getClassicalState ket0 = 0%Z.
Proof.
  unfold getClassicalState, prob1, ket0. simpl.
  destruct (Rle_dec _ _); [lra | done].
Qed.

Lemma createQubitGridFromClassical_isGrid (H W : nat) (g : ClassicalGridState) :
  isGrid H W g -> (1 <= H)%nat -> (1 <= W)%nat ->
  isGrid H W (createQubitGridFromClassical g) /\
  forall y x, (y < H)%nat -> (x < W)%nat ->
    cellOf (createQubitGridFromClassical g) y x
    = Some (if bool_decide (cellOf g y x = Some 1%Z) then ket1 else ket0).
Proof.
  intros Hg HH HW. pose proof Hg as [Hlen Hrows].
  unfold createQubitGridFromClassical.
  destruct g as [| row0 g']; [simpl in Hlen; lia |].
  assert (Hw0 : length row0 = W) by (by eapply (isGrid_row H W _ 0%nat)).
  rewrite bool_decide_eq_false_2 by lia. rewrite Hlen, Hw0.
  split; [apply isGrid_tabulate |].
  intros y x Hy Hx.
  by rewrite (cellOf_tabulate H W
    (fun y x => if bool_decide ((row0 :: g') !! y ≫= (.!! x) = Some 1%Z)
                then ket1 else ket0)).
Qed.

Lemma roundtrip_on_grids (H W : nat) (g : ClassicalGridState) :
  isGrid H W g -> (1 <= W)%nat -> isBinary g ->
  map (map getClassicalState) (createQubitGridFromClassical g) = g.
Proof.
  intros Hg HW Hbin. destruct (decide (H = 0)%nat) as [-> | HH].
  { destruct Hg as [Hlen _]. by destruct g. }
  destruct (createQubitGridFromClassical_isGrid H W g Hg) as [Hq Hcells];
    [lia | lia |].
  apply (grid_eq H W); [| done |].
  - destruct Hq as [Hql Hqr]. split; [by rewrite length_map |].
    apply Forall_fmap. eapply Forall_impl; [exact Hqr |].
    intros row Hr. simpl. by rewrite length_map.
  - intros y x Hy Hx.
    assert (Hm : cellOf (map (map getClassicalState) (createQubitGridFromClassical g)) y x
                 = getClassicalState <$> cellOf (createQubitGridFromClassical g) y x).
    { unfold cellOf. rewrite list_lookup_fmap.
      destruct (createQubitGridFromClassical g !! y) as [qrow |]; [| done].
      simpl. by rewrite list_lookup_fmap. }
    rewrite Hm, Hcells by done. simpl.
    destruct (cellOf_Some H W g y x Hg Hy Hx) as [c Hc]. rewrite Hc.
    assert (Hc01 : c = 0%Z \/ c = 1%Z).
    { unfold cellOf in Hc. destruct (g !! y) as [row |] eqn:Hrow; [| done].
      simpl in Hc. unfold isBinary in Hbin. rewrite Forall_lookup in Hbin.
      specialize (Hbin y row Hrow). rewrite Forall_lookup in Hbin. eauto. }
    destruct Hc01 as [-> | ->].
    + rewrite bool_decide_eq_false_2 by done. by rewrite getClassicalState_ket0.
    + rewrite bool_decide_eq_true_2 by done. by rewrite getClassicalState_ket1.
Qed.

(** ** Loops that may throw *)

Lemma foldlM_invariant {A B : Type} (P : B -> Prop) (f : B -> A -> option B)
    (l : list A) (acc : B) :
  P acc ->
  (forall acc a, a ∈ l -> P acc -> exists acc', f acc a = Some acc' /\ P acc') ->
  exists r, foldlM f acc l = Some r /\ P r.
Proof.
  revert acc. induction l as [| a l IH]; intros acc Hacc Hstep; simpl.
  - by exists acc.
  - destruct (Hstep acc a) as (acc' & -> & Hacc'); [left | done |].
    apply IH; [done |]. intros acc0 a0 Ha0. apply Hstep. by right.
Qed.

Lemma foldlM_preserves {A B : Type} (P : B -> Prop) (f : B -> A -> option B)
    (l : list A) (acc r : B) :
  P acc ->
  (forall acc a acc', P acc -> f acc a = Some acc' -> P acc') ->
  foldlM f acc l = Some r -> P r.
Proof.
  revert acc. induction l as [| a l IH]; intros acc Hacc Hstep; simpl.
  - by intros [= <-].
  - destruct (f acc a) as [acc' |] eqn:Hf; [| done].
    apply IH; [| done]. eapply Hstep; eauto.
Qed.

Lemma foldlM_is_Some {A B : Type} (P : B -> Prop) (f : B -> A -> option B)
    (l : list A) (acc : B) :
  P acc ->
  (forall acc a, a ∈ l -> P acc -> exists acc', f acc a = Some acc' /\ P acc') ->
  is_Some (foldlM f acc l).
Proof.
  intros Hacc Hstep.
  destruct (foldlM_invariant P f l acc Hacc Hstep) as (r & -> & _). eauto.
Qed.

(** ** The fitness evaluation *)

Lemma nonnegNumber_add_abs (a b : JsNumber Z) :
  nonnegNumber a -> nonnegNumber (lift2 Z.add a (lift1 Z.abs b)).
Proof. destruct a as [| v], b as [| w]; simpl; lia. Qed.

Lemma compareCell_mismatch cand gt prev y x acc acc' :
  compareCell cand gt prev y x acc = Some acc' ->
  nonnegNumber (mismatchError acc) -> nonnegNumber (mismatchError acc').
Proof.
  unfold compareCell. intros Hc Hacc.
  repeat (match type of Hc with
          | context [?o ≫= _] => destruct o; simpl in Hc; [| done]
          end).
  injection Hc as <-. cbn [mismatchError]. by apply nonnegNumber_add_abs.
Qed.

Lemma compareGrids_mismatch cand gt prev m totals :
  compareGrids cand gt prev m = Some totals ->
  nonnegNumber m -> nonnegNumber (mismatchError totals).
Proof.
  unfold compareGrids. intros Hc Hm. revert Hc.
  apply (foldlM_preserves (fun t => nonnegNumber (mismatchError t))); [done |].
  intros acc y acc' Hacc.
  apply (foldlM_preserves (fun t => nonnegNumber (mismatchError t))); [done |].
  intros acc0 x acc0' Hacc0 Hc. by apply compareCell_mismatch in Hc.
Qed.

Lemma compareGrids_total cand gt prev m :
  isGrid FITNESS_GRID_SIZE FITNESS_GRID_SIZE cand ->
  isGrid FITNESS_GRID_SIZE FITNESS_GRID_SIZE gt ->
  isGrid FITNESS_GRID_SIZE FITNESS_GRID_SIZE prev ->
  m <> NaN ->
  exists totals,
    compareGrids cand gt prev m = Some totals /\
    mismatchError totals <> NaN /\ candidatePopulation totals <> NaN.
Proof.
  intros Hc Hg Hp Hm. unfold compareGrids.
  apply (foldlM_invariant
           (fun t => mismatchError t <> NaN /\ candidatePopulation t <> NaN));
    [by split |].
  intros acc y Hy Hacc.
  apply list_elem_of_lookup in Hy as [iy Hy]. apply lookup_seq in Hy as [-> Hy].
  apply foldlM_invariant; [exact Hacc |].
  intros acc0 x Hx [Hm0 Hp0].
  apply list_elem_of_lookup in Hx as [ix Hx]. apply lookup_seq in Hx as [-> Hx].
  simpl in *. unfold compareCell.
  destruct (cellOf_Some _ _ cand iy ix Hc Hy Hx) as [c Hcc].
  destruct (cellOf_Some _ _ gt iy ix Hg Hy Hx) as [c' Hgc].
  destruct (cellOf_Some _ _ prev iy ix Hp Hy Hx) as [c'' Hpc].
  unfold cellOf in *.
  destruct (cand !! iy) as [crow |]; [| done].
  destruct (gt !! iy) as [grow |]; [| done].
  destruct (prev !! iy) as [prow |]; [| done].
  simpl in *. rewrite Hcc, Hgc. eexists. split; [reflexivity |].
  cbn [mismatchError candidatePopulation toNumber].
  destruct (mismatchError acc0), (candidatePopulation acc0); done.
Qed.

Lemma fitnessStep_nonneg trajectory p st step st' :
  fitnessLoopNonneg st -> fitnessStep trajectory p st step = Some st' ->
  fitnessLoopNonneg st'.
Proof.
  intros (Hm & Hp & Hd). unfold fitnessStep. intros Hs.
  destruct (performQuantumStep _ _) as [q' |]; simpl in Hs; [| done].
  destruct (trajectory !! _) as [gts |]; simpl in Hs; [| done].
  destruct (compareGrids _ _ _ _) as [totals |] eqn:Hc; simpl in Hs; [| done].
  injection Hs as <-. apply compareGrids_mismatch in Hc; [| done].
  unfold fitnessLoopNonneg.
  cbn [totalMismatch populationError dynamismError].
  split; [done |]. split; [by apply nonnegNumber_add_abs | lia].
Qed.

Lemma isGrid_map_map {A B : Type} (f : A -> B) (H W : nat) (g : list (list A)) :
  isGrid H W g -> isGrid H W (map (map f) g).
Proof.
  intros [Hl Hr]. split; [by rewrite length_map |].
  apply Forall_fmap. eapply Forall_impl; [exact Hr |].
  intros row Hrow. simpl. by rewrite length_map.
Qed.

Lemma fitnessStep_total trajectory p st step :
  wfTrajectory trajectory -> (step < FITNESS_SIM_STEPS)%nat ->
  fitnessLoopGrids st ->
  exists st', fitnessStep trajectory p st step = Some st' /\ fitnessLoopGrids st'.
Proof.
  intros [Hlen Hgrids] Hstep (Hq & Hprev & Hm & Hp). unfold fitnessStep.
  destruct (performQuantumStep_cells _ _ (quantumGrid st)
              (withFullDecoherence p) Hq) as (q' & -> & Hq' & _);
    [unfold FITNESS_GRID_SIZE; lia | unfold FITNESS_GRID_SIZE; lia |].
  cbn [mbind option_bind].
  destruct (lookup_lt_is_Some_2 trajectory (step + 1)) as [gts Hgts]; [lia |].
  rewrite Hgts. cbn [mbind option_bind].
  assert (Hgt : isGrid FITNESS_GRID_SIZE FITNESS_GRID_SIZE (grid gts)).
  { rewrite Forall_lookup in Hgrids. eauto. }
  destruct (compareGrids_total (map (map getClassicalState) q') (grid gts)
              (prevClassicalGrid st) (totalMismatch st))
    as (totals & -> & Hm' & Hp');
    [by apply isGrid_map_map | done | done | done |].
  cbn [mbind option_bind]. eexists. split; [reflexivity |].
  split; [done |]. split; [by apply isGrid_map_map |].
  cbn [totalMismatch populationError]. split; [done |].
  destruct (populationError st), (candidatePopulation totals); done.
Qed.

Lemma fitness_range (totalError : R) (stagnant : bool) :
  0 <= totalError ->
  let fitness := 1 / (1 + totalError) in
  0 < (if stagnant then fitness else fitness * DYNAMISM_BONUS_MULTIPLIER)
    <= DYNAMISM_BONUS_MULTIPLIER.
Proof.
  intros Ht. cbv zeta. unfold DYNAMISM_BONUS_MULTIPLIER.
  assert (Hpos : 0 < 1 / (1 + totalError)).
  { apply Rdiv_lt_0_compat; lra. }
  assert (Hle : 1 / (1 + totalError) <= 1).
  { apply (Rmult_le_reg_r (1 + totalError)); [lra |].
    unfold Rdiv. rewrite Rmult_assoc, Rinv_l by lra. lra. }
  destruct stagnant; lra.
Qed.

(** On a non-empty ground truth, an evaluation that returns a number returns
    one in (0, 1.5]. *)
Lemma calculateFitness_range trajectory p f :
  trajectory <> [] -> calculateFitness trajectory p = Some (Num f) ->
  0 < f <= DYNAMISM_BONUS_MULTIPLIER.
Proof.
  intros Hne. unfold calculateFitness.
  destruct trajectory as [| first rest]; [done |].
  destruct (foldlM _ _ _) as [st |] eqn:Hloop; cbn [mbind option_bind]; [| done].
  assert (Hnn : fitnessLoopNonneg st).
  { eapply (foldlM_preserves fitnessLoopNonneg); [| | exact Hloop].
    - unfold fitnessLoopNonneg. simpl. lia.
    - intros acc a acc' Hacc Hs. eapply fitnessStep_nonneg; eauto. }
  destruct Hnn as (Hm & Hp & Hd).
  destruct (totalMismatch st) as [| m]; [by destruct (isStagnant _) |].
  destruct (populationError st) as [| e]; [by destruct (isStagnant _) |].
  cbn [lift1 lift2 nonnegNumber] in *.
  apply IZR_le in Hm, Hp, Hd.
  assert (Herr : 0 <= IZR m + IZR e * POPULATION_PENALTY_WEIGHT
                      + IZR (dynamismError st) * DYNAMISM_ERROR_WEIGHT).
  { unfold POPULATION_PENALTY_WEIGHT, DYNAMISM_ERROR_WEIGHT. lra. }
  pose proof (fitness_range _ (isStagnant (candidateDynamismHistory st)) Herr)
    as Hrange.
  cbv zeta in Hrange.
  destruct (isStagnant _); cbn [lift1]; intros [= <-]; exact Hrange.
Qed.

(** On a ground truth of the expected shape the evaluation completes, and
    returns a number. *)
Lemma calculateFitness_total trajectory p :
  wfTrajectory trajectory -> exists f, calculateFitness trajectory p = Some (Num f).
Proof.
  intros Hwf. pose proof Hwf as [Hlen Hgrids]. unfold calculateFitness.
  destruct trajectory as [| first rest]; [done |].
  assert (Hfirst : isGrid FITNESS_GRID_SIZE FITNESS_GRID_SIZE (grid first)).
  { by inversion Hgrids. }
  match goal with
  | |- exists f, ?m ≫= _ = _ =>
      assert (Hloop : exists st, m = Some st /\ fitnessLoopGrids st)
  end.
  2:{ destruct Hloop as (st & -> & _ & _ & Hm & Hp). cbn [mbind option_bind].
      destruct (totalMismatch st) as [| m]; [done |].
      destruct (populationError st) as [| e]; [done |].
      destruct (isStagnant _); cbn [lift1 lift2]; eauto. }
  apply (foldlM_invariant fitnessLoopGrids).
  - split; [| done]. cbn [quantumGrid].
    apply (createQubitGridFromClassical_isGrid _ _ _ Hfirst);
      unfold FITNESS_GRID_SIZE; lia.
  - intros acc step Hin Hacc.
    apply list_elem_of_lookup in Hin as [i Hi]. apply lookup_seq in Hi as [-> Hi].
    by apply fitnessStep_total.
Qed.

Lemma calculateFitness_nonneg trajectory p f :
  calculateFitness trajectory p = Some (Num f) -> 0 <= f.
Proof.
  destruct trajectory as [| first rest] eqn:E.
  - simpl. intros [= <-]. lra.
  - intros Hf. apply calculateFitness_range in Hf; [lra | done].
Qed.

Lemma scoreOf_Some trajectory p x :
  scoreOf trajectory p = Some x ->
  params x = p /\ calculateFitness trajectory p = Some (Num (fitness x)).
Proof.
  unfold scoreOf.
  destruct (calculateFitness trajectory p) as [[| f] |]; simpl; [done | | done].
  by intros [= <-].
Qed.

Lemma scoreOf_Num trajectory p f :
  calculateFitness trajectory p = Some (Num f) ->
  scoreOf trajectory p = Some {| params := p; fitness := f |}.
Proof. unfold scoreOf. by intros ->. Qed.

Lemma groundTruthData_wf trajectory :
  groundTruthData trajectory -> wfTrajectory trajectory.
Proof.
  intros [Hlen Hdata]. split; [exact Hlen |].
  eapply Forall_impl; [exact Hdata |]. by intros s [Hgrid _].
Qed.

(** ** The genetic search *)

Lemma insertScored_elem (a x : Scored) (l : list Scored) :
  x ∈ insertScored a l <-> x = a \/ x ∈ l.
Proof.
  induction l as [| b l IH]; simpl.
  - rewrite list_elem_of_singleton, elem_of_nil. tauto.
  - destruct (Rlt_dec _ _); rewrite !elem_of_cons; [rewrite IH |]; tauto.
Qed.

Lemma sortScores_elem (x : Scored) (l : list Scored) :
  x ∈ sortScores l <-> x ∈ l.
Proof.
  unfold sortScores. induction l as [| a l IH]; simpl; [done |].
  by rewrite insertScored_elem, IH, elem_of_cons.
Qed.

Lemma length_insertScored (a : Scored) (l : list Scored) :
  length (insertScored a l) = S (length l).
Proof.
  induction l as [| b l IH]; simpl; [done |].
  destruct (Rlt_dec _ _); simpl; by rewrite ?IH.
Qed.

Lemma length_sortScores (l : list Scored) : length (sortScores l) = length l.
Proof.
  unfold sortScores. induction l as [| a l IH]; simpl; [done |].
  by rewrite length_insertScored, IH.
Qed.

(** Every score of a generation is the fitness of one of its individuals. *)
Lemma scores_elem trajectory population scores x :
  mapM (scoreOf trajectory) population = Some scores ->
  x ∈ scores ->
  calculateFitness trajectory (params x) = Some (Num (fitness x)).
Proof.
  intros Hm Hx. apply mapM_Some_1 in Hm.
  apply list_elem_of_lookup in Hx as [i Hi].
  destruct (Forall2_lookup_r _ _ _ _ _ Hm Hi) as (p & _ & Hp).
  apply scoreOf_Some in Hp as [-> Hp]. exact Hp.
Qed.

Section SearchProperties.

Variable random : nat -> R.

Lemma runGeneration_step (s s' : SearchState) (n n' : nat) :
  runGeneration random s n = Some (s', n') ->
  generationRef s' = (generationRef s + 1)%Z /\
  generation (searchProgress s') = (generationRef s + 1)%Z /\
  exists best : Scored,
    calculateFitness (groundTruthTrajectoryRef s) (params best)
      = Some (Num (fitness best)) /\
    let currentBestFitness :=
      match bestParams s with
      | Some _ => bestFitness (searchProgress s)
      | None => -1
      end in
    (fitness best > currentBestFitness + 1 / 10 ^ 9 /\
     bestFitness (searchProgress s') = fitness best /\
     bestParams s' = Some (params best))
    \/
    (~ fitness best > currentBestFitness + 1 / 10 ^ 9 /\
     bestFitness (searchProgress s') = bestFitness (searchProgress s) /\
     bestParams s' = bestParams s).
Proof.
  unfold runGeneration, bind, liftOption. intros Hrun.
  destruct (mapM _ (populationRef s)) as [scores |] eqn:Hscores; [| done].
  destruct (sortScores scores !! 0%nat) as [best |] eqn:Hbest; [| done].
  assert (Hfit : calculateFitness (groundTruthTrajectoryRef s) (params best)
                 = Some (Num (fitness best))).
  { eapply scores_elem; [exact Hscores |].
    apply sortScores_elem. eapply list_elem_of_lookup_2; eauto. }
  assert (Hs' : generationRef s' = (generationRef s + 1)%Z /\
                searchProgress s' =
                  (if Rgt_dec (fitness best)
                        (match bestParams s with
                         | Some _ => bestFitness (searchProgress s)
                         | None => -1
                         end + 1 / 10 ^ 9)
                   then {| generation := generationRef s + 1;
                           bestFitness := fitness best |}
                   else {| generation := generationRef s + 1;
                           bestFitness := bestFitness (searchProgress s) |}) /\
                bestParams s' =
                  (if Rgt_dec (fitness best)
                        (match bestParams s with
                         | Some _ => bestFitness (searchProgress s)
                         | None => -1
                         end + 1 / 10 ^ 9)
                   then Some (params best) else bestParams s)).
  { destruct (Rgt_dec (fitness best) (149 / 100)).
    - unfold ret in Hrun. by injection Hrun as <- <-.
    - destruct (mapM _ (seq 0 ELITISM_COUNT)) as [elite |]; [| done].
      destruct (fillPopulation _ _ _ _ _) as [[newPopulation m] |]; [| done].
      unfold ret in Hrun. by injection Hrun as <- <-. }
  destruct Hs' as (Hgen & Hprog & Hbp). clear Hrun.
  split; [done |]. cbv zeta. rewrite Hprog, Hbp.
  destruct (Rgt_dec (fitness best) _) as [Himp | Hnot].
  - split; [done |]. exists best. split; [done |]. left. by split.
  - split; [done |]. exists best. split; [done |]. right. by split.
Qed.

Lemma runGeneration_invariant (s s' : SearchState) (n n' : nat) :
  searchInvariant s -> runGeneration random s n = Some (s', n') ->
  searchInvariant s'.
Proof.
  intros [Hg Hb] Hrun.
  destruct (runGeneration_step s s' n n' Hrun)
    as (Hgen & Hprog & best & Hfit & [(Hi & Hbf & Hbp) | (Hi & Hbf & Hbp)]).
  - split; [lia |]. by rewrite Hbp.
  - split; [lia |]. rewrite Hbp, Hbf. done.
Qed.

Lemma initializeSearch_invariant (s0 s : SearchState) (n n' : nat) :
  initializeSearch random s0 n = Some (s, n') -> searchInvariant s.
Proof.
  unfold initializeSearch, bind, liftOption, ret. intros Hinit.
  destruct precomputeGroundTruth as [trajectory |]; [| done].
  destruct (randomPopulation _ _ _) as [[pop m] |]; [| done].
  injection Hinit as <- <-. by split.
Qed.

Lemma reachable_invariant (s : SearchState) :
  reachable random s -> searchInvariant s.
Proof.
  induction 1 as [s0 n s n' Hinit | s n s' n' _ IH Hrun].
  - eapply initializeSearch_invariant; eauto.
  - eapply runGeneration_invariant; eauto.
Qed.

(** A completed generation counts once and never lowers the best fitness. *)
Lemma runGeneration_monotone (s s' : SearchState) (n n' : nat) :
  searchInvariant s -> runGeneration random s n = Some (s', n') ->
  generationRef s' = (generationRef s + 1)%Z /\
  generation (searchProgress s') = (generation (searchProgress s) + 1)%Z /\
  bestFitness (searchProgress s) <= bestFitness (searchProgress s').
Proof.
  intros [Hg Hb] Hrun.
  destruct (runGeneration_step s s' n n' Hrun)
    as (Hgen & Hprog & best & Hfit & Hcases).
  split; [done |]. split; [lia |].
  apply calculateFitness_nonneg in Hfit.
  destruct Hcases as [(Hi & Hbf & Hbp) | (Hi & Hbf & Hbp)].
  - rewrite Hbf. destruct (bestParams s) as [bp |].
    + assert (0 < 1 / 10 ^ 9)
        by (apply Rdiv_lt_0_compat; [lra | apply pow_lt; lra]).
      lra.
    + rewrite Hb by done. lra.
  - rewrite Hbf. lra.
Qed.

Lemma generations_reachable (s s' : SearchState) (k : nat) :
  reachable random s -> generations random s k s' -> reachable random s'.
Proof.
  intros Hreach Hgen. induction Hgen as [s | s k s1 n s2 n' _ IH Hrun]; [done |].
  eapply reachable_step; [by apply IH | exact Hrun].
Qed.

(** [k] completed generations count [k] times and never lower the best
    fitness. *)
Lemma generations_monotone (s s' : SearchState) (k : nat) :
  reachable random s -> generations random s k s' ->
  generationRef s' = (generationRef s + Z.of_nat k)%Z /\
  generation (searchProgress s') = (generation (searchProgress s) + Z.of_nat k)%Z /\
  bestFitness (searchProgress s) <= bestFitness (searchProgress s').
Proof.
  intros Hreach Hgen.
  induction Hgen as [s | s k s1 n s2 n' Hgen IH Hrun].
  - split; [lia |]. split; [lia | lra].
  - destruct (IH Hreach) as (Hg & Hp & Hb).
    pose proof (generations_reachable s s1 k Hreach Hgen) as Hreach1.
    destruct (runGeneration_monotone s1 s2 n n'
                (reachable_invariant s1 Hreach1) Hrun) as (Hg' & Hp' & Hb').
    split; [lia |]. split; [lia | lra].
Qed.

End SearchProperties.

(** ** The search runs: ground truth, initialization and generations complete *)

Lemma foldlM_length {A B C : Type} (m : B -> list C) (f : B -> A -> option B)
    (l : list A) (acc r : B) :
  (forall acc a acc', f acc a = Some acc' -> length (m acc') = S (length (m acc))) ->
  foldlM f acc l = Some r -> length (m r) = (length (m acc) + length l)%nat.
Proof.
  intros Hstep. revert acc. induction l as [| a l IH]; intros acc; simpl.
  - intros [= <-]. lia.
  - destruct (f acc a) as [acc' |] eqn:Hf; [| done].
    intros Hr. rewrite (IH _ Hr), (Hstep _ _ _ Hf). lia.
Qed.

Lemma countFlips_total (g prevGrid : ClassicalGridState) :
  isGrid FITNESS_GRID_SIZE FITNESS_GRID_SIZE g ->
  isGrid FITNESS_GRID_SIZE FITNESS_GRID_SIZE prevGrid ->
  is_Some (countFlips g prevGrid).
Proof.
  intros Hg Hp. unfold countFlips.
  apply (foldlM_is_Some (fun _ : Z => True)); [exact I |].
  intros acc y Hy _.
  apply list_elem_of_lookup in Hy as [iy Hy]. apply lookup_seq in Hy as [-> Hy].
  apply foldlM_invariant; [exact I |].
  intros acc0 x _ _. simpl in *.
  destruct (lookup_lt_is_Some_2 g iy) as [row ->]; [destruct Hg; lia |].
  destruct (lookup_lt_is_Some_2 prevGrid iy) as [prow ->]; [destruct Hp; lia |].
  simpl. eauto.
Qed.

Lemma seedGrid_isGrid : isGrid FITNESS_GRID_SIZE FITNESS_GRID_SIZE seedGrid.
Proof.
  apply (isGrid_tabulate FITNESS_GRID_SIZE FITNESS_GRID_SIZE
           (fun y x =>
              if Rgt_dec (seededRandom SEED (y * FITNESS_GRID_SIZE + x)) (6 / 10)
              then 1%Z else 0%Z)).
Qed.

Lemma groundTruthStep_total st i :
  groundTruthLoop st ->
  exists st', groundTruthStep st i = Some st' /\ groundTruthLoop st'.
Proof.
  destruct st as [prevGrid trajectory]. intros [Hg Ht]. simpl in Hg, Ht.
  unfold groundTruthStep.
  rewrite (performGOLStep_golStep FITNESS_GRID_SIZE FITNESS_GRID_SIZE)
    by (done || (unfold FITNESS_GRID_SIZE; lia)).
  cbn [mbind option_bind].
  pose proof (golStep_isGrid FITNESS_GRID_SIZE FITNESS_GRID_SIZE prevGrid) as Hn.
  destruct (countFlips_total _ _ Hn Hg) as [flips ->].
  cbn [mbind option_bind]. eexists. split; [reflexivity |].
  split; simpl; [done |].
  apply Forall_app. split; [done |]. by repeat constructor.
Qed.

Lemma precomputeGroundTruth_wf :
  exists trajectory,
    precomputeGroundTruth = Some trajectory /\ wfTrajectory trajectory.
Proof.
  unfold precomputeGroundTruth. cbv zeta.
  destruct (foldlM_invariant groundTruthLoop groundTruthStep
              (seq 0 FITNESS_SIM_STEPS)
              (seedGrid, [{| grid := seedGrid; population := flatSum seedGrid;
                             flipsSincePrevStep := 0 |}]))
    as ([g trajectory] & Hloop & Hinv).
  - split; simpl; [apply seedGrid_isGrid |].
    repeat constructor; apply seedGrid_isGrid.
  - intros acc i _ Hacc. by apply groundTruthStep_total.
  - rewrite Hloop. simpl. exists trajectory. split; [done |].
    split; [| apply Hinv].
    apply (foldlM_length snd) in Hloop; [exact Hloop |].
    intros [pg tr] a acc'. unfold groundTruthStep.
    destruct (performGOLStep pg); simpl; [| done].
    destruct (countFlips _ _); simpl; [| done].
    intros [= <-]. simpl. rewrite length_app. simpl. lia.
Qed.

Lemma total_ret {A : Type} (a : A) : total (ret a).
Proof. intros n. unfold ret. eauto. Qed.

Lemma total_bind {A B : Type} (m : Rand A) (k : A -> Rand B) :
  total m -> (forall a, total (k a)) -> total (bind m k).
Proof.
  intros Hm Hk n. unfold bind. destruct (Hm n) as [[a n'] ->]. apply Hk.
Qed.

Section SearchRuns.

Variable random : nat -> R.
Hypothesis random_range : forall k, 0 <= random k < 1.

Lemma total_mathRandom : total (mathRandom random).
Proof. intros n. unfold mathRandom. eauto. Qed.

Local Ltac total_step :=
  repeat first
    [ apply total_ret
    | apply total_mathRandom
    | apply total_bind; [| intros ?]
    | match goal with |- total (if ?c then _ else _) => destruct c end ].

Lemma total_createRandomParams : total (createRandomParams random).
Proof.
  unfold createRandomParams, createRandomCoefficients, randomComplex, randomCoeff.
  total_step.
Qed.

Lemma total_mutate (p : SimulationParameters) : total (mutate random p).
Proof.
  unfold mutate, mutateCoefficients, mutateComplex, mutatePart. total_step.
Qed.

Lemma total_crossover (p1 p2 : SimulationParameters) :
  total (crossover random p1 p2).
Proof. unfold crossover, crossoverCoefficients, pick. total_step. Qed.

Lemma randomPopulation_total (k n : nat) :
  exists pop n', randomPopulation random k n = Some (pop, n') /\ length pop = k.
Proof.
  revert n. induction k as [| k IH]; intros n; simpl.
  - by exists [], n.
  - unfold bind. destruct (total_createRandomParams n) as [[p n1] ->].
    destruct (IH n1) as (pop & n2 & -> & Hlen).
    exists (p :: pop), n2. unfold ret. split; [done |]. simpl. lia.
Qed.

Lemma total_contestant (fitnessScores : list Scored) :
  (1 <= length fitnessScores)%nat -> total (contestant random fitnessScores).
Proof.
  intros Hlen n. unfold contestant, bind, mathRandom, liftOption, jsIndex.
  set (r := random n). set (len := length fitnessScores) in *.
  pose proof (random_range n) as Hr. fold r in Hr.
  assert (Hlen' : 1 <= INR len) by (change 1 with (INR 1); by apply le_INR).
  pose proof (Zfloor_bound (r * INR len)) as Hfl.
  assert (H0 : (0 <= Zfloor (r * INR len))%Z).
  { apply Zfloor_lub. simpl. nra. }
  assert (H1 : (Zfloor (r * INR len) < Z.of_nat len)%Z).
  { apply lt_IZR. rewrite <- INR_IZR_INZ. nra. }
  destruct (Z.ltb_spec (Zfloor (r * INR len)) 0); [lia |].
  destruct (lookup_lt_is_Some_2 fitnessScores (Z.to_nat (Zfloor (r * INR len))))
    as [c ->]; [fold len; lia | eauto].
Qed.

Lemma total_selectParent (fitnessScores : list Scored) :
  (1 <= length fitnessScores)%nat -> total (selectParent random fitnessScores).
Proof.
  intros Hlen. unfold selectParent.
  apply total_bind; [by apply total_contestant | intros c1].
  apply total_bind; [by apply total_contestant | intros c2].
  destruct (Rgt_dec _ _); total_step.
Qed.

Lemma fillPopulation_total (k : nat) (fitnessScores : list Scored)
    (newPopulation : list SimulationParameters) :
  (1 <= length fitnessScores)%nat ->
  total (fillPopulation random k fitnessScores newPopulation).
Proof.
  intros Hlen. revert newPopulation.
  induction k as [| k IH]; intros newPopulation; simpl; [apply total_ret |].
  apply total_bind; [by apply total_selectParent | intros p1].
  apply total_bind; [by apply total_selectParent | intros p2].
  apply total_bind; [apply total_mathRandom | intros r].
  apply total_bind.
  - destruct (Rlt_dec _ _); [apply total_crossover | apply total_ret].
  - intros child. apply total_bind; [apply total_mutate | intros child'].
    apply IH.
Qed.

(** A generation completes on a well-formed ground truth and a population
    of at least [ELITISM_COUNT] individuals. *)
Lemma runGeneration_total (s : SearchState) :
  wfTrajectory (groundTruthTrajectoryRef s) ->
  (ELITISM_COUNT <= length (populationRef s))%nat ->
  total (runGeneration random s).
Proof.
  intros Hwf Hpop n. unfold runGeneration.
  destruct (mapM_is_Some_2 (scoreOf (groundTruthTrajectoryRef s))
              (populationRef s)) as [scores Hscores].
  { apply Forall_forall. intros p _.
    destruct (calculateFitness_total _ p Hwf) as [f Hf].
    exists {| params := p; fitness := f |}. by apply scoreOf_Num. }
  assert (Hlen : length (sortScores scores) = length (populationRef s)).
  { rewrite length_sortScores. apply length_mapM in Hscores. lia. }
  unfold bind at 1. unfold liftOption at 1. rewrite Hscores.
  unfold ELITISM_COUNT in *.
  destruct (lookup_lt_is_Some_2 (sortScores scores) 0) as [best Hbest]; [lia |].
  destruct (lookup_lt_is_Some_2 (sortScores scores) 1) as [second Hsecond]; [lia |].
  unfold bind at 1. unfold liftOption at 1. rewrite Hbest.
  destruct (Rgt_dec (fitness best) (149 / 100)); [apply total_ret |].
  assert (Helite : mapM (fun i => params <$> sortScores scores !! i) (seq 0 2)
                   = Some [params best; params second]).
  { simpl. by rewrite Hbest, Hsecond. }
  unfold bind at 1. unfold liftOption at 1. rewrite Helite. cbv beta iota.
  apply total_bind; [| intros; apply total_ret].
  apply fillPopulation_total. lia.
Qed.

Lemma initializeSearch_total (s0 : SearchState) (n : nat) :
  exists s n',
    initializeSearch random s0 n = Some (s, n') /\
    wfTrajectory (groundTruthTrajectoryRef s) /\
    length (populationRef s) = POPULATION_SIZE.
Proof.
  unfold initializeSearch, bind, liftOption, ret.
  destruct precomputeGroundTruth_wf as (trajectory & -> & Hwf).
  destruct (randomPopulation_total POPULATION_SIZE n) as (pop & n' & -> & Hlen).
  eexists _, _. split; [reflexivity |]. by split.
Qed.

End SearchRuns.

(** ** The blinker *)

Lemma wrap_0 (k n : nat) : (k < n)%nat -> wrap k 0 n = k.
Proof.
  intros Hk. unfold wrap. rewrite Z.add_0_r, Z.mod_small by lia. lia.
Qed.

Lemma wrap_pred (k n : nat) :
  (k < n)%nat -> wrap k (-1) n = if (k =? 0)%nat then (n - 1)%nat else (k - 1)%nat.
Proof.
  intros Hk. unfold wrap. destruct (Nat.eqb_spec k 0) as [-> | Hne].
  - rewrite <- (Z_mod_plus_full _ 1 (Z.of_nat n)). rewrite Z.mod_small; lia.
  - rewrite Z.mod_small; lia.
Qed.

Lemma wrap_succ (k n : nat) :
  (k < n)%nat -> wrap k 1 n = if (S k =? n)%nat then 0%nat else S k.
Proof.
  intros Hk. unfold wrap. destruct (Nat.eqb_spec (S k) n) as [<- | Hne].
  - rewrite <- (Z_mod_plus_full _ (-1) (Z.of_nat (S k))). rewrite Z.mod_small; lia.
  - rewrite Z.mod_small; lia.
Qed.

(** Case analysis on every comparison of naturals in the goal, dropping the
    impossible cases as they appear. *)
Ltac split_eqb :=
  repeat match goal with
         | |- context [if (?a =? ?b)%nat then _ else _] =>
             destruct (Nat.eqb_spec a b); try (exfalso; lia)
         end;
  repeat match goal with
         | |- context [(?a =? ?b)%nat] =>
             destruct (Nat.eqb_spec a b); try (exfalso; lia)
         end.

(** How a single marked position [c] looks from [k] and its two neighbours. *)
Lemma point_pattern (n c k : nat) :
  (3 <= n)%nat -> (c < n)%nat -> (k < n)%nat ->
  let a := (wrap k (-1) n =? c)%nat in
  let b := (k =? c)%nat in
  let d := (wrap k 1 n =? c)%nat in
  (near n c k = true /\
   ((a, b, d) = (true, false, false) \/ (a, b, d) = (false, true, false)
    \/ (a, b, d) = (false, false, true)))
  \/ (near n c k = false /\ (a, b, d) = (false, false, false)).
Proof.
  intros Hn Hc Hk. cbv zeta. unfold near.
  rewrite !wrap_pred, !wrap_succ by lia.
  split_eqb; simpl; auto 6.
Qed.

(** How a marked band [c - 1, c, c + 1] looks from [k] and its neighbours. *)
Lemma band_pattern (n c k : nat) :
  (5 <= n)%nat -> (c < n)%nat -> (k < n)%nat ->
  let a := near n c (wrap k (-1) n) in
  let b := near n c k in
  let d := near n c (wrap k 1 n) in
  ((k =? c)%nat = true /\ (a, b, d) = (true, true, true))
  \/ ((k =? c)%nat = false /\
      ((a, b, d) = (true, true, false) \/ (a, b, d) = (false, true, true)
       \/ (a, b, d) = (true, false, false) \/ (a, b, d) = (false, false, true)
       \/ (a, b, d) = (false, false, false))).
Proof.
  intros Hn Hc Hk. cbv zeta. unfold near.
  rewrite !wrap_pred, !wrap_succ by lia.
  split_eqb; simpl; auto 8.
Qed.

Lemma tabulate_ext {A : Type} (H W : nat) (h1 h2 : nat -> nat -> A) :
  (forall y x, (y < H)%nat -> (x < W)%nat -> h1 y x = h2 y x) ->
  map (fun y => map (fun x => h1 y x) (seq 0 W)) (seq 0 H)
  = map (fun y => map (fun x => h2 y x) (seq 0 W)) (seq 0 H).
Proof.
  intros Hext. apply (grid_eq H W); [apply isGrid_tabulate .. |].
  intros y x Hy Hx.
  rewrite (cellOf_tabulate H W h1), (cellOf_tabulate H W h2) by done.
  f_equal. by apply Hext.
Qed.

Lemma cellValue_tabulate (H W : nat) (h : nat -> nat -> Z) (y x : nat) :
  (y < H)%nat -> (x < W)%nat ->
  cellValue (map (fun y => map (fun x => h y x) (seq 0 W)) (seq 0 H)) y x = h y x.
Proof.
  intros Hy Hx. unfold cellValue. by rewrite (cellOf_tabulate H W h).
Qed.

(** One generation of Life on a grid given by its cell function. *)
Lemma golStep_tabulate (H W : nat) (h : nat -> nat -> Z) :
  (1 <= H)%nat -> (1 <= W)%nat ->
  golStep H W (map (fun y => map (fun x => h y x) (seq 0 W)) (seq 0 H))
  = map (fun y =>
           map (fun x =>
                  golNext (h y x)
                    (foldl (fun acc '(i, j) =>
                              (acc + h (wrap y i H) (wrap x j W))%Z)
                           0%Z neighborOffsets))
               (seq 0 W))
        (seq 0 H).
Proof.
  intros HH HW. unfold golStep. apply tabulate_ext. intros y x Hy Hx.
  rewrite cellValue_tabulate by done. f_equal.
  unfold liveNeighbors. generalize 0%Z. generalize neighborOffsets.
  intros offs. induction offs as [| [i j] offs IH]; intros acc; [done |].
  cbn [foldl]. rewrite IH.
  by rewrite cellValue_tabulate by (apply wrap_lt; lia).
Qed.

Section Blinker.

Variables (H W y0 x0 : nat).
Hypothesis (HH : (5 <= H)%nat) (HW : (5 <= W)%nat).
Hypothesis (Hy0 : (y0 < H)%nat) (Hx0 : (x0 < W)%nat).

Lemma golStep_horizontalBlinker :
  golStep H W (horizontalBlinker H W y0 x0) = verticalBlinker H W y0 x0.
Proof.
  unfold horizontalBlinker, verticalBlinker.
  rewrite (golStep_tabulate H W
    (fun y x => if (y =? y0)%nat && near W x0 x then 1%Z else 0%Z)) by lia.
  apply tabulate_ext. intros y x Hy Hx.
  unfold neighborOffsets. cbn [foldl]. rewrite !wrap_0 by done.
  destruct (point_pattern H y0 y) as [[-> [E | [E | E]]] | [-> E]];
    [lia | done | done | ..]; injection E as -> -> ->;
    destruct (band_pattern W x0 x)
      as [[-> E] | [-> [E | [E | [E | [E | E]]]]]]; try done;
    injection E as -> -> ->; reflexivity.
Qed.

Lemma golStep_verticalBlinker :
  golStep H W (verticalBlinker H W y0 x0) = horizontalBlinker H W y0 x0.
Proof.
  unfold horizontalBlinker, verticalBlinker.
  rewrite (golStep_tabulate H W
    (fun y x => if near H y0 y && (x =? x0)%nat then 1%Z else 0%Z)) by lia.
  apply tabulate_ext. intros y x Hy Hx.
  unfold neighborOffsets. cbn [foldl]. rewrite !wrap_0 by done.
  destruct (point_pattern W x0 x) as [[-> [E | [E | E]]] | [-> E]];
    [lia | done | done | ..]; injection E as -> -> ->;
    destruct (band_pattern H y0 y)
      as [[-> E] | [-> [E | [E | [E | [E | E]]]]]]; try done;
    injection E as -> -> ->; reflexivity.
Qed.

End Blinker.

(** The upright blinker and the lying one differ in the cell to the right of
    their centre. *)
Lemma blinkers_differ (H W y0 x0 : nat) :
  (2 <= W)%nat -> (y0 < H)%nat -> (x0 < W)%nat ->
  verticalBlinker H W y0 x0 <> horizontalBlinker H W y0 x0.
Proof.
  intros HW Hy0 Hx0 Heq.
  apply (f_equal (fun g => cellOf g y0 (wrap x0 1 W))) in Heq.
  unfold verticalBlinker, horizontalBlinker in Heq.
  rewrite (cellOf_tabulate H W
             (fun y x => if near H y0 y && (x =? x0)%nat then 1%Z else 0%Z))
    in Heq by (done || apply wrap_lt; lia).
  rewrite (cellOf_tabulate H W
             (fun y x => if (y =? y0)%nat && near W x0 x then 1%Z else 0%Z))
    in Heq by (done || apply wrap_lt; lia).
  unfold near in Heq. rewrite !Nat.eqb_refl in Heq.
  rewrite orb_true_r in Heq. cbn [orb andb] in Heq.
  assert (Hne : (wrap x0 1 W =? x0)%nat = false).
  { apply Nat.eqb_neq. rewrite wrap_succ by done.
    destruct (Nat.eqb_spec (S x0) W); lia. }
  rewrite Hne in Heq. discriminate Heq.
Qed.

(** ** Examples *)

Example translateGrid_rows :
  translateGrid 1 0 [[1; 2]; [3; 4]; [5; 6]]%Z = [[5; 6]; [1; 2]; [3; 4]]%Z.
Proof. reflexivity. Qed.

Example translateGrid_columns :
  translateGrid 0 (-1) [[1; 2; 3]; [4; 5; 6]]%Z = [[2; 3; 1]; [5; 6; 4]]%Z.
Proof. reflexivity. Qed.

(** The blinker of the pattern catalogue, as [placePattern] centres it on the
    32 x 32 grid: row 15, columns 14 to 16. *)
Example horizontalBlinker_centred :
  horizontalBlinker 32 32 15 15
  = <[15%nat := <[14%nat := 1%Z]> (<[15%nat := 1%Z]> (<[16%nat := 1%Z]>
                  (replicate 32 0%Z)))]> (createGrid 0).
Proof. vm_compute. reflexivity. Qed.

Example performGOLStep_blinker_5x5 :
  performGOLStep [[0; 0; 0; 0; 0]; [0; 0; 0; 0; 0]; [0; 1; 1; 1; 0];
                  [0; 0; 0; 0; 0]; [0; 0; 0; 0; 0]]%Z
  = Some [[0; 0; 0; 0; 0]; [0; 0; 1; 0; 0]; [0; 0; 1; 0; 0];
          [0; 0; 1; 0; 0]; [0; 0; 0; 0; 0]]%Z.
Proof. reflexivity. Qed.

Example performGOLStep_no_row : performGOLStep [] = None.
Proof. reflexivity. Qed.

(** A second advance right after a first one is refused. *)
Example advanceCycle_twice :
  advanceCycle {| systemGrid := [[0; 1; 0]; [0; 1; 0]; [0; 1; 0]]%Z;
                  targetGrid := [[0; 0; 0]; [0; 0; 0]; [0; 0; 0]]%Z |}
  = Some (true, {| systemGrid := [[1; 1; 1]; [1; 1; 1]; [1; 1; 1]]%Z;
                   targetGrid := [[0; 1; 0]; [0; 1; 0]; [0; 1; 0]]%Z |})
  /\ advanceCycle {| systemGrid := [[1; 1; 1]; [1; 1; 1]; [1; 1; 1]]%Z;
                     targetGrid := [[0; 1; 0]; [0; 1; 0]; [0; 1; 0]]%Z |}
     = Some (false, {| systemGrid := [[1; 1; 1]; [1; 1; 1]; [1; 1; 1]]%Z;
                       targetGrid := [[0; 1; 0]; [0; 1; 0]; [0; 1; 0]]%Z |}).
Proof. split; reflexivity. Qed.

(** * The properties of the specification *)

(** C1: on every H x W quantum grid (H, W >= 1) the quantum step succeeds and
    each cell of its output is ((sqrt (1 - pFinal), 0), (sqrt pFinal, 0)),
    where p is the squared magnitude of the beta amplitude of the normalized
    coherently evolved state of that cell, the attractor is 1 if p >= 0.5 and
    0 otherwise, and pFinal is (1 - gamma) * p + gamma * attractor clamped to
    [0, 1]; both amplitudes of the output have a zero imaginary part, for
    every gamma. *)
Theorem performQuantumStep_output (H W : nat) (currentGrid : GridState)
    (params : SimulationParameters) :
  isGrid H W currentGrid -> (1 <= H)%nat -> (1 <= W)%nat ->
  exists nextGrid,
    performQuantumStep currentGrid params = Some nextGrid /\
    isGrid H W nextGrid /\
    forall y x, (y < H)%nat -> (x < W)%nat ->
      let p := prob1 (coherentState currentGrid params H W y x) in
      let pFinal := collapsedProbability (gamma params) p in
      cellOf nextGrid y x
      = Some ({| re := sqrt (1 - pFinal); im := 0 |},
              {| re := sqrt pFinal; im := 0 |}) /\
      forall q, cellOf nextGrid y x = Some q -> im q.1 = 0 /\ im q.2 = 0.
Proof.
  intros Hgrid HH HW.
  destruct (performQuantumStep_cells H W currentGrid params Hgrid HH HW)
    as (nextGrid & Hstep & Hshape & Hcells).
  exists nextGrid. split; [done |]. split; [done |].
  intros y x Hy Hx. cbv zeta.
  rewrite (Hcells y x Hy Hx), decohere_collapsed. split; [done |].
  by intros q [= <-].
Qed.

Lemma performQuantumStep_output_witness :
  exists nextGrid,
    performQuantumStep [[ket1; ket0]; [ket0; ket1]] DEFAULT_PARAMETERS
    = Some nextGrid /\
    isGrid 2 2 nextGrid /\
    forall y x, (y < 2)%nat -> (x < 2)%nat ->
      let p := prob1 (coherentState [[ket1; ket0]; [ket0; ket1]]
                                    DEFAULT_PARAMETERS 2 2 y x) in
      let pFinal := collapsedProbability (gamma DEFAULT_PARAMETERS) p in
      cellOf nextGrid y x
      = Some ({| re := sqrt (1 - pFinal); im := 0 |},
              {| re := sqrt pFinal; im := 0 |}) /\
      forall q, cellOf nextGrid y x = Some q -> im q.1 = 0 /\ im q.2 = 0.
Proof.
  apply (performQuantumStep_output 2 2 [[ket1; ket0]; [ket0; ket1]]
           DEFAULT_PARAMETERS).
  - split; [reflexivity | repeat constructor].
  - lia.
  - lia.
Defined.

(** C2, as the specification states it, fails: on the empty ground truth the
    fitness is 0, which is not strictly positive. *)
Lemma calculateFitness_not_always_positive :
  ~ (forall trajectory params, exists f,
       calculateFitness trajectory params = Some (Num f) /\
       0 < f <= DYNAMISM_BONUS_MULTIPLIER).
Proof.
  intros Hall. destruct (Hall [] DEFAULT_PARAMETERS) as (f & Hf & Hpos & _).
  simpl in Hf. injection Hf as <-. lra.
Qed.

(** C2 (amended): on every ground truth with the data that
    [precomputeGroundTruth] records (the initial grid and 15 snapshots, each
    a 32 x 32 grid of 0/1 cells with a population and a number of flips
    between 0 and 1024), and for every candidate, [calculateFitness] neither
    throws nor returns [NaN]: it returns a number strictly greater than 0 and
    at most the dynamism bonus multiplier (1.5). *)
Theorem calculateFitness_bounds (trajectory : list TrajectoryStep)
    (params : SimulationParameters) :
  groundTruthData trajectory ->
  exists f, calculateFitness trajectory params = Some (Num f) /\
            0 < f <= DYNAMISM_BONUS_MULTIPLIER.
Proof.
  intros Hdata.
  assert (Hwf : wfTrajectory trajectory) by (by apply groundTruthData_wf).
  destruct (calculateFitness_total trajectory params Hwf) as [f Hf].
  exists f. split; [done |].
  apply (calculateFitness_range trajectory params); [| done].
  destruct Hwf as [Hlen _]. by destruct trajectory.
Qed.

Lemma calculateFitness_bounds_witness :
  exists f, calculateFitness barrenTrajectory DEFAULT_PARAMETERS = Some (Num f) /\
            0 < f <= DYNAMISM_BONUS_MULTIPLIER.
Proof.
  apply (calculateFitness_bounds barrenTrajectory DEFAULT_PARAMETERS).
  split; [reflexivity |]. apply Forall_replicate.
  split; [split; [reflexivity |]; apply Forall_replicate; reflexivity |].
  split; [| split; cbn [population flipsSincePrevStep]; lia].
  apply Forall_replicate, Forall_replicate. by left.
Defined.

(** C3: on the empty ground truth [calculateFitness] returns exactly 0 for
    every candidate, without throwing. *)
Theorem calculateFitness_empty (params : SimulationParameters) :
  calculateFitness [] params = Some (Num 0).
Proof. reflexivity. Qed.

(** C4: the quantum step commutes with the toroidal translations: stepping
    the grid translated by (dy, dx) gives the translation by (dy, dx) of the
    stepped grid, on every H x W grid (H, W >= 1). *)
Theorem performQuantumStep_shift_invariant (H W : nat) (currentGrid : GridState)
    (params : SimulationParameters) (dy dx : Z) :
  isGrid H W currentGrid -> (1 <= H)%nat -> (1 <= W)%nat ->
  exists nextGrid,
    performQuantumStep currentGrid params = Some nextGrid /\
    performQuantumStep (translateGrid dy dx currentGrid) params
    = Some (translateGrid dy dx nextGrid).
Proof.
  intros Hgrid HH HW.
  rewrite (performQuantumStep_translateGrid H W) by done.
  destruct (performQuantumStep_cells H W currentGrid params Hgrid HH HW)
    as (nextGrid & -> & _). by exists nextGrid.
Qed.

Lemma performQuantumStep_shift_invariant_witness :
  exists nextGrid,
    performQuantumStep [[ket1; ket0; ket0]; [ket0; ket0; ket1]]
                       DEFAULT_PARAMETERS = Some nextGrid /\
    performQuantumStep
      (translateGrid 1 (-2) [[ket1; ket0; ket0]; [ket0; ket0; ket1]])
      DEFAULT_PARAMETERS
    = Some (translateGrid 1 (-2) nextGrid).
Proof.
  apply (performQuantumStep_shift_invariant 2 3).
  - split; [reflexivity | repeat constructor].
  - lia.
  - lia.
Defined.

(** C5: if the squared norm of a qubit is below 1e-12, [normalizeQubit]
    returns exactly ((1, 0), (0, 0)); otherwise it divides both components by
    the norm, and the squared norm of the result is exactly 1. *)
Theorem normalizeQubit_spec (q : QubitState) :
  (magSq q < 1 / 10 ^ 12 -> normalizeQubit q = ket0) /\
  (~ magSq q < 1 / 10 ^ 12 ->
     normalizeQubit q =
       ({| re := re q.1 / sqrt (magSq q); im := im q.1 / sqrt (magSq q) |},
        {| re := re q.2 / sqrt (magSq q); im := im q.2 / sqrt (magSq q) |})
     /\ magSq (normalizeQubit q) = 1).
Proof.
  destruct q as [alpha beta]. unfold normalizeQubit, magSq. cbn [fst snd].
  split; intros Hm.
  - destruct (Rlt_dec _ _); [reflexivity | contradiction].
  - destruct (Rlt_dec _ _); [contradiction |].
    split; [reflexivity |]. cbn [fst snd re im].
    set (m := re alpha * re alpha + im alpha * im alpha
              + re beta * re beta + im beta * im beta) in *.
    assert (Hpos : 0 < m).
    { apply Rnot_lt_le in Hm.
      assert (0 < 1 / 10 ^ 12) by (apply Rdiv_lt_0_compat; [lra | apply pow_lt; lra]).
      lra. }
    assert (Hs : sqrt m * sqrt m = m) by (apply sqrt_sqrt; lra).
    assert (Hs0 : sqrt m <> 0) by (intros E; rewrite E in Hs; lra).
    field_simplify_eq; [| exact Hs0].
    replace (sqrt m ^ 2) with (sqrt m * sqrt m) by ring.
    rewrite Hs. unfold m. ring.
Qed.

Lemma normalizeQubit_spec_witness :
  normalizeQubit (czero, czero) = ket0 /\
  magSq (normalizeQubit ({| re := 3; im := 0 |}, {| re := 0; im := 4 |})) = 1.
Proof.
  split.
  - apply (proj1 (normalizeQubit_spec (czero, czero))).
    unfold magSq. simpl. lra.
  - apply (proj2 (normalizeQubit_spec
                    ({| re := 3; im := 0 |}, {| re := 0; im := 4 |}))).
    unfold magSq. simpl. lra.
Defined.

(** C6: on registers of 0/1 cells of the same size, if the target is all-zero
    [advanceCycle] returns true, the new system is [performGOLStep] of the old
    system and the new target is the old system; if the target is not
    all-zero it returns false and leaves both registers unchanged. *)
Theorem advanceCycle_spec (H W : nat) (r : Registers) :
  (1 <= H)%nat -> isGrid H W (systemGrid r) -> isGrid H W (targetGrid r) ->
  isBinary (targetGrid r) ->
  (allZero (targetGrid r) ->
   exists next,
     performGOLStep (systemGrid r) = Some next /\
     advanceCycle r
     = Some (true, {| systemGrid := next; targetGrid := systemGrid r |})) /\
  (~ allZero (targetGrid r) -> advanceCycle r = Some (false, r)).
Proof.
  intros HH Hs Ht Hbin. split.
  - intros Hzero. exists (golStep H W (systemGrid r)).
    split; [by apply performGOLStep_golStep |]. by apply advanceCycle_clean.
  - intros Hnz. by apply (advanceCycle_dirty H W).
Qed.

Lemma advanceCycle_spec_witness :
  exists next,
    performGOLStep [[0; 1; 0]; [0; 1; 0]; [0; 1; 0]]%Z = Some next /\
    advanceCycle {| systemGrid := [[0; 1; 0]; [0; 1; 0]; [0; 1; 0]]%Z;
                    targetGrid := [[0; 0; 0]; [0; 0; 0]; [0; 0; 0]]%Z |}
    = Some (true, {| systemGrid := next;
                     targetGrid := [[0; 1; 0]; [0; 1; 0]; [0; 1; 0]]%Z |}).
Proof.
  apply (advanceCycle_spec 3 3
           {| systemGrid := [[0; 1; 0]; [0; 1; 0]; [0; 1; 0]]%Z;
              targetGrid := [[0; 0; 0]; [0; 0; 0]; [0; 0; 0]]%Z |}).
  - lia.
  - split; [reflexivity | repeat constructor].
  - split; [reflexivity | repeat constructor].
  - repeat constructor.
  - repeat constructor.
Defined.

(** C7: on every torus of at least 5 x 5 cells (32 x 32 for instance), a grid
    that is all-zero except for one horizontal blinker [[1,1,1]] oscillates
    with period 2: one application of [performGOLStep] gives the blinker
    standing upright on the same centre, which is a different grid, and a
    second application gives back exactly the original grid. *)
Theorem blinker_period_two (H W y0 x0 : nat) :
  (5 <= H)%nat -> (5 <= W)%nat -> (y0 < H)%nat -> (x0 < W)%nat ->
  performGOLStep (horizontalBlinker H W y0 x0)
  = Some (verticalBlinker H W y0 x0) /\
  verticalBlinker H W y0 x0 <> horizontalBlinker H W y0 x0 /\
  performGOLStep (verticalBlinker H W y0 x0)
  = Some (horizontalBlinker H W y0 x0) /\
  performGOLStep (horizontalBlinker H W y0 x0) ≫= performGOLStep
  = Some (horizontalBlinker H W y0 x0).
Proof.
  intros HH HW Hy0 Hx0.
  assert (Hfirst : performGOLStep (horizontalBlinker H W y0 x0)
                   = Some (verticalBlinker H W y0 x0)).
  { rewrite (performGOLStep_golStep H W) by (apply isGrid_tabulate || lia).
    by rewrite golStep_horizontalBlinker. }
  assert (Hsecond : performGOLStep (verticalBlinker H W y0 x0)
                    = Some (horizontalBlinker H W y0 x0)).
  { rewrite (performGOLStep_golStep H W) by (apply isGrid_tabulate || lia).
    by rewrite golStep_verticalBlinker. }
  split; [exact Hfirst |]. split; [by apply blinkers_differ; lia |].
  split; [exact Hsecond |]. rewrite Hfirst. exact Hsecond.
Qed.

Lemma blinker_period_two_witness :
  performGOLStep (horizontalBlinker 32 32 15 15)
  = Some (verticalBlinker 32 32 15 15) /\
  verticalBlinker 32 32 15 15 <> horizontalBlinker 32 32 15 15 /\
  performGOLStep (verticalBlinker 32 32 15 15)
  = Some (horizontalBlinker 32 32 15 15) /\
  performGOLStep (horizontalBlinker 32 32 15 15) ≫= performGOLStep
  = Some (horizontalBlinker 32 32 15 15).
Proof. apply (blinker_period_two 32 32 15 15); lia. Defined.

(** C8: the fitness does not depend on the gamma of the candidate: two
    candidates that differ only in gamma have the same fitness. *)
Theorem calculateFitness_ignores_gamma (trajectory : list TrajectoryStep)
    (gamma1 gamma2 : R) (ws wn : PauliCoefficients) :
  calculateFitness trajectory
    {| gamma := gamma1; w_self := ws; w_neighbor := wn |}
  = calculateFitness trajectory
      {| gamma := gamma2; w_self := ws; w_neighbor := wn |}.
Proof. reflexivity. Qed.

(** C9: along every run of the search, from [initializeSearch] on, each
    completed call of [runGeneration] increases the generation counter (the
    ref and the reported one) by exactly 1, so [k] completed calls increase
    it by [k], and the reported best fitness never drops from one generation
    to a later one. *)
Theorem runGeneration_progress (random : nat -> R) (s s' : SearchState)
    (k : nat) :
  reachable random s -> generations random s k s' ->
  generationRef s' = (generationRef s + Z.of_nat k)%Z /\
  generation (searchProgress s') = (generation (searchProgress s) + Z.of_nat k)%Z /\
  bestFitness (searchProgress s) <= bestFitness (searchProgress s').
Proof. apply generations_monotone. Qed.

Lemma runGeneration_progress_witness :
  exists s s',
    reachable (fun _ => 0) s /\
    generations (fun _ => 0) s 1 s' /\
    generationRef s' = (generationRef s + 1)%Z /\
    generation (searchProgress s') = (generation (searchProgress s) + 1)%Z /\
    bestFitness (searchProgress s) <= bestFitness (searchProgress s').
Proof.
  destruct (initializeSearch_total (fun _ => 0) initialSearchState 0)
    as (s & n & Hinit & Hwf & Hlen).
  assert (Hrange : forall k : nat, 0 <= (fun _ : nat => 0) k < 1)
    by (intros k; lra).
  assert (Hpop : (ELITISM_COUNT <= length (populationRef s))%nat)
    by (rewrite Hlen; unfold ELITISM_COUNT, POPULATION_SIZE; lia).
  destruct (runGeneration_total (fun _ => 0) Hrange s Hwf Hpop n)
    as [[s' n'] Hrun].
  assert (Hreach : reachable (fun _ => 0) s)
    by exact (reachable_init (fun _ => 0) initialSearchState 0%nat s n Hinit).
  assert (Hgen : generations (fun _ => 0) s 1 s')
    by exact (generations_next (fun _ => 0) s 0%nat s n s' n'
                (generations_none (fun _ => 0) s) Hrun).
  exists s, s'. split; [exact Hreach |]. split; [exact Hgen |].
  exact (runGeneration_progress (fun _ => 0) s s' 1%nat Hreach Hgen).
Defined.

(** C10, as stated, fails on a grid whose rows are empty: its encoding is the
    empty grid, which decodes to no row at all. *)
Lemma classical_roundtrip_empty_rows :
  isBinary [[]] /\
  map (map getClassicalState) (createQubitGridFromClassical [[]]) <> [[]].
Proof. split; [repeat constructor | discriminate]. Qed.

(** C10 (amended): for every classical grid of 0/1 cells whose rows all have
    the same width W >= 1, encoding it with [createQubitGridFromClassical] and
    decoding each cell with [getClassicalState] gives back the grid. *)
Theorem classical_roundtrip_identity (H W : nat) (classical : ClassicalGridState) :
  isGrid H W classical -> (1 <= W)%nat -> isBinary classical ->
  map (map getClassicalState) (createQubitGridFromClassical classical)
  = classical.
Proof. apply roundtrip_on_grids. Qed.

Lemma classical_roundtrip_identity_witness :
  map (map getClassicalState)
      (createQubitGridFromClassical [[0; 1; 1]; [1; 0; 0]]%Z)
  = [[0; 1; 1]; [1; 0; 0]]%Z.
Proof.
  apply (classical_roundtrip_identity 2 3).
  - split; [reflexivity | repeat constructor].
  - lia.
  - unfold isBinary.
    repeat match goal with
           | |- Forall _ _ => constructor
           | |- _ \/ _ => (left; reflexivity) || (right; reflexivity)
           end.
Defined.

(** * Further properties of the code *)

(** ** The simulation kernel *)

Lemma Complex_eq (a b : Complex) : re a = re b -> im a = im b -> a = b.
Proof. destruct a, b. simpl. by intros -> ->. Qed.

Lemma constructMatrix_closed_form (coeffs : PauliCoefficients) :
  constructMatrix coeffs
  = (({| re := re (cI coeffs) + re (cZ coeffs);
         im := im (cI coeffs) + im (cZ coeffs) |},
      {| re := re (cX coeffs) + im (cY coeffs);
         im := im (cX coeffs) - re (cY coeffs) |}),
     ({| re := re (cX coeffs) - im (cY coeffs);
         im := im (cX coeffs) + re (cY coeffs) |},
      {| re := re (cI coeffs) - re (cZ coeffs);
         im := im (cI coeffs) - im (cZ coeffs) |})).
Proof.
  unfold constructMatrix, addMatrices, scaleMatrix, mapMatrix,
    pauliI, pauliX, pauliY, pauliZ.
  cbn [fst snd]. repeat f_equal; apply Complex_eq; cbn [cadd cmul re im]; ring.
Qed.

(** X1: the operator that [constructMatrix] builds from Pauli coefficients
    is, in exact arithmetic, [[cI + cZ, cX - i cY], [cX + i cY, cI - cZ]]. *)
Theorem constructMatrix_entries (coeffs : PauliCoefficients) :
  constructMatrix coeffs
  = (({| re := re (cI coeffs) + re (cZ coeffs);
         im := im (cI coeffs) + im (cZ coeffs) |},
      {| re := re (cX coeffs) + im (cY coeffs);
         im := im (cX coeffs) - re (cY coeffs) |}),
     ({| re := re (cX coeffs) - im (cY coeffs);
         im := im (cX coeffs) + re (cY coeffs) |},
      {| re := re (cI coeffs) - re (cZ coeffs);
         im := im (cI coeffs) - im (cZ coeffs) |})).
Proof. exact (constructMatrix_closed_form coeffs). Qed.

Lemma applyMatrix_identity (q : QubitState) :
  applyMatrix (constructMatrix (w_self DEFAULT_PARAMETERS)) q = q.
Proof.
  rewrite constructMatrix_closed_form. destruct q as [a b].
  unfold applyMatrix. cbn [fst snd].
  f_equal; apply Complex_eq; cbn [cadd cmul re im w_self DEFAULT_PARAMETERS
    cI cX cY cZ ONE_C ZERO_C]; ring.
Qed.

Lemma applyMatrix_zero (q : QubitState) :
  applyMatrix (constructMatrix (w_neighbor DEFAULT_PARAMETERS)) q = (czero, czero).
Proof.
  rewrite constructMatrix_closed_form. destruct q as [a b].
  unfold applyMatrix, czero. cbn [fst snd].
  f_equal; apply Complex_eq; cbn [cadd cmul re im w_neighbor DEFAULT_PARAMETERS
    cI cX cY cZ ONE_C ZERO_C]; ring.
Qed.

Lemma threshold_pos : 0 < 1 / 10 ^ 12.
Proof. apply Rdiv_lt_0_compat; [lra | apply pow_lt; lra]. Qed.

Lemma normalizeQubit_unit (q : QubitState) : magSq (normalizeQubit q) = 1.
Proof.
  destruct q as [alpha beta]. unfold normalizeQubit.
  destruct (Rlt_dec _ _) as [Hlt | Hge].
  - unfold magSq, ket0. cbn [fst snd re im]. ring.
  - unfold magSq. cbn [fst snd re im].
    set (m := re alpha * re alpha + im alpha * im alpha
              + re beta * re beta + im beta * im beta) in *.
    pose proof threshold_pos.
    assert (Hpos : 0 < m) by (apply Rnot_lt_le in Hge; lra).
    assert (Hs : sqrt m * sqrt m = m) by (apply sqrt_sqrt; lra).
    assert (Hs0 : sqrt m <> 0) by (intros E; rewrite E in Hs; lra).
    field_simplify_eq; [| exact Hs0].
    replace (sqrt m ^ 2) with (sqrt m * sqrt m) by ring.
    rewrite Hs. unfold m. ring.
Qed.

Lemma normalizeQubit_of_unit (q : QubitState) :
  magSq q = 1 -> normalizeQubit q = q.
Proof.
  destruct q as [alpha beta]. unfold magSq, normalizeQubit. cbn [fst snd].
  intros ->. pose proof threshold_pos.
  destruct (Rlt_dec _ _) as [Hlt | _]; [| rewrite sqrt_1].
  - assert (1 / 10 ^ 12 <= 1); [| lra].
    apply (Rmult_le_reg_r (10 ^ 12)); [apply pow_lt; lra |].
    unfold Rdiv. rewrite Rmult_assoc, Rinv_l by (apply pow_nonzero; lra).
    assert (1 <= 10 ^ 12) by (apply pow_R1_Rle; lra). lra.
  - f_equal; apply Complex_eq; cbn [re im]; field.
Qed.

(** X2: in exact real arithmetic, normalizing twice is normalizing once. *)
Theorem normalizeQubit_idempotent (q : QubitState) :
  normalizeQubit (normalizeQubit q) = normalizeQubit q.
Proof. apply normalizeQubit_of_unit, normalizeQubit_unit. Qed.

Lemma clamp01_range (v : R) : 0 <= clamp01 v <= 1.
Proof.
  unfold clamp01, Rmax, Rmin.
  repeat (destruct (Rle_dec _ _)); lra.
Qed.

Lemma prob1_nonneg (q : QubitState) : 0 <= prob1 q.
Proof. unfold prob1. nra. Qed.

Lemma prob1_decohere (gamma : R) (q : QubitState) :
  prob1 (decohere gamma q)
  = clamp01 ((1 - gamma) * prob1 q
             + gamma * (if Rle_dec (1 / 2) (prob1 q) then 1 else 0)).
Proof.
  unfold decohere, prob1 at 1. cbv zeta. cbn [fst snd re im].
  fold (prob1 q).
  rewrite sqrt_sqrt by apply clamp01_range. ring.
Qed.

Lemma decohere_unit (gamma : R) (q : QubitState) : magSq (decohere gamma q) = 1.
Proof.
  unfold decohere, magSq. cbv zeta. cbn [fst snd re im].
  set (v := clamp01 _).
  assert (Hv : 0 <= v <= 1) by apply clamp01_range.
  rewrite !sqrt_sqrt by lra. ring.
Qed.

(** The two stages of the step: the coherent grid does not depend on gamma. *)
Lemma performQuantumStep_stages (g : GridState) (ws wn : PauliCoefficients) :
  exists coherent : option GridState,
    forall gamma,
      performQuantumStep g {| gamma := gamma; w_self := ws; w_neighbor := wn |}
      = map (map (decohere gamma)) <$> coherent.
Proof.
  unfold performQuantumStep. destruct (g !! 0%nat) as [row0 |].
  - cbn [mbind option_bind w_self w_neighbor gamma].
    eexists. intros gamma0. reflexivity.
  - exists None. done.
Qed.

Lemma getClassicalState_decohere (gamma : R) (q : QubitState) :
  0 <= gamma <= 1 ->
  getClassicalState (decohere gamma q) = getClassicalState q.
Proof.
  intros Hg. unfold getClassicalState. rewrite prob1_decohere.
  pose proof (prob1_nonneg q) as Hp.
  destruct (Rle_dec (1 / 2) (prob1 q)) as [Hhi | Hlo].
  - destruct (Rle_dec _ _) as [_ | Hn]; [done |]. exfalso. apply Hn.
    unfold clamp01, Rmax, Rmin. repeat (destruct (Rle_dec _ _)); nra.
  - destruct (Rle_dec _ _) as [Hy | _]; [| done]. exfalso.
    revert Hy. unfold clamp01, Rmax, Rmin.
    repeat (destruct (Rle_dec _ _)); nra.
Qed.

Lemma decohere_full (q : QubitState) :
  decohere 1 q = if Rle_dec (1 / 2) (prob1 q) then ket1 else ket0.
Proof.
  unfold decohere, prob1. cbv zeta.
  destruct (Rle_dec _ _).
  - replace (clamp01 _) with 1.
    + replace (1 - 1) with 0 by ring. by rewrite sqrt_0, sqrt_1.
    + unfold clamp01, Rmax, Rmin. repeat (destruct (Rle_dec _ _)); lra.
  - replace (clamp01 _) with 0.
    + replace (1 - 0) with 1 by ring. by rewrite sqrt_0, sqrt_1.
    + unfold clamp01, Rmax, Rmin. repeat (destruct (Rle_dec _ _)); lra.
Qed.


Lemma Forall_grid_cellOf {A : Type} (P : A -> Prop) (g : list (list A)) :
  Forall (Forall P) g <-> forall y x a, cellOf g y x = Some a -> P a.
Proof.
  unfold cellOf. split.
  - intros Hall y x a Hc. rewrite Forall_lookup in Hall.
    destruct (g !! y) as [row |] eqn:Hrow; [| done]. simpl in Hc.
    specialize (Hall y row Hrow). rewrite Forall_lookup in Hall. eauto.
  - intros Hc. apply Forall_lookup. intros y row Hrow.
    apply Forall_lookup. intros x a Ha. apply (Hc y x a). by rewrite Hrow.
Qed.

(** X3: in exact real arithmetic, whatever the grid, the parameters and
    gamma, each cell of the output of the quantum step has squared norm 1. *)
Theorem performQuantumStep_unit_norm (g nextGrid : GridState)
    (p : SimulationParameters) :
  performQuantumStep g p = Some nextGrid ->
  Forall (Forall (fun q => magSq q = 1)) nextGrid.
Proof.
  destruct p as [gamma0 ws wn].
  destruct (performQuantumStep_stages g ws wn) as [coherent Hst].
  rewrite Hst. destruct coherent as [c |]; [| done]. intros [= <-].
  apply Forall_fmap, Forall_forall. intros row _. simpl.
  apply Forall_fmap, Forall_forall. intros q _. simpl. apply decohere_unit.
Qed.

Lemma performQuantumStep_unit_norm_witness :
  exists nextGrid,
    performQuantumStep [[ket1; ket0]; [ket0; ket1]] DEFAULT_PARAMETERS
    = Some nextGrid /\
    Forall (Forall (fun q => magSq q = 1)) nextGrid.
Proof.
  destruct (performQuantumStep_cells 2 2 [[ket1; ket0]; [ket0; ket1]]
              DEFAULT_PARAMETERS) as (nextGrid & Hstep & _);
    [split; [reflexivity | repeat constructor] | lia | lia |].
  exists nextGrid. split; [exact Hstep |].
  exact (performQuantumStep_unit_norm _ _ _ Hstep).
Defined.

(** X4: in exact real arithmetic, the classical reading of the output of the
    quantum step is the same for every decoherence weight in [0, 1]. *)
Theorem classical_reading_ignores_gamma (g : GridState)
    (ws wn : PauliCoefficients) (gamma1 gamma2 : R) :
  0 <= gamma1 <= 1 -> 0 <= gamma2 <= 1 ->
  map (map getClassicalState)
    <$> performQuantumStep g {| gamma := gamma1; w_self := ws; w_neighbor := wn |}
  = map (map getClassicalState)
      <$> performQuantumStep g {| gamma := gamma2; w_self := ws; w_neighbor := wn |}.
Proof.
  intros H1 H2.
  destruct (performQuantumStep_stages g ws wn) as [coherent Hst].
  rewrite !Hst. destruct coherent as [c |]; [| done]. simpl. f_equal.
  rewrite <- !list_fmap_compose. apply list_fmap_ext. intros _ row _. simpl.
  rewrite <- !list_fmap_compose. apply list_fmap_ext. intros _ q _. simpl.
  by rewrite !getClassicalState_decohere.
Qed.

Lemma classical_reading_ignores_gamma_witness :
  map (map getClassicalState)
    <$> performQuantumStep [[ket1; ket0]; [ket0; ket1]]
          {| gamma := 0; w_self := w_self DEFAULT_PARAMETERS;
             w_neighbor := w_neighbor DEFAULT_PARAMETERS |}
  = map (map getClassicalState)
      <$> performQuantumStep [[ket1; ket0]; [ket0; ket1]]
            {| gamma := 1; w_self := w_self DEFAULT_PARAMETERS;
               w_neighbor := w_neighbor DEFAULT_PARAMETERS |}.
Proof. apply classical_reading_ignores_gamma; lra. Defined.




Lemma qadd_zero_r (q : QubitState) : qadd q (czero, czero) = q.
Proof.
  destruct q as [a b]. unfold qadd, czero. cbn [fst snd].
  f_equal; apply Complex_eq; cbn [cadd re im]; ring.
Qed.

Lemma decohere_full_basis (q : QubitState) :
  q = ket0 \/ q = ket1 -> decohere 1 q = q.
Proof.
  intros [-> | ->]; rewrite decohere_full.
  - unfold prob1, ket0. cbn [fst snd re im].
    destruct (Rle_dec _ _); [lra | done].
  - unfold prob1, ket1. cbn [fst snd re im].
    destruct (Rle_dec _ _); [done | lra].
Qed.

Lemma basis_unit (q : QubitState) : q = ket0 \/ q = ket1 -> magSq q = 1.
Proof. intros [-> | ->]; unfold magSq, ket0, ket1; cbn [fst snd re im]; ring. Qed.

(** X6: under the default parameters (identity on the cell, no neighbour
    influence, gamma = 1) a grid of basis states is a fixed point of the
    quantum step. *)
Theorem default_parameters_fix_basis_grids (H W : nat) (g : GridState) :
  isGrid H W g -> (1 <= H)%nat -> (1 <= W)%nat ->
  Forall (Forall (fun q => q = ket0 \/ q = ket1)) g ->
  performQuantumStep g DEFAULT_PARAMETERS = Some g.
Proof.
  intros Hg HH HW Hbasis.
  destruct (performQuantumStep_cells H W g DEFAULT_PARAMETERS Hg HH HW)
    as (nextGrid & -> & Hshape & Hcells).
  f_equal. apply (grid_eq H W); [done | done |]. intros y x Hy Hx.
  rewrite (Hcells y x Hy Hx), (qubitAt_cellOf H W g Hg y x Hy Hx). f_equal.
  assert (Hq : qubitAt g y x = ket0 \/ qubitAt g y x = ket1).
  { rewrite Forall_grid_cellOf in Hbasis. apply (Hbasis y x).
    by apply (qubitAt_cellOf H W). }
  unfold coherentState.
  rewrite applyMatrix_identity, applyMatrix_zero, qadd_zero_r.
  rewrite normalizeQubit_of_unit by (by apply basis_unit).
  by apply decohere_full_basis.
Qed.

Lemma default_parameters_fix_basis_grids_witness :
  performQuantumStep createEmptyGrid DEFAULT_PARAMETERS = Some createEmptyGrid.
Proof.
  apply (default_parameters_fix_basis_grids GRID_HEIGHT GRID_WIDTH).
  - split; [apply length_replicate |].
    apply Forall_replicate, length_replicate.
  - unfold GRID_HEIGHT. lia.
  - unfold GRID_WIDTH. lia.
  - apply Forall_replicate, Forall_replicate. by left.
Defined.

Lemma isGrid_no_columns {A : Type} (H : nat) (g : list (list A)) :
  isGrid H 0 g -> g = replicate H [].
Proof.
  intros [<- Hrows]. induction Hrows as [| row g Hrow _ IH]; [done |].
  simpl. rewrite <- IH. by destruct row.
Qed.

Lemma map_map_no_columns {A B : Type} (f : A -> B) (n : nat) :
  map (map f) (replicate n []) = replicate n [].
Proof. induction n as [| n IH]; [done |]. simpl. by rewrite IH. Qed.

(** X7: on a rectangular grid the quantum step throws exactly when the grid
    has no row; a grid of empty rows is returned as it is. *)
Theorem performQuantumStep_throws_iff_no_row (H W : nat) (g : GridState)
    (p : SimulationParameters) :
  isGrid H W g ->
  (performQuantumStep g p = None <-> H = 0%nat) /\
  (W = 0%nat -> (1 <= H)%nat -> performQuantumStep g p = Some g).
Proof.
  intros Hg.
  assert (Hempty : W = 0%nat -> (1 <= H)%nat -> performQuantumStep g p = Some g).
  { intros -> HH. apply isGrid_no_columns in Hg. subst g.
    destruct H as [| h]; [lia |]. unfold performQuantumStep.
    cbn [replicate lookup list_lookup mbind option_bind].
    change ([] :: replicate h []) with (replicate (S h) (@nil QubitState)).
    match goal with
    | |- context [imapM ?f ?l] =>
        assert (Him : imapM f l = Some (replicate (S h) []))
    end.
    { apply imapM_Some. split; [done |]. intros i row Hi.
      apply lookup_replicate in Hi as [-> Hi].
      rewrite lookup_replicate_2 by done. done. }
    rewrite Him. cbn [mbind option_bind]. f_equal.
    apply map_map_no_columns. }
  split; [| done]. split.
  - intros Hnone. destruct (decide (H = 0%nat)) as [| HH]; [done |]. exfalso.
    destruct (decide (W = 0%nat)) as [HW0 | HW].
    + rewrite Hempty in Hnone by lia. done.
    + destruct (performQuantumStep_cells H W g p Hg) as (out & Hout & _);
        [lia | lia |]. congruence.
  - intros ->. destruct Hg as [Hlen _]. by destruct g.
Qed.

Lemma performQuantumStep_throws_iff_no_row_witness :
  (performQuantumStep [[]; []] DEFAULT_PARAMETERS = None <-> 2%nat = 0%nat) /\
  (0%nat = 0%nat -> (1 <= 2)%nat ->
   performQuantumStep [[]; []] DEFAULT_PARAMETERS = Some [[]; []]).
Proof.
  apply (performQuantumStep_throws_iff_no_row 2 0 [[]; []] DEFAULT_PARAMETERS).
  split; [reflexivity | repeat constructor].
Defined.

(** ** The classical step *)

Lemma golRule_binary (cell count : option Z) :
  golRule cell count = 0%Z \/ golRule cell count = 1%Z.
Proof.
  unfold golRule.
  destruct (_ && _); [by right |]. destruct (_ && _); [by right | by left].
Qed.

Lemma neighborCount_is_Some (g : ClassicalGridState) (W y x : nat)
    (offs : list (Z * Z)) (acc : option Z) :
  (y < length g)%nat -> smallOffsets offs ->
  is_Some (foldlM (fun (neighborCount : option Z) '(i, j) =>
                     let ny := jsRem (Z.of_nat y + i + Z.of_nat (length g))
                                     (Z.of_nat (length g)) in
                     let nx := jsRem (Z.of_nat x + j + Z.of_nat W) (Z.of_nat W) in
                     row ← jsIndex g ny;
                     Some (jsPlus neighborCount (jsIndex row nx)))
                  acc offs).
Proof.
  intros Hy Hoffs. revert acc.
  induction Hoffs as [| [i j] offs [Hi Hj] _ IH]; intros acc; [by eexists |].
  cbn [foldlM]. simpl in Hi. rewrite jsIndex_wrap by (done || lia).
  destruct (lookup_lt_is_Some_2 g (wrap y i (length g))) as [row ->].
  { apply wrap_lt. lia. }
  simpl. apply IH.
Qed.

Lemma neighborCount_total (g : ClassicalGridState) (W y x : nat) :
  (y < length g)%nat ->
  is_Some (neighborCount g (Z.of_nat (length g)) (Z.of_nat W)
                         (Z.of_nat y) (Z.of_nat x)).
Proof.
  intros Hy. by apply neighborCount_is_Some, neighborOffsets_small.
Qed.

Lemma performGOLStep_rows_and_cells (g : ClassicalGridState) :
  (performGOLStep g = None <-> g = []) /\
  forall row0 next,
    g !! 0%nat = Some row0 -> performGOLStep g = Some next ->
    isGrid (length g) (length row0) next /\ isBinary next.
Proof.
  unfold performGOLStep. destruct g as [| row0 g'] eqn:Eg; [by split |].
  rewrite <- Eg. assert (Hrow0 : g !! 0%nat = Some row0) by (by subst g).
  rewrite Hrow0. cbn [mbind option_bind].
  set (h := fun y x =>
         golRule (default [] (g !! y) !! x)
                 (default None
                    (neighborCount g (Z.of_nat (length g))
                       (Z.of_nat (length row0)) (Z.of_nat y) (Z.of_nat x)))).
  match goal with
  | |- context [mapM ?f (seq 0 (length g))] =>
      assert (Hm : mapM f (seq 0 (length g))
                   = Some ((fun y => (fun x => h y x) <$> seq 0 (length row0))
                             <$> seq 0 (length g)))
  end.
  { apply mapM_tabulate. intros y Hy.
    apply list_elem_of_lookup in Hy as [iy Hy].
    apply lookup_seq in Hy as [-> Hy]. simpl.
    apply mapM_tabulate. intros x _.
    destruct (neighborCount_total g (length row0) iy x Hy) as [c Hc].
    unfold h. rewrite Hc. cbn [mbind option_bind default].
    destruct (lookup_lt_is_Some_2 g iy Hy) as [row ->]. done. }
  rewrite Hm. split.
  - split; [done | by subst g].
  - intros row0' next [= <-] [= <-]. split; [apply isGrid_tabulate |].
    unfold isBinary. apply Forall_fmap, Forall_forall. intros y _. simpl.
    apply Forall_fmap, Forall_forall. intros x _. simpl. apply golRule_binary.
Qed.

(** X8: [performGOLStep] throws exactly on the array without rows; on any
    other array, ragged or with cells other than 0 and 1, it returns a grid
    with as many rows as its input, each as wide as the first input row,
    whose cells are all 0 or 1. *)
Theorem performGOLStep_shape (g : ClassicalGridState) :
  (performGOLStep g = None <-> g = []) /\
  forall row0 next,
    g !! 0%nat = Some row0 -> performGOLStep g = Some next ->
    isGrid (length g) (length row0) next /\ isBinary next.
Proof. exact (performGOLStep_rows_and_cells g). Qed.

Lemma performGOLStep_shape_witness :
  isGrid 2 3 [[0; 0; 0]; [0; 0; 0]]%Z /\ isBinary [[0; 0; 0]; [0; 0; 0]]%Z.
Proof.
  apply (proj2 (performGOLStep_shape [[7; 1; 1]; [1]]%Z) [7; 1; 1]%Z);
    reflexivity.
Defined.

Lemma cellValue_translateGrid (H W : nat) (dy dx : Z) (g : ClassicalGridState)
    (y x : nat) :
  isGrid H W g -> (y < H)%nat -> (x < W)%nat ->
  cellValue (translateGrid dy dx g) y x
  = cellValue g (wrap y (- dy) H) (wrap x (- dx) W).
Proof.
  intros Hg Hy Hx. unfold cellValue. by rewrite (cellOf_translateGrid H W).
Qed.

Lemma liveNeighbors_translateGrid (H W : nat) (dy dx : Z)
    (g : ClassicalGridState) (y x : nat) :
  isGrid H W g -> (1 <= H)%nat -> (1 <= W)%nat ->
  liveNeighbors (translateGrid dy dx g) H W y x
  = liveNeighbors g H W (wrap y (- dy) H) (wrap x (- dx) W).
Proof.
  intros Hg HH HW. unfold liveNeighbors.
  generalize 0%Z. generalize neighborOffsets.
  intros offs. induction offs as [| [i j] offs IH]; intros acc; [done |].
  cbn [foldl]. rewrite IH. f_equal. f_equal.
  rewrite (cellValue_translateGrid H W) by (done || apply wrap_lt; lia).
  by rewrite (wrap_comm y i), (wrap_comm x j).
Qed.

Lemma cellOf_golStep (H W : nat) (g : ClassicalGridState) (y x : nat) :
  (y < H)%nat -> (x < W)%nat ->
  cellOf (golStep H W g) y x
  = Some (golNext (cellValue g y x) (liveNeighbors g H W y x)).
Proof.
  intros Hy Hx. unfold golStep.
  by rewrite (cellOf_tabulate H W
    (fun y x => golNext (cellValue g y x) (liveNeighbors g H W y x))).
Qed.

Lemma golStep_translateGrid (H W : nat) (dy dx : Z) (g : ClassicalGridState) :
  isGrid H W g -> (1 <= H)%nat -> (1 <= W)%nat ->
  golStep H W (translateGrid dy dx g) = translateGrid dy dx (golStep H W g).
Proof.
  intros Hg HH HW.
  apply (grid_eq H W);
    [apply golStep_isGrid | apply translateGrid_isGrid, golStep_isGrid |].
  intros y x Hy Hx.
  rewrite cellOf_golStep by done.
  rewrite (cellOf_translateGrid H W) by (done || apply golStep_isGrid).
  rewrite cellOf_golStep by (apply wrap_lt; lia).
  by rewrite (cellValue_translateGrid H W), (liveNeighbors_translateGrid H W).
Qed.

Lemma performGOLStep_translateGrid (H W : nat) (dy dx : Z)
    (g : ClassicalGridState) :
  isGrid H W g -> (1 <= H)%nat -> (1 <= W)%nat ->
  performGOLStep (translateGrid dy dx g)
  = translateGrid dy dx <$> performGOLStep g.
Proof.
  intros Hg HH HW.
  rewrite (performGOLStep_golStep H W) by (by apply translateGrid_isGrid || done).
  rewrite (performGOLStep_golStep H W g) by done. simpl.
  by rewrite golStep_translateGrid.
Qed.

(** X9: the classical step commutes with the toroidal translations. *)
Theorem performGOLStep_shift_invariant (H W : nat) (dy dx : Z)
    (g : ClassicalGridState) :
  isGrid H W g -> (1 <= H)%nat -> (1 <= W)%nat ->
  performGOLStep (translateGrid dy dx g)
  = translateGrid dy dx <$> performGOLStep g.
Proof. exact (performGOLStep_translateGrid H W dy dx g). Qed.

Lemma performGOLStep_shift_invariant_witness :
  performGOLStep (translateGrid 1 (-1) [[0; 1; 0]; [0; 0; 1]; [1; 1; 1]; [0; 0; 0]]%Z)
  = translateGrid 1 (-1)
      <$> performGOLStep [[0; 1; 0]; [0; 0; 1]; [1; 1; 1]; [0; 0; 0]]%Z.
Proof.
  apply (performGOLStep_shift_invariant 4 3).
  - split; [reflexivity | repeat constructor].
  - lia.
  - lia.
Defined.

Lemma golSteps_S (n : nat) (g : ClassicalGridState) :
  golSteps (S n) g = golSteps n g ≫= performGOLStep.
Proof. reflexivity. Qed.

Lemma golSteps_grid (H W n : nat) (g : ClassicalGridState) :
  isGrid H W g -> (1 <= H)%nat ->
  exists gn, golSteps n g = Some gn /\ isGrid H W gn.
Proof.
  intros Hg HH. induction n as [| n (gn & Hgn & Hshape)].
  - by exists g.
  - rewrite golSteps_S, Hgn. simpl.
    rewrite (performGOLStep_golStep H W) by done.
    eexists. split; [done | apply golStep_isGrid].
Qed.

Lemma golSteps_translateGrid (H W n : nat) (dy dx : Z) (g : ClassicalGridState) :
  isGrid H W g -> (1 <= H)%nat -> (1 <= W)%nat ->
  golSteps n (translateGrid dy dx g) = translateGrid dy dx <$> golSteps n g.
Proof.
  intros Hg HH HW. induction n as [| n IH]; [done |].
  rewrite !golSteps_S, IH.
  destruct (golSteps_grid H W n g Hg HH) as (gn & -> & Hshape). simpl.
  by apply (performGOLStep_translateGrid H W).
Qed.

Lemma wrap_shift_compose (k : nat) (d e : Z) (n : nat) :
  (1 <= n)%nat -> wrap (wrap k (- d) n) (- e) n = wrap k (- (d + e)) n.
Proof.
  intros Hn. rewrite wrap_wrap by done. unfold wrap. f_equal. f_equal. lia.
Qed.

Lemma translateGrid_compose {A : Type} (H W : nat) (dy dx ey ex : Z)
    (g : list (list A)) :
  isGrid H W g -> (1 <= H)%nat -> (1 <= W)%nat ->
  translateGrid dy dx (translateGrid ey ex g)
  = translateGrid (dy + ey) (dx + ex) g.
Proof.
  intros Hg HH HW.
  apply (grid_eq H W); [by do 2 apply translateGrid_isGrid
                       | by apply translateGrid_isGrid |].
  intros y x Hy Hx.
  rewrite (cellOf_translateGrid H W) by (by apply translateGrid_isGrid || done).
  rewrite (cellOf_translateGrid H W) by (done || apply wrap_lt; lia).
  rewrite (cellOf_translateGrid H W) by done.
  rewrite (wrap_shift_compose y), (wrap_shift_compose x) by done. done.
Qed.

(** Sums of cells. *)
Lemma foldl_add_shift {A : Type} (f : A -> Z) (l : list A) (z : Z) :
  foldl (fun acc a => (acc + f a)%Z) z l
  = (z + foldl (fun acc a => (acc + f a)%Z) 0%Z l)%Z.
Proof.
  revert z. induction l as [| a l IH]; intros z; simpl; [lia |].
  rewrite (IH (z + f a)%Z), (IH (0 + f a)%Z). lia.
Qed.

Lemma foldl_add_app {A : Type} (f : A -> Z) (l1 l2 : list A) :
  foldl (fun acc a => (acc + f a)%Z) 0%Z (l1 ++ l2)
  = (foldl (fun acc a => (acc + f a)%Z) 0%Z l1
     + foldl (fun acc a => (acc + f a)%Z) 0%Z l2)%Z.
Proof. rewrite foldl_app. apply foldl_add_shift. Qed.

Lemma foldl_add_rotate {A : Type} (f : A -> Z) (n : nat) (l : list A) :
  foldl (fun acc a => (acc + f a)%Z) 0%Z (rotate n l)
  = foldl (fun acc a => (acc + f a)%Z) 0%Z l.
Proof.
  unfold rotate. rewrite foldl_add_app.
  set (m := (n `mod` length l)%nat).
  assert (Hl : foldl (fun acc a => (acc + f a)%Z) 0%Z l
               = foldl (fun acc a => (acc + f a)%Z) 0%Z (take m l ++ drop m l))
    by (by rewrite take_drop).
  rewrite Hl, foldl_add_app. lia.
Qed.

Lemma foldl_add_ext {A B : Type} (f : A -> Z) (h : B -> Z) (k : B -> A)
    (l : list B) :
  (forall b, f (k b) = h b) ->
  foldl (fun acc a => (acc + f a)%Z) 0%Z (map k l)
  = foldl (fun acc b => (acc + h b)%Z) 0%Z l.
Proof.
  intros Hext. generalize 0%Z. induction l as [| b l IH]; intros z; simpl; [done |].
  by rewrite IH, Hext.
Qed.

Lemma gridPopulation_translateGrid (dy dx : Z) (g : ClassicalGridState) :
  gridPopulation (translateGrid dy dx g) = gridPopulation g.
Proof.
  unfold gridPopulation, translateGrid, rotateZ at 1.
  rewrite (foldl_add_rotate (fun row => foldl (fun sum cell => sum + cell)%Z 0%Z row)).
  apply foldl_add_ext. intros row. unfold rotateZ.
  apply (foldl_add_rotate (fun cell => cell)).
Qed.

Lemma placePattern_glider :
  placePattern (PATTERNS GLIDER)
  = Some (<[14%nat := <[15%nat := 1%Z]> (replicate 32 0%Z)]>
            (<[15%nat := <[16%nat := 1%Z]> (replicate 32 0%Z)]>
               (<[16%nat := <[14%nat := 1%Z]> (<[15%nat := 1%Z]>
                    (<[16%nat := 1%Z]> (replicate 32 0%Z)))]>
                  (createGrid 0)))).
Proof. vm_compute. reflexivity. Qed.

(** X10: on the 32 x 32 torus the glider of the catalogue, wherever it is
    translated to, moves by (1, 1) in four classical steps, and it has five
    live cells at each of these steps. *)
Theorem glider_travels (dy dx : Z) :
  exists glider,
    placePattern (PATTERNS GLIDER) = Some glider /\
    golSteps 4 (translateGrid dy dx glider)
    = Some (translateGrid (dy + 1) (dx + 1) glider) /\
    Forall (fun k => gridPopulation <$> golSteps k (translateGrid dy dx glider)
                     = Some 5%Z)
           (seq 0 5).
Proof.
  eexists. split; [apply placePattern_glider |].
  set (glider := <[14%nat := _]> _).
  assert (Hg : isGrid 32 32 glider).
  { split; [vm_compute; reflexivity |]. vm_compute. repeat constructor. }
  assert (Hsteps : forall k,
            golSteps k (translateGrid dy dx glider)
            = translateGrid dy dx <$> golSteps k glider).
  { intros k. apply (golSteps_translateGrid 32 32); [done | lia | lia]. }
  split.
  - rewrite Hsteps.
    assert (H4 : golSteps 4 glider = Some (translateGrid 1 1 glider))
      by (vm_compute; reflexivity).
    rewrite H4. simpl. f_equal.
    apply (translateGrid_compose 32 32); [done | lia | lia].
  - assert (Hpop : forall k gk, golSteps k glider = Some gk ->
              gridPopulation gk = 5%Z ->
              gridPopulation <$> golSteps k (translateGrid dy dx glider)
              = Some 5%Z).
    { intros k gk Hk Hp. rewrite Hsteps, Hk. simpl.
      by rewrite gridPopulation_translateGrid, Hp. }
    repeat constructor.
    + eapply (Hpop 0%nat); [reflexivity | vm_compute; reflexivity].
    + eapply (Hpop 1%nat); [vm_compute; reflexivity | vm_compute; reflexivity].
    + eapply (Hpop 2%nat); [vm_compute; reflexivity | vm_compute; reflexivity].
    + eapply (Hpop 3%nat); [vm_compute; reflexivity | vm_compute; reflexivity].
    + eapply (Hpop 4%nat); [vm_compute; reflexivity | vm_compute; reflexivity].
Qed.

(** ** The reversible registers *)

Lemma xorInto_cells (H W : nat) (target update : ClassicalGridState) :
  isGrid H W target -> isGrid H W update ->
  exists out,
    xorInto target update = Some out /\ isGrid H W out /\
    forall y x, (y < H)%nat -> (x < W)%nat ->
      cellOf out y x
      = Some (jsXor (cellValue target y x) (Some (cellValue update y x))).
Proof.
  intros Ht Hu. pose proof Ht as [Htl _]. pose proof Hu as [Hul _].
  set (h := fun y x => jsXor (cellValue target y x) (Some (cellValue update y x))).
  exists (map (fun y => map (fun x => h y x) (seq 0 W)) (seq 0 H)).
  split; [| split; [apply isGrid_tabulate
                   | intros y x Hy Hx; by rewrite (cellOf_tabulate H W h)]].
  unfold xorInto. apply imapM_Some. split; [by rewrite length_map, length_seq |].
  intros y row Hrow.
  assert (Hy : (y < H)%nat) by (rewrite <- Htl; eapply lookup_lt_Some; eauto).
  rewrite list_lookup_fmap, lookup_seq_lt by done. simpl.
  destruct (lookup_lt_is_Some_2 update y) as [urow Hurow]; [lia |].
  rewrite Hurow. apply imapM_Some.
  pose proof (isGrid_row H W target y row Ht Hrow) as Hrl.
  pose proof (isGrid_row H W update y urow Hu Hurow) as Hurl.
  split; [by rewrite length_map, length_seq |]. intros x v Hv. simpl.
  assert (Hx : (x < W)%nat) by (rewrite <- Hrl; eapply lookup_lt_Some; eauto).
  rewrite list_lookup_fmap, lookup_seq_lt by done. simpl. f_equal.
  destruct (lookup_lt_is_Some_2 urow x) as [u Hu']; [lia |].
  unfold h, cellValue, cellOf. rewrite Hrow, Hurow. simpl. by rewrite Hv, Hu'.
Qed.

Lemma isBinary_cellValue (H W : nat) (g : ClassicalGridState) (y x : nat) :
  isGrid H W g -> isBinary g -> (y < H)%nat -> (x < W)%nat ->
  cellValue g y x = 0%Z \/ cellValue g y x = 1%Z.
Proof.
  intros Hg Hb Hy Hx. unfold isBinary in Hb. rewrite Forall_grid_cellOf in Hb.
  apply (Hb y x). by apply (cellValue_cellOf H W).
Qed.

Lemma jsXor_twice (v u : Z) :
  (v = 0 \/ v = 1)%Z -> (u = 0 \/ u = 1)%Z ->
  jsXor (jsXor v (Some u)) (Some u) = v.
Proof. by intros [-> | ->] [-> | ->]. Qed.

Lemma jsXor_self (u : Z) : (u = 0 \/ u = 1)%Z -> jsXor u (Some u) = 0%Z.
Proof. by intros [-> | ->]. Qed.

Lemma grid_eq_values (H W : nat) (g1 g2 : ClassicalGridState) :
  isGrid H W g1 -> isGrid H W g2 ->
  (forall y x, (y < H)%nat -> (x < W)%nat -> cellValue g1 y x = cellValue g2 y x) ->
  g1 = g2.
Proof.
  intros H1 H2 Hv. apply (grid_eq H W); [done | done |]. intros y x Hy Hx.
  rewrite (cellValue_cellOf H W g1), (cellValue_cellOf H W g2) by done.
  f_equal. by apply Hv.
Qed.

Lemma xorInto_twice (H W : nat) (target update out : ClassicalGridState) :
  isGrid H W target -> isGrid H W update ->
  isBinary target -> isBinary update ->
  xorInto target update = Some out -> xorInto out update = Some target.
Proof.
  intros Ht Hu Hbt Hbu Hout.
  destruct (xorInto_cells H W target update Ht Hu) as (out' & Hout' & Hshape & Hcells).
  assert (out' = out) as -> by congruence.
  destruct (xorInto_cells H W out update Hshape Hu) as (back & -> & Hbshape & Hbcells).
  f_equal. apply (grid_eq H W); [done | done |]. intros y x Hy Hx.
  rewrite Hbcells by done. unfold cellValue at 1. rewrite Hcells by done. simpl.
  rewrite (cellValue_cellOf H W target) by done. f_equal.
  apply jsXor_twice; by apply (isBinary_cellValue H W).
Qed.

(** X11: computing into the target twice in a row (the system untouched)
    restores the target: the XOR update is its own inverse on registers of 0/1
    cells of the same size. *)
Theorem computeIntoTarget_involutive (H W : nat) (r : Registers) :
  (1 <= H)%nat -> isGrid H W (systemGrid r) -> isGrid H W (targetGrid r) ->
  isBinary (targetGrid r) ->
  exists r1, computeIntoTarget r = Some r1 /\ computeIntoTarget r1 = Some r.
Proof.
  intros HH Hs Ht Hb. unfold computeIntoTarget.
  rewrite (performGOLStep_golStep H W) by done. cbn [mbind option_bind].
  destruct (xorInto_cells H W (targetGrid r) (golStep H W (systemGrid r)) Ht
              (golStep_isGrid H W _)) as (out & Hout & Hshape & _).
  rewrite Hout. cbn [mbind option_bind]. eexists. split; [reflexivity |].
  cbn [systemGrid targetGrid].
  rewrite (performGOLStep_golStep H W) by done. cbn [mbind option_bind].
  rewrite (xorInto_twice H W (targetGrid r) _ out);
    [| done | apply golStep_isGrid | done | apply golStep_isBinary | done].
  cbn [mbind option_bind]. by destruct r.
Qed.

Lemma computeIntoTarget_involutive_witness :
  exists r1,
    computeIntoTarget {| systemGrid := [[0; 1; 0]; [0; 1; 0]; [0; 1; 0]]%Z;
                         targetGrid := [[1; 0; 0]; [0; 1; 0]; [0; 0; 0]]%Z |}
    = Some r1 /\
    computeIntoTarget r1
    = Some {| systemGrid := [[0; 1; 0]; [0; 1; 0]; [0; 1; 0]]%Z;
              targetGrid := [[1; 0; 0]; [0; 1; 0]; [0; 0; 0]]%Z |}.
Proof.
  apply (computeIntoTarget_involutive 3 3
           {| systemGrid := [[0; 1; 0]; [0; 1; 0]; [0; 1; 0]]%Z;
              targetGrid := [[1; 0; 0]; [0; 1; 0]; [0; 0; 0]]%Z |}).
  - lia.
  - split; [reflexivity | repeat constructor].
  - split; [reflexivity | repeat constructor].
  - unfold isBinary.
    repeat match goal with
           | |- Forall _ _ => constructor
           | |- _ \/ _ => (left; reflexivity) || (right; reflexivity)
           end.
Defined.

(** X12: when the target is clean, [advanceCycle] is [computeIntoTarget]
    followed by [swapRegisters]. *)
Theorem advanceCycle_is_compute_then_swap (r : Registers) :
  isTargetClean r = true ->
  advanceCycle r
  = (fun r1 => (true, swapRegisters r1)) <$> computeIntoTarget r.
Proof.
  intros Hclean. unfold advanceCycle, computeIntoTarget.
  destruct (performGOLStep (systemGrid r)) as [preview |]; [| done].
  cbn [mbind option_bind]. rewrite Hclean. cbn [negb].
  destruct (xorInto (targetGrid r) preview) as [newTarget |]; done.
Qed.

Lemma advanceCycle_is_compute_then_swap_witness :
  advanceCycle {| systemGrid := [[0; 1; 0]; [0; 1; 0]; [0; 1; 0]]%Z;
                  targetGrid := [[0; 0; 0]; [0; 0; 0]; [0; 0; 0]]%Z |}
  = (fun r1 => (true, swapRegisters r1))
      <$> computeIntoTarget
            {| systemGrid := [[0; 1; 0]; [0; 1; 0]; [0; 1; 0]]%Z;
               targetGrid := [[0; 0; 0]; [0; 0; 0]; [0; 0; 0]]%Z |}.
Proof. apply advanceCycle_is_compute_then_swap. reflexivity. Defined.

Lemma allZero_cellValue (H W : nat) (g : ClassicalGridState) (y x : nat) :
  isGrid H W g -> allZero g -> (y < H)%nat -> (x < W)%nat ->
  cellValue g y x = 0%Z.
Proof.
  intros Hg Hz Hy Hx. unfold allZero in Hz. rewrite Forall_grid_cellOf in Hz.
  apply (Hz y x). by apply (cellValue_cellOf H W).
Qed.

(** X13: a successful advance can be undone: swapping the registers back and
    computing into the target again gives the registers from before the
    advance, with the target clean. *)
Theorem advanceCycle_reversible (H W : nat) (r : Registers) :
  (1 <= H)%nat -> isGrid H W (systemGrid r) -> isGrid H W (targetGrid r) ->
  allZero (targetGrid r) ->
  exists r1,
    advanceCycle r = Some (true, r1) /\
    computeIntoTarget (swapRegisters r1) = Some r.
Proof.
  intros HH Hs Ht Hz.
  rewrite (advanceCycle_clean H W) by done. eexists. split; [reflexivity |].
  unfold computeIntoTarget, swapRegisters. cbn [systemGrid targetGrid].
  rewrite !cloneGrid_id.
  rewrite (performGOLStep_golStep H W) by done. cbn [mbind option_bind].
  destruct (xorInto_cells H W (golStep H W (systemGrid r))
              (golStep H W (systemGrid r)) (golStep_isGrid H W _)
              (golStep_isGrid H W _)) as (out & -> & Hshape & Hcells).
  cbn [mbind option_bind]. destruct r as [sys tgt]. cbn [systemGrid targetGrid] in *.
  do 2 f_equal. apply (grid_eq H W); [done | done |]. intros y x Hy Hx.
  rewrite Hcells by done. rewrite (cellValue_cellOf H W tgt) by done.
  rewrite (allZero_cellValue H W tgt) by done. f_equal.
  apply jsXor_self.
  apply (isBinary_cellValue H W); [apply golStep_isGrid | apply golStep_isBinary | done..].
Qed.

Lemma advanceCycle_reversible_witness :
  exists r1,
    advanceCycle {| systemGrid := [[0; 1; 0]; [0; 1; 0]; [0; 1; 0]]%Z;
                    targetGrid := [[0; 0; 0]; [0; 0; 0]; [0; 0; 0]]%Z |}
    = Some (true, r1) /\
    computeIntoTarget (swapRegisters r1)
    = Some {| systemGrid := [[0; 1; 0]; [0; 1; 0]; [0; 1; 0]]%Z;
              targetGrid := [[0; 0; 0]; [0; 0; 0]; [0; 0; 0]]%Z |}.
Proof.
  apply (advanceCycle_reversible 3 3
           {| systemGrid := [[0; 1; 0]; [0; 1; 0]; [0; 1; 0]]%Z;
              targetGrid := [[0; 0; 0]; [0; 0; 0]; [0; 0; 0]]%Z |}).
  - lia.
  - split; [reflexivity | repeat constructor].
  - split; [reflexivity | repeat constructor].
  - repeat constructor.
Defined.

(** X14: toggling a cell of the system flips exactly that cell (v becomes
    1 - v), leaves every other cell and the target as they are, and toggling
    the same cell again restores the registers. *)
Theorem toggleSystemCell_spec (x y : nat) (r : Registers) :
  toggleSystemCell x y (toggleSystemCell x y r) = r /\
  targetGrid (toggleSystemCell x y r) = targetGrid r /\
  forall y' x',
    cellOf (systemGrid (toggleSystemCell x y r)) y' x'
    = (fun v => if bool_decide (y' = y /\ x' = x) then (1 - v)%Z else v)
        <$> cellOf (systemGrid r) y' x'.
Proof.
  assert (Hcell : forall r0 y' x',
    cellOf (systemGrid (toggleSystemCell x y r0)) y' x'
    = (fun v => if bool_decide (y' = y /\ x' = x) then (1 - v)%Z else v)
        <$> cellOf (systemGrid r0) y' x').
  { intros r0 y' x'. unfold toggleSystemCell, cellOf. cbn [systemGrid].
    rewrite list_lookup_imap.
    destruct (systemGrid r0 !! y') as [row |]; [| done]. simpl.
    rewrite list_lookup_imap. destruct (row !! x') as [v |]; [| done]. simpl.
    f_equal. destruct (Nat.eqb_spec y' y), (Nat.eqb_spec x' x); simpl;
      case_bool_decide; try done; tauto. }
  split; [| split; [done | apply Hcell]].
  destruct r as [sys tgt]. unfold toggleSystemCell at 1. cbn [systemGrid targetGrid].
  f_equal. unfold toggleSystemCell. cbn [systemGrid].
  apply list_eq. intros y'. rewrite !list_lookup_imap.
  destruct (sys !! y') as [row |]; [| done]. simpl. f_equal.
  apply list_eq. intros x'. rewrite !list_lookup_imap.
  destruct (row !! x') as [v |]; [| done]. simpl. f_equal.
  destruct (_ && _); lia.
Qed.

Lemma flatSum_rows (g : ClassicalGridState) (z : Z) :
  foldl (fun a b => (a + b)%Z) z (concat g)
  = foldl (fun acc row => (acc + foldl (fun sum cell => sum + cell) 0 row)%Z) z g.
Proof.
  revert z. induction g as [| row g IH]; intros z; [done |].
  simpl. rewrite foldl_app, IH. f_equal.
  apply (foldl_add_shift (fun cell => cell)).
Qed.

Lemma row_sum_bound (row : list Z) :
  Forall (fun cell => cell = 0%Z \/ cell = 1%Z) row ->
  (0 <= foldl (fun sum cell => sum + cell) 0 row <= Z.of_nat (length row))%Z.
Proof.
  induction 1 as [| c row Hc _ IH]; simpl; [lia |].
  rewrite (foldl_add_shift (fun cell => cell)). lia.
Qed.

Lemma gridPopulation_flatSum (g : ClassicalGridState) :
  gridPopulation g = flatSum g.
Proof. unfold gridPopulation, flatSum. by rewrite flatSum_rows. Qed.

Lemma gridPopulation_bound (H W : nat) (g : ClassicalGridState) :
  isGrid H W g -> isBinary g ->
  (0 <= gridPopulation g <= Z.of_nat (H * W))%Z.
Proof.
  intros [<- Hrows] Hb. unfold gridPopulation.
  induction Hb as [| row g Hrow Hb IH]; simpl; [lia |].
  inversion Hrows as [| ? ? Hlen Hrows']; subst.
  rewrite (foldl_add_shift (fun row => foldl (fun sum cell => sum + cell)%Z 0%Z row)).
  specialize (IH Hrows'). pose proof (row_sum_bound row Hrow). lia.
Qed.

(** X15: on an H x W grid of 0/1 cells, the population of the reversible lab
    (a reduce over the rows) and the population of the search (a reduce over
    the flattened grid) are the same number, between 0 and H * W. *)
Theorem population_counts_agree (H W : nat) (g : ClassicalGridState) :
  isGrid H W g -> isBinary g ->
  gridPopulation g = flatSum g /\
  (0 <= gridPopulation g <= Z.of_nat (H * W))%Z.
Proof.
  intros Hg Hb.
  split; [apply gridPopulation_flatSum | by apply gridPopulation_bound].
Qed.

Lemma population_counts_agree_witness :
  gridPopulation [[0; 1; 1]; [1; 0; 1]]%Z = flatSum [[0; 1; 1]; [1; 0; 1]]%Z /\
  (0 <= gridPopulation [[0; 1; 1]; [1; 0; 1]]%Z <= Z.of_nat (2 * 3))%Z.
Proof.
  apply (population_counts_agree 2 3 [[0; 1; 1]; [1; 0; 1]]%Z).
  - split; [reflexivity | repeat constructor].
  - unfold isBinary.
    repeat match goal with
           | |- Forall _ _ => constructor
           | |- _ \/ _ => (left; reflexivity) || (right; reflexivity)
           end.
Defined.

(** ** Placing a pattern *)

Lemma foldlM_seq_invariant {B : Type} (I : nat -> B -> Prop)
    (f : B -> nat -> option B) (s n : nat) (acc : B) :
  I s acc ->
  (forall k b, (s <= k < s + n)%nat -> I k b ->
               exists b', f b k = Some b' /\ I (S k) b') ->
  exists r, foldlM f acc (seq s n) = Some r /\ I (s + n)%nat r.
Proof.
  revert s acc. induction n as [| n IH]; intros s acc Hacc Hstep; simpl.
  - exists acc. by rewrite Nat.add_0_r.
  - destruct (Hstep s acc) as (b' & -> & Hb'); [lia | done |].
    destruct (IH (S s) b' Hb') as (r & Hr & HI).
    { intros k b Hk. apply Hstep. lia. }
    exists r. split; [done |]. by replace (s + S n)%nat with (S s + n)%nat by lia.
Qed.

Lemma cellValue_insert (g : ClassicalGridState) (row : list Z) (r0 c0 : nat)
    (v : Z) (r c : nat) :
  g !! r0 = Some row -> (c0 < length row)%nat ->
  cellValue (<[r0 := <[c0 := v]> row]> g) r c
  = if bool_decide (r = r0 /\ c = c0) then v else cellValue g r c.
Proof.
  intros Hrow Hc0. unfold cellValue, cellOf.
  destruct (decide (r = r0)) as [-> | Hr].
  - rewrite list_lookup_insert_eq by (eapply lookup_lt_Some; eauto).
    rewrite Hrow. simpl. destruct (decide (c = c0)) as [-> | Hc].
    + rewrite list_lookup_insert_eq by done.
      by rewrite bool_decide_eq_true_2.
    + rewrite list_lookup_insert_ne by done.
      rewrite bool_decide_eq_false_2 by tauto. done.
  - rewrite list_lookup_insert_ne by done.
    rewrite bool_decide_eq_false_2 by tauto. done.
Qed.

Lemma isGrid_insert (H W : nat) (g : ClassicalGridState) (row : list Z)
    (r0 c0 : nat) (v : Z) :
  isGrid H W g -> g !! r0 = Some row ->
  isGrid H W (<[r0 := <[c0 := v]> row]> g).
Proof.
  intros [Hl Hrows] Hrow. split; [by rewrite length_insert |].
  apply Forall_insert; [done |]. rewrite length_insert.
  rewrite Forall_lookup in Hrows. eauto.
Qed.

Lemma setCell_in_grid (g : ClassicalGridState) (r0 c0 : nat) :
  isGrid GRID_SIZE GRID_SIZE g -> (r0 < GRID_SIZE)%nat -> (c0 < GRID_SIZE)%nat ->
  exists g',
    setCell g (Z.of_nat r0) (Z.of_nat c0) = Some g' /\
    isGrid GRID_SIZE GRID_SIZE g' /\
    forall r c, cellValue g' r c
                = if bool_decide (r = r0 /\ c = c0) then 1%Z else cellValue g r c.
Proof.
  intros Hg Hr Hc. pose proof Hg as [Hl _].
  destruct (lookup_lt_is_Some_2 g r0) as [row Hrow]; [lia |].
  pose proof (isGrid_row _ _ g r0 row Hg Hrow) as Hrl.
  unfold setCell, jsIndex.
  destruct (Z.ltb_spec (Z.of_nat r0) 0); [lia |].
  rewrite Nat2Z.id, Hrow. cbn [mbind option_bind].
  destruct (Z.ltb_spec (Z.of_nat c0) 0); [lia |].
  destruct (Z.ltb_spec (Z.of_nat c0) (Z.of_nat (length row))); [| lia].
  rewrite Nat2Z.id. eexists. split; [reflexivity |].
  split; [by apply isGrid_insert |].
  intros r c. apply cellValue_insert; [done | lia].
Qed.

Lemma cellOf_lt {A : Type} (H W : nat) (g : list (list A)) (y x : nat) (a : A) :
  isGrid H W g -> cellOf g y x = Some a -> (y < H)%nat /\ (x < W)%nat.
Proof.
  intros Hg Hc. unfold cellOf in Hc.
  destruct (g !! y) as [row |] eqn:Hrow; [| done]. simpl in Hc.
  pose proof (isGrid_row H W g y row Hg Hrow) as Hrl. destruct Hg as [Hl _].
  apply lookup_lt_Some in Hrow, Hc. lia.
Qed.

Lemma start_offset (h : nat) :
  (h <= GRID_SIZE)%nat ->
  ((Z.of_nat GRID_SIZE - Z.of_nat h) / 2)%Z = Z.of_nat ((GRID_SIZE - h) / 2).
Proof. intros Hh. rewrite Nat2Z.inj_div, Nat2Z.inj_sub by done. done. Qed.

Lemma if_bool_decide_ext {A : Type} (P Q : Prop) `{Decision P, Decision Q}
    (a b : A) :
  (P <-> Q) ->
  (if bool_decide P then a else b) = (if bool_decide Q then a else b).
Proof. intros HPQ. by rewrite (bool_decide_ext P Q HPQ). Qed.

Section PlacePattern.

Variables (h w : nat) (pattern : list (list Z)).
Hypothesis (Hpattern : isGrid h w pattern).
Hypothesis (Hh : (h <= GRID_SIZE)%nat) (Hw : (w <= GRID_SIZE)%nat).

Lemma placedSoFar_start :
  placedSoFar h w pattern 0 0 (createGrid 0).
Proof.
  split.
  - split; [apply length_replicate |]. apply Forall_replicate, length_replicate.
  - intros r c Hr Hc. unfold cellValue, cellOf, createGrid.
    rewrite lookup_replicate_2 by done. cbn [mbind option_bind].
    rewrite lookup_replicate_2 by done. cbn [default].
    rewrite bool_decide_eq_false_2; [done | lia].
Qed.

Lemma placedSoFar_next_row (y : nat) (g : ClassicalGridState) :
  placedSoFar h w pattern y w g -> placedSoFar h w pattern (S y) 0 g.
Proof.
  intros [Hg Hcells]. split; [done |]. intros r c Hr Hc.
  rewrite (Hcells r c Hr Hc). apply if_bool_decide_ext.
  split; intros (Hsy & Hsx & Hdone & Hcell);
    (split; [done |]; split; [done |]; split; [| done]);
    destruct (cellOf_lt h w pattern _ _ _ Hpattern Hcell) as [_ Hpx]; lia.
Qed.

Lemma placedSoFar_step (y x : nat) (g : ClassicalGridState) :
  (y < h)%nat -> (x < w)%nat -> placedSoFar h w pattern y x g ->
  exists g',
    (if bool_decide (pattern !! y ≫= (.!! x) = Some 1%Z)
     then setCell g (((Z.of_nat GRID_SIZE - Z.of_nat h) / 2)%Z + Z.of_nat y)
                    (((Z.of_nat GRID_SIZE - Z.of_nat w) / 2)%Z + Z.of_nat x)
     else Some g) = Some g' /\
    placedSoFar h w pattern y (S x) g'.
Proof.
  intros Hy Hx [Hg Hcells].
  set (sy := ((GRID_SIZE - h) / 2)%nat) in *.
  set (sx := ((GRID_SIZE - w) / 2)%nat) in *.
  assert (Hsy : (sy + y < GRID_SIZE)%nat).
  { unfold sy, GRID_SIZE in *.
    pose proof (Nat.div_mod_eq (32 - h) 2). pose proof (Nat.mod_upper_bound (32 - h) 2). lia. }
  assert (Hsx : (sx + x < GRID_SIZE)%nat).
  { unfold sx, GRID_SIZE in *.
    pose proof (Nat.div_mod_eq (32 - w) 2). pose proof (Nat.mod_upper_bound (32 - w) 2). lia. }
  rewrite !start_offset by done. fold sy sx. rewrite <- !Nat2Z.inj_add.
  case_bool_decide as Hone.
  - destruct (setCell_in_grid g (sy + y) (sx + x) Hg Hsy Hsx)
      as (g' & -> & Hg' & Hcells').
    exists g'. split; [done |]. split; [done |]. intros r c Hr Hc.
    rewrite Hcells', (Hcells r c Hr Hc).
    case_bool_decide as Hhere.
    + destruct Hhere as [-> ->]. rewrite bool_decide_eq_true_2; [done |].
      fold sy sx.
      replace (sy + y - sy)%nat with y by lia.
      replace (sx + x - sx)%nat with x by lia.
      split; [lia |]. split; [lia |]. split; [lia | exact Hone].
    + apply if_bool_decide_ext.
      split; intros (H1 & H2 & Hdone & Hcell);
        (split; [done |]; split; [done |]; split; [| done]); [lia |].
      destruct Hdone as [Hlt | [Heq Hle]]; [by left |].
      right. split; [done |].
      assert ((c - sx)%nat <> x); [| lia].
      intros Hcx. apply Hhere. lia.
  - exists g. split; [done |]. split; [done |]. intros r c Hr Hc.
    rewrite (Hcells r c Hr Hc). apply if_bool_decide_ext.
    split; intros (H1 & H2 & Hdone & Hcell);
      (split; [done |]; split; [done |]; split; [| done]); [lia |].
    destruct Hdone as [Hlt | [Heq Hle]]; [by left |].
    right. split; [done |].
    assert ((c - sx)%nat <> x); [| lia].
    intros Hcx. apply Hone. fold sy sx in Hcell, Heq.
    unfold cellOf in Hcell. by rewrite Heq, Hcx in Hcell.
Qed.

End PlacePattern.

Lemma placePattern_centred (h w : nat) (pattern : list (list Z)) :
  isGrid h w pattern -> (h <= GRID_SIZE)%nat -> (w <= GRID_SIZE)%nat ->
  exists g,
    placePattern pattern = Some g /\ isGrid GRID_SIZE GRID_SIZE g /\
    forall r c, (r < GRID_SIZE)%nat -> (c < GRID_SIZE)%nat ->
      cellOf g r c = Some (centredCell h w pattern r c).
Proof.
  intros Hpattern Hh Hw.
  assert (Hfinal : forall y g, (h <= y)%nat -> placedSoFar h w pattern y 0 g ->
            isGrid GRID_SIZE GRID_SIZE g /\
            forall r c, (r < GRID_SIZE)%nat -> (c < GRID_SIZE)%nat ->
              cellOf g r c = Some (centredCell h w pattern r c)).
  { intros y g Hhy [Hg Hcells]. split; [done |]. intros r c Hr Hc.
    rewrite (cellValue_cellOf _ _ g Hg r c Hr Hc), (Hcells r c Hr Hc).
    f_equal. unfold centredCell. cbv zeta. apply if_bool_decide_ext.
    split; [tauto |]. intros (H1 & H2 & Hcell).
    split; [done |]. split; [done |]. split; [| done].
    destruct (cellOf_lt h w pattern _ _ _ Hpattern Hcell). lia. }
  assert (Hstart : placedSoFar h w pattern 0 0 (createGrid 0))
    by (by apply placedSoFar_start).
  unfold placePattern. destruct pattern as [| row0 rest] eqn:Ep.
  - exists (createGrid 0). split; [done |].
    apply (Hfinal 0%nat); [| done].
    destruct Hpattern as [Hl _]. simpl in Hl. lia.
  - rewrite <- Ep in *.
    assert (Hlen : length pattern = h) by apply Hpattern.
    assert (Hw0 : length row0 = w).
    { apply (isGrid_row h w pattern 0%nat); [done | by subst pattern]. }
    rewrite Hlen, Hw0.
    destruct (foldlM_seq_invariant (fun y g => placedSoFar h w pattern y 0 g)
                (fun base y =>
                   foldlM (fun base x =>
                             if bool_decide (pattern !! y ≫= (.!! x) = Some 1%Z)
                             then setCell base
                                    ((Z.of_nat GRID_SIZE - Z.of_nat h) / 2
                                     + Z.of_nat y)%Z
                                    ((Z.of_nat GRID_SIZE - Z.of_nat w) / 2
                                     + Z.of_nat x)%Z
                             else Some base)
                          base (seq 0 w))
                0 h (createGrid 0) Hstart) as (g & Hg & HI).
    { intros y b Hy Hb.
      destruct (foldlM_seq_invariant (fun x g => placedSoFar h w pattern y x g)
                  (fun base x =>
                     if bool_decide (pattern !! y ≫= (.!! x) = Some 1%Z)
                     then setCell base
                            ((Z.of_nat GRID_SIZE - Z.of_nat h) / 2 + Z.of_nat y)%Z
                            ((Z.of_nat GRID_SIZE - Z.of_nat w) / 2 + Z.of_nat x)%Z
                     else Some base)
                  0 w b Hb) as (b' & Hb' & HJ).
      - intros x b0 Hx Hb0. apply placedSoFar_step; [done | done | lia | lia | done].
      - exists b'. split; [done |]. by apply (placedSoFar_next_row h w pattern). }
    exists g. split; [exact Hg |]. by apply (Hfinal h).
Qed.


Lemma centredCell_binary (h w : nat) (pattern : list (list Z)) (r c : nat) :
  centredCell h w pattern r c = 0%Z \/ centredCell h w pattern r c = 1%Z.
Proof. unfold centredCell. cbv zeta. case_bool_decide; auto. Qed.

Lemma isBinary_cells (H W : nat) (g : ClassicalGridState) :
  isGrid H W g ->
  (forall y x, (y < H)%nat -> (x < W)%nat ->
     cellValue g y x = 0%Z \/ cellValue g y x = 1%Z) ->
  isBinary g.
Proof.
  intros Hg Hcells. unfold isBinary. apply Forall_grid_cellOf.
  intros y x v Hv. destruct (cellOf_lt H W g y x v Hg Hv) as [Hy Hx].
  specialize (Hcells y x Hy Hx). unfold cellValue in Hcells.
  by rewrite Hv in Hcells.
Qed.

(** X16: a pattern of at most 32 x 32 cells is placed centred on an otherwise
    zero 32 x 32 grid: the cell (r, c) of the result is 1 exactly when the
    pattern has a 1 at (r - (32 - h) / 2, c - (32 - w) / 2), and 0 otherwise
    (cells of the pattern other than 1 count as 0); the empty pattern gives
    the zero grid. *)
Theorem placePattern_centres (h w : nat) (pattern : list (list Z)) :
  isGrid h w pattern -> (h <= GRID_SIZE)%nat -> (w <= GRID_SIZE)%nat ->
  exists g,
    placePattern pattern = Some g /\
    isGrid GRID_SIZE GRID_SIZE g /\ isBinary g /\
    forall r c, (r < GRID_SIZE)%nat -> (c < GRID_SIZE)%nat ->
      cellOf g r c = Some (centredCell h w pattern r c).
Proof.
  intros Hp Hh Hw.
  destruct (placePattern_centred h w pattern Hp Hh Hw) as (g & Hg & Hshape & Hcells).
  exists g. split; [done |]. split; [done |]. split; [| done].
  apply (isBinary_cells GRID_SIZE GRID_SIZE); [done |]. intros y x Hy Hx.
  unfold cellValue. rewrite (Hcells y x Hy Hx). apply centredCell_binary.
Qed.

Lemma placePattern_centres_witness :
  exists g,
    placePattern (PATTERNS LWSS) = Some g /\
    isGrid GRID_SIZE GRID_SIZE g /\ isBinary g /\
    forall r c, (r < GRID_SIZE)%nat -> (c < GRID_SIZE)%nat ->
      cellOf g r c = Some (centredCell 4 5 (PATTERNS LWSS) r c).
Proof.
  apply (placePattern_centres 4 5 (PATTERNS LWSS)).
  - split; [reflexivity | repeat constructor].
  - unfold GRID_SIZE. lia.
  - unfold GRID_SIZE. lia.
Defined.

(** ** Loading a pattern *)

Lemma mapRand_total {A B : Type} (Q : A -> B -> Prop) (f : A -> Rand B)
    (l : list A) :
  (forall a n, exists b n', f a n = Some (b, n') /\ Q a b) ->
  forall n, exists bs n', mapRand f l n = Some (bs, n') /\ Forall2 Q l bs.
Proof.
  intros Hf. induction l as [| a l IH]; intros n; simpl.
  - exists [], n. split; [done | constructor].
  - unfold bind. destruct (Hf a n) as (b & n1 & -> & Hb).
    destruct (IH n1) as (bs & n2 & -> & Hbs).
    exists (b :: bs), n2. unfold ret. split; [done |]. by constructor.
Qed.

Lemma randomSystem_total (random : nat -> R) (n : nat) :
  exists g n',
    randomSystem random n = Some (g, n') /\
    isGrid GRID_SIZE GRID_SIZE g /\ isBinary g.
Proof.
  unfold randomSystem.
  destruct (mapRand_total
              (fun (row cells : list Z) =>
                 length cells = length row /\
                 Forall (fun cell => cell = 0%Z \/ cell = 1%Z) cells)
              (fun row : list Z =>
                 mapRand (fun _ : Z =>
                            bind (mathRandom random)
                              (fun r => ret (if Rgt_dec r (7 / 10)
                                             then 1%Z else 0%Z)))
                         row)
              (createGrid 0)) with (n := n) as (g & n' & Hg & Hrows).
  - intros row m.
    destruct (mapRand_total (fun (_ cell : Z) => cell = 0%Z \/ cell = 1%Z)
                (fun _ : Z =>
                   bind (mathRandom random)
                     (fun r => ret (if Rgt_dec r (7 / 10) then 1%Z else 0%Z)))
                row) with (n := m) as (cells & m' & Hc & Hcb).
    + intros _ k. unfold bind, mathRandom, ret.
      eexists _, _. split; [reflexivity |]. destruct (Rgt_dec _ _); auto.
    + exists cells, m'. split; [done |].
      split; [symmetry; by eapply Forall2_length |].
      clear Hc. induction Hcb; constructor; auto.
  - exists g, n'. split; [exact Hg |].
    assert (Hall : Forall (fun cells : list Z =>
                     length cells = GRID_SIZE /\
                     Forall (fun cell => cell = 0%Z \/ cell = 1%Z) cells) g).
    { apply Forall_lookup. intros i cells Hi.
      destruct (Forall2_lookup_r _ _ _ _ _ Hrows Hi) as (row & Hrow & Hl & Hb).
      unfold createGrid in Hrow. apply lookup_replicate in Hrow as [-> _].
      rewrite length_replicate in Hl. done. }
    split.
    + split.
      * apply Forall2_length in Hrows. rewrite <- Hrows. apply length_replicate.
      * eapply Forall_impl; [exact Hall |]. by intros row [? _].
    + unfold isBinary. eapply Forall_impl; [exact Hall |]. by intros row [_ ?].
Qed.

Lemma createGrid_zero :
  isGrid GRID_SIZE GRID_SIZE (createGrid 0) /\ allZero (createGrid 0).
Proof.
  split.
  - split; [apply length_replicate |]. apply Forall_replicate, length_replicate.
  - apply Forall_replicate, Forall_replicate. done.
Qed.

(** X17: whatever pattern is loaded (a catalogue pattern, random noise or the
    clear grid) and whatever the random numbers, [setPattern] leaves a 32 x 32
    system of 0/1 cells and a clean target, so that the next [advanceCycle]
    succeeds. *)
Theorem setPattern_ready (random : nat -> R) (pattern : Pattern)
    (r : Registers) (n : nat) :
  exists r' n',
    setPattern random pattern r n = Some (r', n') /\
    isGrid GRID_SIZE GRID_SIZE (systemGrid r') /\ isBinary (systemGrid r') /\
    targetGrid r' = createGrid 0 /\
    exists next,
      advanceCycle r'
      = Some (true, {| systemGrid := next; targetGrid := systemGrid r' |}).
Proof.
  assert (Hsys : exists g n',
            match pattern with
            | RANDOM => randomSystem random
            | CLEAR => ret (createGrid 0)
            | _ => liftOption (placePattern (PATTERNS pattern))
            end n = Some (g, n') /\
            isGrid GRID_SIZE GRID_SIZE g /\ isBinary g).
  { assert (Hplace : forall h w p,
              isGrid h w (PATTERNS p) -> (h <= GRID_SIZE)%nat ->
              (w <= GRID_SIZE)%nat ->
              exists g n', liftOption (placePattern (PATTERNS p)) n = Some (g, n') /\
                           isGrid GRID_SIZE GRID_SIZE g /\ isBinary g).
    { intros h w p Hp Hh Hw.
      destruct (placePattern_centred h w _ Hp Hh Hw) as (g & Hg & Hshape & Hcells).
      exists g, n. unfold liftOption. rewrite Hg. split; [done |]. split; [done |].
      apply (isBinary_cells GRID_SIZE GRID_SIZE); [done |]. intros y x Hy Hx.
      unfold cellValue. rewrite (Hcells y x Hy Hx). apply centredCell_binary. }
    destruct pattern.
    - apply randomSystem_total.
    - apply (Hplace 3%nat 3%nat GLIDER);
        [split; [reflexivity | repeat constructor] | unfold GRID_SIZE; lia..].
    - apply (Hplace 4%nat 5%nat LWSS);
        [split; [reflexivity | repeat constructor] | unfold GRID_SIZE; lia..].
    - apply (Hplace 1%nat 3%nat BLINKER);
        [split; [reflexivity | repeat constructor] | unfold GRID_SIZE; lia..].
    - exists (createGrid 0), n. split; [done |].
      destruct createGrid_zero as [Hg Hz]. split; [done |].
      unfold isBinary. eapply Forall_impl; [exact Hz |].
      intros row Hrow. eapply Forall_impl; [exact Hrow |]. intros c ->. by left. }
  destruct Hsys as (g & n' & Hsys & Hshape & Hbin).
  exists {| systemGrid := g; targetGrid := createGrid 0 |}, n'.
  split; [unfold setPattern, bind; by rewrite Hsys |].
  split; [done |]. split; [done |]. split; [done |].
  destruct createGrid_zero as [Hg Hz].
  exists (golStep GRID_SIZE GRID_SIZE g).
  apply (advanceCycle_clean GRID_SIZE GRID_SIZE); [unfold GRID_SIZE; lia | done..].
Qed.

(** ** Counting changed cells *)

Lemma differencesSoFar_next_row (n : nat) (a b : ClassicalGridState) (y : nat)
    (delta : Z) :
  differencesSoFar n a b y n delta -> differencesSoFar n a b (S y) 0 delta.
Proof.
  intros [Hrange Hiff]. split; [lia |]. rewrite Hiff.
  split; intros Hall r c Hrc; apply Hall; lia.
Qed.

Lemma differencesSoFar_step (n : nat) (a b : ClassicalGridState) (y x : nat)
    (delta : Z) :
  isGrid n n a -> isGrid n n b -> (y < n)%nat -> (x < n)%nat ->
  differencesSoFar n a b y x delta ->
  exists delta',
    (rowA ← a !! y; rowB ← b !! y;
     Some (if bool_decide (rowA !! x = rowB !! x)
           then delta else (delta + 1)%Z)) = Some delta' /\
    differencesSoFar n a b y (S x) delta'.
Proof.
  intros Ha Hb Hy Hx [Hrange Hiff].
  destruct (lookup_lt_is_Some_2 a y) as [rowA HrowA]; [destruct Ha; lia |].
  destruct (lookup_lt_is_Some_2 b y) as [rowB HrowB]; [destruct Hb; lia |].
  rewrite HrowA, HrowB. cbn [mbind option_bind]. eexists. split; [reflexivity |].
  assert (Hcell : rowA !! x = rowB !! x <-> cellOf a y x = cellOf b y x).
  { unfold cellOf. by rewrite HrowA, HrowB. }
  case_bool_decide as Heq.
  - split; [lia |]. rewrite Hiff. split; intros Hall r c Hrc.
    + destruct (decide (r = y /\ c = x)) as [[-> ->] | Hne]; [by apply Hcell |].
      apply Hall. lia.
    + apply Hall. lia.
  - split; [lia |]. split; [lia |]. intros Hall. exfalso. apply Heq, Hcell.
    apply Hall. lia.
Qed.

Lemma countDifferences_spec (n : nat) (a b : ClassicalGridState) :
  isGrid n n a -> isGrid n n b ->
  exists delta,
    countDifferences n a b = Some delta /\
    (0 <= delta <= Z.of_nat (n * n))%Z /\ (delta = 0%Z <-> a = b).
Proof.
  intros Ha Hb. unfold countDifferences.
  destruct (foldlM_seq_invariant (fun y d => differencesSoFar n a b y 0 d)
              (fun delta y =>
                 foldlM (fun delta x =>
                           rowA ← a !! y; rowB ← b !! y;
                           Some (if bool_decide (rowA !! x = rowB !! x)
                                 then delta else (delta + 1)%Z))
                        delta (seq 0 n))
              0 n 0%Z) as (delta & Hdelta & [Hrange Hiff]).
  - split; [lia |]. split; [intros _ r c Hrc; lia | done].
  - intros y d Hy Hd.
    destruct (foldlM_seq_invariant (fun x d => differencesSoFar n a b y x d)
                (fun delta x =>
                   rowA ← a !! y; rowB ← b !! y;
                   Some (if bool_decide (rowA !! x = rowB !! x)
                         then delta else (delta + 1)%Z))
                0 n d Hd) as (d' & Hd' & HJ).
    + intros x d0 Hx Hd0. apply differencesSoFar_step; [done | done | lia | lia | done].
    + exists d'. split; [done |]. by apply differencesSoFar_next_row.
  - exists delta. split; [exact Hdelta |]. simpl in Hrange, Hiff.
    split; [lia |]. rewrite Hiff. split.
    + intros Hall. apply (grid_eq n n); [done | done |].
      intros y x Hy Hx. apply Hall. lia.
    + by intros ->.
Qed.

(** X18: on a 32 x 32 system grid, [changedCells] is a number between 0 and
    1024, and it is 0 exactly when the system is a still life (the classical
    step returns the system itself). *)
Theorem changedCells_zero_iff_still (r : Registers) :
  isGrid GRID_SIZE GRID_SIZE (systemGrid r) ->
  exists delta,
    changedCells r = Some delta /\
    (0 <= delta <= 1024)%Z /\
    (delta = 0%Z <-> performGOLStep (systemGrid r) = Some (systemGrid r)).
Proof.
  intros Hs.
  change (changedCells r)
    with (performGOLStep (systemGrid r)
          ≫= fun preview => countDifferences GRID_SIZE preview (systemGrid r)).
  rewrite (performGOLStep_golStep GRID_SIZE GRID_SIZE) by (done || unfold GRID_SIZE; lia).
  cbn [mbind option_bind].
  destruct (countDifferences_spec GRID_SIZE _ (systemGrid r)
              (golStep_isGrid GRID_SIZE GRID_SIZE (systemGrid r)) Hs)
    as (delta & -> & Hrange & Hiff).
  exists delta. split; [done |]. split; [exact Hrange |].
  rewrite Hiff. split; [by intros -> | by intros [= ->]].
Qed.

Lemma changedCells_zero_iff_still_witness :
  exists delta,
    changedCells {| systemGrid := createGrid 0; targetGrid := [] |} = Some delta /\
    (0 <= delta <= 1024)%Z /\
    (delta = 0%Z <-> performGOLStep (createGrid 0) = Some (createGrid 0)).
Proof.
  apply (changedCells_zero_iff_still
           {| systemGrid := createGrid 0; targetGrid := [] |}).
  apply createGrid_zero.
Defined.

(** ** The genetic search: sorting, elitism and the best individual *)

Lemma bind_Some {A B : Type} (m : Rand A) (k : A -> Rand B) (n n' : nat) (b : B) :
  bind m k n = Some (b, n') ->
  exists a n1, m n = Some (a, n1) /\ k a n1 = Some (b, n').
Proof.
  unfold bind. destruct (m n) as [[a n1] |]; [| done]. intros Hk. by exists a, n1.
Qed.

Lemma insertScored_Permutation (a : Scored) (l : list Scored) :
  insertScored a l ≡ₚ a :: l.
Proof.
  induction l as [| b l IH]; simpl; [done |].
  destruct (Rlt_dec _ _); [| done]. rewrite IH. apply Permutation_swap.
Qed.

Lemma sortScores_Permutation (l : list Scored) : sortScores l ≡ₚ l.
Proof.
  unfold sortScores. induction l as [| a l IH]; simpl; [done |].
  by rewrite insertScored_Permutation, IH.
Qed.

Lemma descending_cons (a : Scored) (l : list Scored) :
  descending (a :: l) <->
  (forall b, b ∈ l -> fitness b <= fitness a) /\ descending l.
Proof.
  unfold descending. split.
  - intros Hd. split.
    + intros b Hb. apply list_elem_of_lookup_1 in Hb as [j Hj].
      apply (Hd 0%nat (S j) a b); [lia | done | done].
    + intros i j x y Hij Hi Hj. apply (Hd (S i) (S j)); [lia | done | done].
  - intros [Hhead Htail] i j x y Hij Hi Hj.
    destruct j as [| j]; [lia |]. simpl in Hj. destruct i as [| i].
    + simpl in Hi. injection Hi as <-. apply Hhead.
      eapply list_elem_of_lookup_2; eauto.
    + simpl in Hi. apply (Htail i j); [lia | done | done].
Qed.

Lemma insertScored_descending (a : Scored) (l : list Scored) :
  descending l -> descending (insertScored a l).
Proof.
  induction l as [| b l IH]; intros Hd; simpl.
  - apply descending_cons. split; [by intros b Hb; apply elem_of_nil in Hb |].
    intros i j x y _ Hi. done.
  - apply descending_cons in Hd as [Hhead Htail].
    destruct (Rlt_dec (fitness a) (fitness b)) as [Hlt | Hge].
    + apply descending_cons. split; [| by apply IH].
      intros x Hx. apply insertScored_elem in Hx as [-> | Hx]; [lra | by apply Hhead].
    + apply descending_cons. split.
      * intros x Hx. apply elem_of_cons in Hx as [-> | Hx]; [lra |].
        specialize (Hhead x Hx). lra.
      * apply descending_cons. by split.
Qed.

Lemma sortScores_descending (l : list Scored) : descending (sortScores l).
Proof.
  unfold sortScores. induction l as [| a l IH]; simpl.
  - intros i j a b _ Hi. done.
  - by apply insertScored_descending.
Qed.

(** X19: sorting the scores of a generation keeps exactly the same scores and
    puts them in decreasing order of fitness. *)
Theorem sortScores_sorted (l : list Scored) :
  sortScores l ≡ₚ l /\ descending (sortScores l).
Proof.
  split; [apply sortScores_Permutation | apply sortScores_descending].
Qed.

Lemma scores_params (trajectory : list TrajectoryStep)
    (population : list SimulationParameters) (scores : list Scored) (x : Scored) :
  mapM (scoreOf trajectory) population = Some scores ->
  x ∈ scores -> params x ∈ population.
Proof.
  intros Hm Hx. apply mapM_Some_1 in Hm.
  apply list_elem_of_lookup in Hx as [i Hi].
  destruct (Forall2_lookup_r _ _ _ _ _ Hm Hi) as (p & Hp & Hf).
  apply scoreOf_Some in Hf as [-> _].
  eapply list_elem_of_lookup_2; eauto.
Qed.

Lemma scores_cover (trajectory : list TrajectoryStep)
    (population : list SimulationParameters) (scores : list Scored)
    (p : SimulationParameters) (f : R) :
  mapM (scoreOf trajectory) population = Some scores ->
  p ∈ population -> calculateFitness trajectory p = Some (Num f) ->
  {| params := p; fitness := f |} ∈ scores.
Proof.
  intros Hm Hp Hf. apply mapM_Some_1 in Hm.
  apply list_elem_of_lookup in Hp as [i Hi].
  destruct (Forall2_lookup_l _ _ _ _ _ Hm Hi) as (x & Hx & Hfx).
  rewrite (scoreOf_Num _ _ _ Hf) in Hfx. injection Hfx as <-.
  eapply list_elem_of_lookup_2; eauto.
Qed.

Lemma sorted_head_max (scores : list Scored) (best x : Scored) :
  sortScores scores !! 0%nat = Some best -> x ∈ scores ->
  fitness x <= fitness best.
Proof.
  intros Hbest Hx. apply sortScores_elem in Hx.
  apply list_elem_of_lookup_1 in Hx as [j Hj].
  destruct j as [| j]; [simplify_eq; lra |].
  pose proof (sortScores_descending scores) as Hd.
  apply (Hd 0%nat (S j) best x); [lia | done | done].
Qed.

Section Generation.

Variable random : nat -> R.

Lemma mutate_gamma (p c : SimulationParameters) (n n' : nat) :
  mutate random p n = Some (c, n') -> gamma c = 1.
Proof.
  unfold mutate. intros Hm.
  apply bind_Some in Hm as (ws & n1 & _ & Hm).
  apply bind_Some in Hm as (wn & n2 & _ & Hm).
  unfold ret in Hm. by injection Hm as <- _.
Qed.

Lemma fillPopulation_grows (k : nat) (scores : list Scored)
    (pop0 pop : list SimulationParameters) (n n' : nat) :
  fillPopulation random k scores pop0 n = Some (pop, n') ->
  exists children,
    pop = pop0 ++ children /\ length children = k /\
    Forall (fun p => gamma p = 1) children.
Proof.
  revert pop0 n. induction k as [| k IH]; intros pop0 n; simpl.
  - unfold ret. intros [= <- _]. exists []. by rewrite app_nil_r.
  - intros Hf.
    apply bind_Some in Hf as (p1 & n1 & _ & Hf).
    apply bind_Some in Hf as (p2 & n2 & _ & Hf).
    apply bind_Some in Hf as (r & n3 & _ & Hf).
    apply bind_Some in Hf as (child & n4 & _ & Hf).
    apply bind_Some in Hf as (child' & n5 & Hmut & Hf).
    apply IH in Hf as (children & -> & Hlen & Hall).
    exists (child' :: children). rewrite <- app_assoc. split; [done |].
    split; [simpl; lia |]. constructor; [| done]. by eapply mutate_gamma.
Qed.

(** What one completed generation does to the population. *)
Lemma runGeneration_population (s s' : SearchState) (n n' : nat) :
  runGeneration random s n = Some (s', n') ->
  groundTruthTrajectoryRef s' = groundTruthTrajectoryRef s /\
  exists best : Scored,
    (let improved :=
       Rgt_dec (fitness best)
               (match bestParams s with
                | Some _ => bestFitness (searchProgress s)
                | None => -1
                end + 1 / 10 ^ 9) in
     bestFitness (searchProgress s')
     = (if improved then fitness best else bestFitness (searchProgress s)) /\
     bestParams s'
     = (if improved then Some (params best) else bestParams s)) /\
    params best ∈ populationRef s /\
    calculateFitness (groundTruthTrajectoryRef s) (params best)
      = Some (Num (fitness best)) /\
    (forall p f, p ∈ populationRef s ->
       calculateFitness (groundTruthTrajectoryRef s) p = Some (Num f) ->
       f <= fitness best) /\
    ((fitness best > 149 / 100 /\ isSearching s' = false /\
      populationRef s' = populationRef s)
     \/
     (~ fitness best > 149 / 100 /\ isSearching s' = isSearching s /\
      exists second children,
        params second ∈ populationRef s /\
        populationRef s' = params best :: params second :: children /\
        length children = (POPULATION_SIZE - ELITISM_COUNT)%nat /\
        Forall (fun p => gamma p = 1) children)).
Proof.
  unfold runGeneration. intros Hrun.
  apply bind_Some in Hrun as (scores & n1 & Hscores & Hrun).
  unfold liftOption in Hscores.
  destruct (mapM _ (populationRef s)) as [scores' |] eqn:Hm; [| done].
  injection Hscores as -> ->.
  apply bind_Some in Hrun as (best & n2 & Hbest & Hrun).
  unfold liftOption in Hbest.
  destruct (sortScores scores !! 0%nat) as [best' |] eqn:Hb; [| done].
  injection Hbest as -> ->.
  assert (Hin : best ∈ scores).
  { apply sortScores_elem. eapply list_elem_of_lookup_2; eauto. }
  assert (Hmax : forall p f, p ∈ populationRef s ->
            calculateFitness (groundTruthTrajectoryRef s) p = Some (Num f) ->
            f <= fitness best).
  { intros p f Hp Hf.
    apply (sorted_head_max scores best {| params := p; fitness := f |} Hb).
    eapply scores_cover; eauto. }
  destruct (Rgt_dec (fitness best) (149 / 100)) as [Hconv | Hnot].
  - unfold ret in Hrun. injection Hrun as <- _. split; [done |].
    exists best. split; [cbn; by destruct (Rgt_dec _ _) |].
    split; [eapply scores_params; eauto |].
    split; [eapply scores_elem; eauto |]. split; [done |]. left. by repeat split.
  - apply bind_Some in Hrun as (elite & n3 & Helite & Hrun).
    apply bind_Some in Hrun as (newPopulation & n4 & Hfill & Hrun).
    unfold ret in Hrun. injection Hrun as <- _. split; [done |].
    exists best. split; [cbn; by destruct (Rgt_dec _ _) |].
    split; [eapply scores_params; eauto |].
    split; [eapply scores_elem; eauto |]. split; [done |]. right.
    split; [done |]. split; [done |].
    unfold liftOption in Helite. simpl in Helite. rewrite Hb in Helite.
    simpl in Helite.
    destruct (sortScores scores !! 1%nat) as [second |] eqn:Hsecond; [| done].
    simpl in Helite. injection Helite as <- <-.
    apply fillPopulation_grows in Hfill as (children & -> & Hlen & Hall).
    exists second, children. split; [| by repeat split].
    eapply scores_params; [exact Hm |].
    apply sortScores_elem. eapply list_elem_of_lookup_2; eauto.
Qed.

End Generation.

Lemma createRandomParams_gamma (random : nat -> R) (p : SimulationParameters)
    (n n' : nat) :
  createRandomParams random n = Some (p, n') -> gamma p = 1.
Proof.
  unfold createRandomParams. intros Hc.
  do 6 (apply bind_Some in Hc as (? & ? & _ & Hc)).
  unfold ret in Hc. by injection Hc as <- _.
Qed.

Lemma randomPopulation_spec (random : nat -> R) (k n n' : nat)
    (pop : list SimulationParameters) :
  randomPopulation random k n = Some (pop, n') ->
  length pop = k /\ Forall (fun p => gamma p = 1) pop.
Proof.
  revert n n' pop. induction k as [| k IH]; intros n n' pop; simpl.
  - unfold ret. by intros [= <- _].
  - intros Hr.
    apply bind_Some in Hr as (p & n1 & Hp & Hr).
    apply bind_Some in Hr as (ps & n2 & Hps & Hr).
    unfold ret in Hr. injection Hr as <- _.
    destruct (IH _ _ _ Hps) as [Hlen Hall]. split; [simpl; lia |].
    constructor; [by eapply createRandomParams_gamma | done].
Qed.

(** The first generation of a search on the constant stream of zeros. *)
Lemma search_first_generation :
  exists s n s' n',
    initializeSearch (fun _ => 0) initialSearchState 0%nat = Some (s, n) /\
    runGeneration (fun _ => 0) s n = Some (s', n').
Proof.
  destruct (initializeSearch_total (fun _ => 0) initialSearchState 0)
    as (s & n & Hinit & Hwf & Hlen).
  assert (Hrange : forall k : nat, 0 <= (fun _ : nat => 0) k < 1)
    by (intros k; lra).
  assert (Hpop : (ELITISM_COUNT <= length (populationRef s))%nat)
    by (rewrite Hlen; unfold ELITISM_COUNT, POPULATION_SIZE; lia).
  destruct (runGeneration_total (fun _ => 0) Hrange s Hwf Hpop n)
    as [[s' n'] Hrun].
  exists s, n, s', n'. split; [exact Hinit | exact Hrun].
Qed.



(** X21: after a completed generation the reported best fitness is, up to
    the update threshold 1e-9, at least the fitness of every individual that
    the generation evaluated. *)
Theorem bestFitness_covers_generation (random : nat -> R) (s s' : SearchState)
    (n n' : nat) (p : SimulationParameters) (f : R) :
  runGeneration random s n = Some (s', n') ->
  p ∈ populationRef s ->
  calculateFitness (groundTruthTrajectoryRef s) p = Some (Num f) ->
  f <= bestFitness (searchProgress s') + 1 / 10 ^ 9.
Proof.
  intros Hrun Hp Hf.
  destruct (runGeneration_population random s s' n n' Hrun)
    as (_ & best & [Hbf _] & _ & Hfit & Hmax & _).
  specialize (Hmax p f Hp Hf). apply calculateFitness_nonneg in Hfit.
  assert (Heps : 0 < 1 / 10 ^ 9)
    by (apply Rdiv_lt_0_compat; [lra | apply pow_lt; lra]).
  rewrite Hbf. destruct (Rgt_dec _ _) as [Himp | Hnot]; [lra |].
  destruct (bestParams s); lra.
Qed.

Lemma bestFitness_covers_generation_witness :
  exists (s s' : SearchState),
    forall p f, p ∈ populationRef s ->
      calculateFitness (groundTruthTrajectoryRef s) p = Some (Num f) ->
      f <= bestFitness (searchProgress s') + 1 / 10 ^ 9.
Proof.
  destruct search_first_generation as (s & n & s' & n' & _ & Hrun).
  exists s, s'. intros p f.
  exact (bestFitness_covers_generation (fun _ => 0) s s' n n' p f Hrun).
Defined.

Lemma initializeSearch_population (random : nat -> R) (s0 s : SearchState)
    (n n' : nat) :
  initializeSearch random s0 n = Some (s, n') ->
  populationInvariant s /\ bestInvariant s.
Proof.
  unfold initializeSearch. intros Hinit.
  apply bind_Some in Hinit as (trajectory & n1 & _ & Hinit).
  apply bind_Some in Hinit as (pop & n2 & Hpop & Hinit).
  unfold ret in Hinit. injection Hinit as <- _.
  split; [by eapply randomPopulation_spec | by split].
Qed.

Lemma runGeneration_keeps_invariants (random : nat -> R) (s s' : SearchState)
    (n n' : nat) :
  runGeneration random s n = Some (s', n') ->
  populationInvariant s /\ bestInvariant s ->
  populationInvariant s' /\ bestInvariant s'.
Proof.
  intros Hrun [[Hlen Hgamma] Hbest].
  destruct (runGeneration_population random s s' n n' Hrun)
    as (Hgt & best & [Hbf Hbp] & Hin & Hfit & Hmax & Hcases).
  split.
  - unfold populationInvariant.
    destruct Hcases as [(_ & _ & ->) | (_ & _ & second & children & Hsec & -> & Hcl & Hcg)];
      [by split |].
    rewrite Forall_forall in Hgamma. split.
    + simpl. rewrite Hcl. done.
    + constructor; [by apply Hgamma |]. constructor; [by apply Hgamma | done].
  - unfold bestInvariant in *. rewrite Hbp, Hbf, Hgt.
    destruct (Rgt_dec _ _) as [Himp | Hnot]; [done |].
    destruct (bestParams s) as [bp |]; [done |].
    apply calculateFitness_nonneg in Hfit.
    assert (0 < 1 / 10 ^ 9)
      by (apply Rdiv_lt_0_compat; [lra | apply pow_lt; lra]).
    exfalso. apply Hnot. lra.
Qed.

Lemma reachable_invariants (random : nat -> R) (s : SearchState) :
  reachable random s -> populationInvariant s /\ bestInvariant s.
Proof.
  induction 1 as [s0 n s n' Hinit | s n s' n' _ IH Hrun].
  - by eapply initializeSearch_population.
  - by eapply runGeneration_keeps_invariants.
Qed.

(** X22: throughout a search the population holds exactly 50 individuals and
    each of them has gamma = 1. *)
Theorem population_invariant (random : nat -> R) (s : SearchState) :
  reachable random s ->
  length (populationRef s) = POPULATION_SIZE /\
  Forall (fun p => gamma p = 1) (populationRef s).
Proof. intros Hreach. by apply (reachable_invariants random). Qed.

Lemma population_invariant_witness :
  exists s : SearchState,
    length (populationRef s) = POPULATION_SIZE /\
    Forall (fun p => gamma p = 1) (populationRef s).
Proof.
  destruct search_first_generation as (s & n & s' & n' & Hinit & Hrun).
  exists s'.
  apply (population_invariant (fun _ => 0) s').
  exact (reachable_step (fun _ => 0) s n s' n'
           (reachable_init (fun _ => 0) initialSearchState 0%nat s n Hinit) Hrun).
Defined.

(** X23: throughout a search the reported best fitness is the fitness, on the
    ground truth of the search, of the reported best parameters; no best
    parameters are reported only before the first generation, when the
    counter and the best fitness are both 0. *)
Theorem bestParams_consistent (random : nat -> R) (s : SearchState) :
  reachable random s ->
  match bestParams s with
  | Some p => calculateFitness (groundTruthTrajectoryRef s) p
              = Some (Num (bestFitness (searchProgress s)))
  | None => generationRef s = 0%Z /\ bestFitness (searchProgress s) = 0
  end.
Proof. intros Hreach. by apply (reachable_invariants random). Qed.

Lemma bestParams_consistent_witness :
  exists s : SearchState,
    match bestParams s with
    | Some p => calculateFitness (groundTruthTrajectoryRef s) p
                = Some (Num (bestFitness (searchProgress s)))
    | None => generationRef s = 0%Z /\ bestFitness (searchProgress s) = 0
    end.
Proof.
  destruct search_first_generation as (s & n & s' & n' & Hinit & Hrun).
  exists s'.
  apply (bestParams_consistent (fun _ => 0) s').
  exact (reachable_step (fun _ => 0) s n s' n'
           (reachable_init (fun _ => 0) initialSearchState 0%nat s n Hinit) Hrun).
Defined.

(** ** The genetic operators *)

Section Operators.

Variable random : nat -> R.
Hypothesis random_range : forall k, 0 <= random k < 1.

Lemma mutatePart_bound (v v' : R) (n n' : nat) :
  mutatePart random v n = Some (v', n') -> Rabs (v' - v) <= MUTATION_AMOUNT.
Proof.
  unfold mutatePart, MUTATION_AMOUNT. intros Hm.
  apply bind_Some in Hm as (r & n1 & _ & Hm).
  destruct (Rlt_dec r MUTATION_RATE).
  - apply bind_Some in Hm as (d & n2 & Hd & Hm).
    unfold mathRandom in Hd. injection Hd as <- _.
    unfold ret in Hm. injection Hm as <- _.
    pose proof (random_range n1). apply Rabs_le. lra.
  - unfold ret in Hm. injection Hm as <- _.
    replace (v - v) with 0 by ring. rewrite Rabs_R0. lra.
Qed.

Lemma mutateComplex_bound (c c' : Complex) (n n' : nat) :
  mutateComplex random c n = Some (c', n') ->
  Rabs (re c' - re c) <= MUTATION_AMOUNT /\
  Rabs (im c' - im c) <= MUTATION_AMOUNT.
Proof.
  unfold mutateComplex. intros Hm.
  apply bind_Some in Hm as (a & n1 & Ha & Hm).
  apply bind_Some in Hm as (b & n2 & Hb & Hm).
  unfold ret in Hm. injection Hm as <- _. simpl.
  split; by eapply mutatePart_bound.
Qed.

Lemma mutateCoefficients_bound (k k' : PauliCoefficients) (n n' : nat) :
  mutateCoefficients random k n = Some (k', n') ->
  Forall2 (fun a b => Rabs (b - a) <= MUTATION_AMOUNT)
          ([cI k; cX k; cY k; cZ k] ≫= fun c => [re c; im c])
          ([cI k'; cX k'; cY k'; cZ k'] ≫= fun c => [re c; im c]).
Proof.
  unfold mutateCoefficients. intros Hm.
  apply bind_Some in Hm as (i & n1 & Hi & Hm).
  apply bind_Some in Hm as (x & n2 & Hx & Hm).
  apply bind_Some in Hm as (y & n3 & Hy & Hm).
  apply bind_Some in Hm as (z & n4 & Hz & Hm).
  unfold ret in Hm. injection Hm as <- _. simpl.
  apply mutateComplex_bound in Hi as [? ?], Hx as [? ?], Hy as [? ?], Hz as [? ?].
  repeat (constructor 2; [assumption |]). constructor 1.
Qed.

(** X24: with random numbers in [0, 1), mutation moves, in exact real
    arithmetic, each of the sixteen real and imaginary parts of the
    coefficients by at most 0.1, and sets gamma to 1. *)
Theorem mutate_bounded (p c : SimulationParameters) (n n' : nat) :
  mutate random p n = Some (c, n') ->
  gamma c = 1 /\
  Forall2 (fun a b => Rabs (b - a) <= MUTATION_AMOUNT) (partsOf p) (partsOf c).
Proof.
  intros Hm. split; [by eapply mutate_gamma |].
  unfold mutate in Hm.
  apply bind_Some in Hm as (ws & n1 & Hws & Hm).
  apply bind_Some in Hm as (wn & n2 & Hwn & Hm).
  unfold ret in Hm. injection Hm as <- _.
  apply mutateCoefficients_bound in Hws, Hwn.
  unfold partsOf, coefficientsOf. cbn [w_self w_neighbor].
  change (Forall2 (fun a b => Rabs (b - a) <= MUTATION_AMOUNT)
            (([cI (w_self p); cX (w_self p); cY (w_self p); cZ (w_self p)]
                ≫= fun c => [re c; im c])
             ++ ([cI (w_neighbor p); cX (w_neighbor p); cY (w_neighbor p);
                  cZ (w_neighbor p)] ≫= fun c => [re c; im c]))
            (([cI ws; cX ws; cY ws; cZ ws] ≫= fun c => [re c; im c])
             ++ ([cI wn; cX wn; cY wn; cZ wn] ≫= fun c => [re c; im c]))).
  by apply Forall2_app.
Qed.

End Operators.

Lemma mutate_bounded_witness :
  exists c n',
    mutate (fun _ => 0) DEFAULT_PARAMETERS 0%nat = Some (c, n') /\
    gamma c = 1 /\
    Forall2 (fun a b => Rabs (b - a) <= MUTATION_AMOUNT)
            (partsOf DEFAULT_PARAMETERS) (partsOf c).
Proof.
  destruct (total_mutate (fun _ => 0) DEFAULT_PARAMETERS 0%nat) as [[c n'] Hm].
  exists c, n'. split; [exact Hm |].
  apply (mutate_bounded (fun _ => 0)) with (n := 0%nat) (n' := n');
    [intros k; lra | exact Hm].
Defined.

Lemma pick_either {A : Type} (random : nat -> R) (a b c : A) (n n' : nat) :
  pick random a b n = Some (c, n') -> c = a \/ c = b.
Proof.
  unfold pick. intros Hp. apply bind_Some in Hp as (r & n1 & _ & Hp).
  unfold ret in Hp. injection Hp as <- _. destruct (Rlt_dec _ _); auto.
Qed.

Lemma crossoverCoefficients_either (random : nat -> R)
    (k1 k2 k : PauliCoefficients) (n n' : nat) :
  crossoverCoefficients random k1 k2 n = Some (k, n') ->
  Forall2 (fun c ab => c = ab.1 \/ c = ab.2)
          [cI k; cX k; cY k; cZ k]
          (zip [cI k1; cX k1; cY k1; cZ k1] [cI k2; cX k2; cY k2; cZ k2]).
Proof.
  unfold crossoverCoefficients. intros Hc.
  apply bind_Some in Hc as (i & n1 & Hi & Hc).
  apply bind_Some in Hc as (x & n2 & Hx & Hc).
  apply bind_Some in Hc as (y & n3 & Hy & Hc).
  apply bind_Some in Hc as (z & n4 & Hz & Hc).
  unfold ret in Hc. injection Hc as <- _. simpl.
  apply pick_either in Hi, Hx, Hy, Hz.
  repeat (constructor 2; [assumption |]). constructor 1.
Qed.

(** X25: whatever the random numbers, each of the eight coefficients of a
    crossover child is, whole, the coefficient of one of the two parents at
    the same place, and the gamma of the child is 1. *)
Theorem crossover_inherits (random : nat -> R)
    (parent1 parent2 child : SimulationParameters) (n n' : nat) :
  crossover random parent1 parent2 n = Some (child, n') ->
  gamma child = 1 /\
  Forall2 (fun c ab => c = ab.1 \/ c = ab.2)
          (coefficientsOf child)
          (zip (coefficientsOf parent1) (coefficientsOf parent2)).
Proof.
  unfold crossover. intros Hc.
  apply bind_Some in Hc as (ws & n1 & Hws & Hc).
  apply bind_Some in Hc as (wn & n2 & Hwn & Hc).
  unfold ret in Hc. injection Hc as <- _. split; [done |].
  apply crossoverCoefficients_either in Hws, Hwn.
  unfold coefficientsOf. cbn [w_self w_neighbor].
  change (Forall2 (fun c ab => c = ab.1 \/ c = ab.2)
            ([cI ws; cX ws; cY ws; cZ ws] ++ [cI wn; cX wn; cY wn; cZ wn])
            (zip [cI (w_self parent1); cX (w_self parent1); cY (w_self parent1);
                  cZ (w_self parent1)]
                 [cI (w_self parent2); cX (w_self parent2); cY (w_self parent2);
                  cZ (w_self parent2)]
             ++ zip [cI (w_neighbor parent1); cX (w_neighbor parent1);
                     cY (w_neighbor parent1); cZ (w_neighbor parent1)]
                    [cI (w_neighbor parent2); cX (w_neighbor parent2);
                     cY (w_neighbor parent2); cZ (w_neighbor parent2)])).
  by apply Forall2_app.
Qed.

Lemma crossover_inherits_witness :
  exists child n',
    crossover (fun _ => 0) DEFAULT_PARAMETERS DEFAULT_PARAMETERS 0%nat
    = Some (child, n') /\
    gamma child = 1 /\
    Forall2 (fun c ab => c = ab.1 \/ c = ab.2)
            (coefficientsOf child)
            (zip (coefficientsOf DEFAULT_PARAMETERS)
                 (coefficientsOf DEFAULT_PARAMETERS)).
Proof.
  destruct (total_crossover (fun _ => 0) DEFAULT_PARAMETERS DEFAULT_PARAMETERS
              0%nat) as [[child n'] Hc].
  exists child, n'. split; [exact Hc |].
  exact (crossover_inherits (fun _ => 0) _ _ child 0%nat n' Hc).
Defined.

(** ** Ground truths that are too short *)

Lemma foldlM_fails {A B : Type} (f : B -> A -> option B) (l : list A) (a : A)
    (acc : B) :
  a ∈ l -> (forall b, f b a = None) -> foldlM f acc l = None.
Proof.
  intros Ha Hf. revert acc. induction l as [| a' l IH]; intros acc.
  - by apply elem_of_nil in Ha.
  - simpl. apply elem_of_cons in Ha as [<- | Ha].
    + by rewrite Hf.
    + destruct (f acc a'); [by apply IH | done].
Qed.

(** X26: on a ground truth that is not empty but has fewer than the 16
    snapshots of a full trajectory, [calculateFitness] throws: only the empty
    ground truth is answered with 0. *)
Theorem calculateFitness_short_trajectory (trajectory : list TrajectoryStep)
    (params : SimulationParameters) :
  trajectory <> [] -> (length trajectory <= FITNESS_SIM_STEPS)%nat ->
  calculateFitness trajectory params = None.
Proof.
  intros Hne Hshort. unfold calculateFitness.
  destruct trajectory as [| first rest] eqn:Et; [done |]. rewrite <- Et in *.
  rewrite (foldlM_fails _ _ (length trajectory - 1)%nat); [done | |].
  - apply list_elem_of_lookup. exists (length trajectory - 1)%nat.
    apply lookup_seq. split; [done |]. subst trajectory. simpl in *. lia.
  - intros st. unfold fitnessStep.
    destruct (performQuantumStep _ _); [| done]. cbn [mbind option_bind].
    rewrite lookup_ge_None_2; [done |]. subst trajectory. simpl. lia.
Qed.

Lemma calculateFitness_short_trajectory_witness :
  calculateFitness (take 3 barrenTrajectory) DEFAULT_PARAMETERS = None.
Proof.
  apply calculateFitness_short_trajectory.
  - discriminate.
  - vm_compute. lia.
Defined.

(** ** The ground truth *)

Lemma seedGrid_isBinary : isBinary seedGrid.
Proof.
  unfold isBinary, seedGrid. apply Forall_fmap, Forall_forall. intros y _.
  unfold compose. apply Forall_fmap, Forall_forall. intros x _.
  unfold compose. destruct (Rgt_dec _ _); auto.
Qed.

Lemma groundTruthStep_invariant (first : ClassicalGridState) st (i : nat) :
  groundTruthInvariant first st ->
  exists st', groundTruthStep st i = Some st' /\ groundTruthInvariant first st'.
Proof.
  destruct st as [prevGrid trajectory].
  intros ((l & Hlast & Hl) & Hfirst & Hsnap & Hchain). simpl in *.
  apply last_Some in Hlast as [init ->].
  assert (Hlen : forall k, (init ++ [l]) !! k = Some l \/ (k < length init)%nat
                           \/ (init ++ [l]) !! k = None).
  { intros k. destruct (decide (k < length init)%nat); [auto |].
    destruct (decide (k = length init)) as [-> |].
    - left. by rewrite list_lookup_middle.
    - right. right. apply lookup_ge_None_2. rewrite length_app. simpl. lia. }
  destruct (Hsnap (length init) l) as (Hg & Hb & _);
    [by rewrite list_lookup_middle |].
  rewrite Hl in Hg, Hb.
  unfold groundTruthStep.
  destruct (lookup_lt_is_Some_2 prevGrid 0) as [row0 Hrow0];
    [destruct Hg as [-> _]; unfold FITNESS_GRID_SIZE; lia |].
  rewrite (performGOLStep_golStep FITNESS_GRID_SIZE FITNESS_GRID_SIZE)
    by (done || (unfold FITNESS_GRID_SIZE; lia)).
  cbn [mbind option_bind].
  set (g := golStep FITNESS_GRID_SIZE FITNESS_GRID_SIZE prevGrid).
  pose proof (golStep_isGrid FITNESS_GRID_SIZE FITNESS_GRID_SIZE prevGrid) as Hn.
  fold g in Hn.
  assert (Hnb : isBinary g).
  { eapply (proj2 (performGOLStep_rows_and_cells prevGrid) row0 g Hrow0).
    apply (performGOLStep_golStep FITNESS_GRID_SIZE FITNESS_GRID_SIZE);
      [done | unfold FITNESS_GRID_SIZE; lia]. }
  change (countFlips g prevGrid)
    with (countDifferences FITNESS_GRID_SIZE g prevGrid).
  destruct (countDifferences_spec FITNESS_GRID_SIZE g prevGrid Hn Hg)
    as (flips & -> & Hrange & Hzero).
  cbn [mbind option_bind]. eexists. split; [reflexivity |].
  set (new := {| grid := g; population := flatSum g;
                 flipsSincePrevStep := flips |}).
  split; [| split; [| split]]; simpl.
  - exists new. split; [by rewrite last_snoc | done].
  - destruct Hfirst as (s & Hs & Hgs & Hfs). exists s. split; [| done].
    by apply lookup_app_l_Some.
  - intros k s Hk.
    destruct (decide (k < length (init ++ [l]))%nat) as [Hlt | Hge].
    + rewrite lookup_app_l in Hk by done. by apply (Hsnap k).
    + rewrite lookup_app_r in Hk by lia.
      destruct (k - length (init ++ [l]))%nat; [| done].
      injection Hk as <-. simpl.
      split; [done |]. split; [done |].
      rewrite <- gridPopulation_flatSum. split; [done |].
      apply (gridPopulation_bound FITNESS_GRID_SIZE FITNESS_GRID_SIZE g Hn Hnb).
  - intros k s s' Hk Hk'.
    destruct (decide (S k < length (init ++ [l]))%nat) as [Hlt | Hge].
    + rewrite lookup_app_l in Hk by lia. rewrite lookup_app_l in Hk' by done.
      by apply (Hchain k).
    + rewrite lookup_app_r in Hk' by lia.
      destruct (S k - length (init ++ [l]))%nat eqn:Ek; [| done].
      injection Hk' as <-. simpl.
      assert (k = length init) as -> by (rewrite length_app in *; simpl in *; lia).
      rewrite <- app_assoc in Hk. cbn [app] in Hk.
      rewrite list_lookup_middle in Hk by done.
      injection Hk as <-. rewrite Hl.
      split; [by apply (performGOLStep_golStep FITNESS_GRID_SIZE FITNESS_GRID_SIZE);
                [| unfold FITNESS_GRID_SIZE; lia] |].
      split; [exact Hrange | exact Hzero].
Qed.

Lemma groundTruthInvariant_start :
  groundTruthInvariant seedGrid
    (seedGrid, [{| grid := seedGrid; population := flatSum seedGrid;
                   flipsSincePrevStep := 0 |}]).
Proof.
  split; [| split; [| split]]; cbn [fst snd].
  - eexists. split; reflexivity.
  - eexists. split; [reflexivity |]. split; reflexivity.
  - intros [| i] s Hs; [| discriminate Hs]. injection Hs as <-.
    cbn [grid population].
    split; [apply seedGrid_isGrid |]. split; [apply seedGrid_isBinary |].
    rewrite <- gridPopulation_flatSum. split; [reflexivity |].
    apply (gridPopulation_bound FITNESS_GRID_SIZE FITNESS_GRID_SIZE);
      [apply seedGrid_isGrid | apply seedGrid_isBinary].
  - intros [| i] s s' _ Hs'; discriminate Hs'.
Qed.

Lemma precomputeGroundTruth_invariant :
  exists g trajectory,
    precomputeGroundTruth = Some trajectory /\
    groundTruthInvariant seedGrid (g, trajectory).
Proof.
  unfold precomputeGroundTruth. cbv zeta.
  destruct (foldlM_invariant (groundTruthInvariant seedGrid) groundTruthStep
              (seq 0 FITNESS_SIM_STEPS)
              (seedGrid, [{| grid := seedGrid; population := flatSum seedGrid;
                             flipsSincePrevStep := 0 |}]))
    as ([g trajectory] & Hloop & Hinv).
  - apply groundTruthInvariant_start.
  - intros acc i _ Hacc. apply groundTruthStep_invariant. exact Hacc.
  - rewrite Hloop. exists g, trajectory. split; [reflexivity | exact Hinv].
Qed.

(** X27: [precomputeGroundTruth] never throws and records a genuine Game of
    Life run: 16 snapshots that start from the seeded grid with 0 flips, each
    a 32 x 32 grid of 0/1 cells with its population (at most 1024), each
    snapshot the classical step of the one before, and the flips of a
    snapshot a number between 0 and 1024 that is 0 exactly when the step
    changed no cell. *)
Theorem precomputeGroundTruth_is_life_run :
  exists trajectory,
    precomputeGroundTruth = Some trajectory /\
    length trajectory = 16%nat /\
    (exists s, trajectory !! 0%nat = Some s /\ grid s = seedGrid /\
               flipsSincePrevStep s = 0%Z) /\
    (forall i s, trajectory !! i = Some s ->
       isGrid FITNESS_GRID_SIZE FITNESS_GRID_SIZE (grid s) /\
       isBinary (grid s) /\
       population s = gridPopulation (grid s) /\
       (0 <= population s <= 1024)%Z) /\
    (forall i s s', trajectory !! i = Some s -> trajectory !! S i = Some s' ->
       performGOLStep (grid s) = Some (grid s') /\
       (0 <= flipsSincePrevStep s' <= 1024)%Z /\
       (flipsSincePrevStep s' = 0%Z <-> grid s' = grid s)).
Proof.
  destruct precomputeGroundTruth_invariant
    as (g & trajectory & Hrun & _ & Hfirst & Hsnap & Hchain).
  destruct precomputeGroundTruth_wf as (trajectory' & Hrun' & Hlen & _).
  rewrite Hrun in Hrun'. injection Hrun' as <-.
  exists trajectory. split; [exact Hrun |]. split; [exact Hlen |].
  split; [exact Hfirst |]. split; [exact Hsnap | exact Hchain].
Qed.

(** ** Ground truths of narrow grids *)

Lemma lift2_NaN_r {A B C : Type} (f : A -> B -> C) (a : JsNumber A) :
  lift2 f a NaN = NaN.
Proof. by destruct a. Qed.

Lemma compareGrids_narrow (W : nat) cand gt prev m :
  (W < FITNESS_GRID_SIZE)%nat ->
  isGrid FITNESS_GRID_SIZE W cand ->
  isGrid FITNESS_GRID_SIZE W gt ->
  isGrid FITNESS_GRID_SIZE W prev ->
  exists totals,
    compareGrids cand gt prev m = Some totals /\ mismatchError totals = NaN.
Proof.
  intros HW Hc Hg Hp. unfold compareGrids.
  destruct (foldlM_seq_invariant
              (fun y t => (1 <= y)%nat -> mismatchError t = NaN)
              (fun acc y =>
                 foldlM (fun acc x => compareCell cand gt prev y x acc)
                        acc (seq 0 FITNESS_GRID_SIZE))
              0 FITNESS_GRID_SIZE
              {| mismatchError := m; candidatePopulation := Num 0%Z;
                 candidateFlips := 0 |})
    as (totals & Hrun & Hnan).
  - lia.
  - intros y acc Hy _.
    destruct (lookup_lt_is_Some_2 cand y) as [crow Hcrow]; [destruct Hc; lia |].
    destruct (lookup_lt_is_Some_2 gt y) as [grow Hgrow]; [destruct Hg; lia |].
    destruct (lookup_lt_is_Some_2 prev y) as [prow Hprow]; [destruct Hp; lia |].
    assert (Hcw : length crow = W)
      by exact (isGrid_row _ _ cand y crow Hc Hcrow).
    destruct (foldlM_seq_invariant
                (fun x t => (W < x)%nat -> mismatchError t = NaN)
                (fun acc x => compareCell cand gt prev y x acc)
                0 FITNESS_GRID_SIZE acc) as (acc' & Hinner & Hacc').
    + lia.
    + intros x t Hx Ht. unfold compareCell.
      rewrite Hcrow, Hgrow, Hprow. cbn [mbind option_bind].
      eexists. split; [reflexivity |]. cbn [mismatchError]. intros Hlt.
      destruct (decide (x = W)) as [-> | Hne].
      * rewrite (lookup_ge_None_2 crow W) by lia. cbn [toNumber lift1 lift2].
        apply lift2_NaN_r.
      * rewrite Ht by lia. reflexivity.
    + exists acc'. split; [exact Hinner |]. intros _. apply Hacc'. simpl. lia.
  - exists totals. split; [exact Hrun |]. apply Hnan.
    unfold FITNESS_GRID_SIZE. simpl. lia.
Qed.

Lemma fitnessStep_narrow (W : nat) trajectory p st step :
  (1 <= W < FITNESS_GRID_SIZE)%nat ->
  length trajectory = S FITNESS_SIM_STEPS ->
  Forall (fun s => isGrid FITNESS_GRID_SIZE W (grid s)) trajectory ->
  (step < FITNESS_SIM_STEPS)%nat ->
  isGrid FITNESS_GRID_SIZE W (quantumGrid st) ->
  isGrid FITNESS_GRID_SIZE W (prevClassicalGrid st) ->
  exists st',
    fitnessStep trajectory p st step = Some st' /\
    isGrid FITNESS_GRID_SIZE W (quantumGrid st') /\
    isGrid FITNESS_GRID_SIZE W (prevClassicalGrid st') /\
    totalMismatch st' = NaN.
Proof.
  intros HW Hlen Hgrids Hstep Hq Hprev. unfold fitnessStep.
  destruct (performQuantumStep_cells _ _ (quantumGrid st)
              (withFullDecoherence p) Hq) as (q' & -> & Hq' & _);
    [unfold FITNESS_GRID_SIZE; lia | lia |].
  cbn [mbind option_bind].
  destruct (lookup_lt_is_Some_2 trajectory (step + 1)) as [gts Hgts]; [lia |].
  rewrite Hgts. cbn [mbind option_bind].
  assert (Hgt : isGrid FITNESS_GRID_SIZE W (grid gts)).
  { rewrite Forall_lookup in Hgrids. eauto. }
  destruct (compareGrids_narrow W (map (map getClassicalState) q') (grid gts)
              (prevClassicalGrid st) (totalMismatch st))
    as (totals & -> & Hnan);
    [lia | by apply isGrid_map_map | done | done |].
  cbn [mbind option_bind]. eexists. split; [reflexivity |].
  cbn [quantumGrid prevClassicalGrid totalMismatch].
  split; [done |]. split; [by apply isGrid_map_map | exact Hnan].
Qed.

(** X28: on a ground truth of 16 snapshots whose grids have 32 rows but fewer
    than 32 columns, [calculateFitness] does not throw: the cells past the
    end of the rows read as [undefined], and the evaluation returns [NaN]. *)
Theorem calculateFitness_narrow_grids (W : nat)
    (trajectory : list TrajectoryStep) (params : SimulationParameters) :
  (1 <= W < FITNESS_GRID_SIZE)%nat ->
  length trajectory = S FITNESS_SIM_STEPS ->
  Forall (fun s => isGrid FITNESS_GRID_SIZE W (grid s)) trajectory ->
  calculateFitness trajectory params = Some NaN.
Proof.
  intros HW Hlen Hgrids. unfold calculateFitness.
  destruct trajectory as [| first rest] eqn:Et; [done |]. rewrite <- Et in *.
  assert (Hfirst : isGrid FITNESS_GRID_SIZE W (grid first)).
  { subst trajectory. by inversion Hgrids. }
  destruct (foldlM_seq_invariant
              (fun i st =>
                 isGrid FITNESS_GRID_SIZE W (quantumGrid st) /\
                 isGrid FITNESS_GRID_SIZE W (prevClassicalGrid st) /\
                 ((1 <= i)%nat -> totalMismatch st = NaN))
              (fitnessStep trajectory params) 0 FITNESS_SIM_STEPS
              {| quantumGrid := createQubitGridFromClassical (grid first);
                 prevClassicalGrid := grid first;
                 totalMismatch := Num 0%Z; populationError := Num 0%Z;
                 dynamismError := 0; candidateDynamismHistory := [] |})
    as (st & -> & _ & _ & Hnan).
  - cbn [quantumGrid prevClassicalGrid]. split; [| split; [done | lia]].
    apply (createQubitGridFromClassical_isGrid _ _ _ Hfirst);
      unfold FITNESS_GRID_SIZE; lia.
  - intros i st Hi (Hq & Hprev & _).
    destruct (fitnessStep_narrow W trajectory params st i HW Hlen Hgrids)
      as (st' & Hst' & Hq' & Hprev' & Hnan); [lia | done | done |].
    exists st'. split; [exact Hst' |]. split; [exact Hq' |].
    split; [exact Hprev' | intros _; exact Hnan].
  - cbn [mbind option_bind]. rewrite Hnan by (unfold FITNESS_SIM_STEPS; simpl; lia).
    cbn [lift1 lift2]. by destruct (isStagnant _).
Qed.

Lemma calculateFitness_narrow_grids_witness :
  calculateFitness
    (replicate 16 {| grid := replicate 32 [0%Z]; population := 0;
                     flipsSincePrevStep := 0 |})
    DEFAULT_PARAMETERS
  = Some NaN.
Proof.
  apply (calculateFitness_narrow_grids 1).
  - unfold FITNESS_GRID_SIZE. lia.
  - reflexivity.
  - apply Forall_replicate. split; [reflexivity |].
    apply Forall_replicate. reflexivity.
Defined.

(** ** The search on its own ground truth *)

Lemma precomputeGroundTruth_data :
  exists trajectory,
    precomputeGroundTruth = Some trajectory /\ groundTruthData trajectory.
Proof.
  destruct precomputeGroundTruth_invariant
    as (g & trajectory & Hrun & _ & (s0 & Hs0 & _ & Hflips0) & Hsnap & Hchain).
  destruct precomputeGroundTruth_wf as (trajectory' & Hrun' & Hlen & _).
  rewrite Hrun in Hrun'. injection Hrun' as <-.
  exists trajectory. split; [exact Hrun |]. split; [exact Hlen |].
  cbn [snd] in *. apply Forall_lookup. intros i s Hs.
  destruct (Hsnap i s Hs) as (Hgrid & Hbin & _ & Hpop).
  split; [exact Hgrid |]. split; [exact Hbin |]. split; [exact Hpop |].
  destruct i as [| j].
  - rewrite Hs0 in Hs. injection Hs as <-. rewrite Hflips0. lia.
  - destruct (lookup_lt_is_Some_2 trajectory j) as [prev Hprev].
    { apply lookup_lt_Some in Hs. lia. }
    by destruct (Hchain j prev s Hprev Hs) as (_ & Hrange & _).
Qed.

Lemma initializeSearch_groundTruth (random : nat -> R) (s0 s : SearchState)
    (n n' : nat) :
  initializeSearch random s0 n = Some (s, n') ->
  precomputeGroundTruth = Some (groundTruthTrajectoryRef s).
Proof.
  unfold initializeSearch, bind, liftOption, ret.
  destruct precomputeGroundTruth as [trajectory |]; [| discriminate].
  destruct (randomPopulation random POPULATION_SIZE n) as [[pop n2] |];
    [| discriminate].
  intros [= <- _]. reflexivity.
Qed.

Lemma reachable_groundTruth (random : nat -> R) (s : SearchState) :
  reachable random s -> precomputeGroundTruth = Some (groundTruthTrajectoryRef s).
Proof.
  induction 1 as [s0 n s n' Hinit | s n s' n' _ IH Hrun].
  - exact (initializeSearch_groundTruth random s0 s n n' Hinit).
  - destruct (runGeneration_population random s s' n n' Hrun) as (Hgt & _).
    rewrite Hgt. exact IH.
Qed.

(** X29: from [initializeSearch] on, the search runs on the ground truth that
    [precomputeGroundTruth] records; on it the fitness of every candidate is
    a number in (0, 1.5], never [NaN], and, with random numbers in [0, 1),
    the next [runGeneration] completes without throwing. *)
Theorem search_never_fails (random : nat -> R) (s : SearchState) :
  (forall k, 0 <= random k < 1) ->
  reachable random s ->
  precomputeGroundTruth = Some (groundTruthTrajectoryRef s) /\
  groundTruthData (groundTruthTrajectoryRef s) /\
  (forall p, exists f,
     calculateFitness (groundTruthTrajectoryRef s) p = Some (Num f) /\
     0 < f <= DYNAMISM_BONUS_MULTIPLIER) /\
  forall n, exists s' n', runGeneration random s n = Some (s', n').
Proof.
  intros Hrange Hreach.
  pose proof (reachable_groundTruth random s Hreach) as Hgt.
  destruct precomputeGroundTruth_data as (trajectory & Hrun & Hdata).
  rewrite Hgt in Hrun. injection Hrun as Heq. rewrite <- Heq in Hdata.
  pose proof (groundTruthData_wf _ Hdata) as Hwf.
  split; [exact Hgt |]. split; [exact Hdata |]. split.
  - intros p. destruct (calculateFitness_total _ p Hwf) as [f Hf].
    exists f. split; [exact Hf |].
    apply (calculateFitness_range (groundTruthTrajectoryRef s) p); [| exact Hf].
    destruct Hwf as [Hlen _]. by destruct (groundTruthTrajectoryRef s).
  - intros n.
    destruct (reachable_invariants random s Hreach) as [[Hlen _] _].
    assert (Hpop : (ELITISM_COUNT <= length (populationRef s))%nat)
      by (rewrite Hlen; unfold ELITISM_COUNT, POPULATION_SIZE; lia).
    destruct (runGeneration_total random Hrange s Hwf Hpop n) as [[s' n'] Hs'].
    by exists s', n'.
Qed.

Lemma search_never_fails_witness :
  exists s : SearchState,
    precomputeGroundTruth = Some (groundTruthTrajectoryRef s) /\
    groundTruthData (groundTruthTrajectoryRef s) /\
    (forall p, exists f,
       calculateFitness (groundTruthTrajectoryRef s) p = Some (Num f) /\
       0 < f <= DYNAMISM_BONUS_MULTIPLIER) /\
    forall n, exists s' n', runGeneration (fun _ => 0) s n = Some (s', n').
Proof.
  destruct search_first_generation as (s & n & s' & n' & Hinit & Hrun).
  exists s'.
  apply (search_never_fails (fun _ => 0) s').
  - intros k. lra.
  - exact (reachable_step (fun _ => 0) s n s' n'
             (reachable_init (fun _ => 0) initialSearchState 0%nat s n Hinit) Hrun).
Defined.

(** ** A floor under the fitness *)

Lemma binary_cell (g : ClassicalGridState) (y x : nat) (row : list Z) (v : Z) :
  isBinary g -> g !! y = Some row -> row !! x = Some v -> v = 0%Z \/ v = 1%Z.
Proof.
  intros Hb Hrow Hv. unfold isBinary in Hb.
  pose proof (Forall_lookup_1 _ _ _ _ Hb Hrow) as Hr.
  exact (Forall_lookup_1 _ _ _ _ Hr Hv).
Qed.

Lemma getClassicalState_binary (q : list (list QubitState)) :
  isBinary (map (map getClassicalState) q).
Proof.
  unfold isBinary. apply Forall_fmap, Forall_forall. intros row _.
  unfold compose. apply Forall_fmap, Forall_forall. intros c _.
  unfold compose, getClassicalState. destruct (Rle_dec _ _); auto.
Qed.

Lemma compareGrids_bounds cand gt prev (m0 : Z) :
  isGrid FITNESS_GRID_SIZE FITNESS_GRID_SIZE cand ->
  isGrid FITNESS_GRID_SIZE FITNESS_GRID_SIZE gt ->
  isGrid FITNESS_GRID_SIZE FITNESS_GRID_SIZE prev ->
  isBinary cand -> isBinary gt ->
  exists totals,
    compareGrids cand gt prev (Num m0) = Some totals /\
    totalsSoFar m0 FITNESS_GRID_SIZE 0 totals.
Proof.
  intros Hc Hg Hp Hcb Hgb. unfold compareGrids.
  apply (foldlM_seq_invariant (fun y t => totalsSoFar m0 y 0 t)
           (fun acc y =>
              foldlM (fun acc x => compareCell cand gt prev y x acc)
                     acc (seq 0 FITNESS_GRID_SIZE))
           0 FITNESS_GRID_SIZE).
  - exists m0, 0%Z. cbn [mismatchError candidatePopulation candidateFlips].
    repeat split; lia.
  - intros y acc Hy Hacc.
    destruct (lookup_lt_is_Some_2 cand y) as [crow Hcrow]; [destruct Hc; lia |].
    destruct (lookup_lt_is_Some_2 gt y) as [grow Hgrow]; [destruct Hg; lia |].
    destruct (lookup_lt_is_Some_2 prev y) as [prow Hprow]; [destruct Hp; lia |].
    pose proof (isGrid_row _ _ cand y crow Hc Hcrow) as Hcw.
    pose proof (isGrid_row _ _ gt y grow Hg Hgrow) as Hgw.
    destruct (foldlM_seq_invariant (fun x t => totalsSoFar m0 y x t)
                (fun acc x => compareCell cand gt prev y x acc)
                0 FITNESS_GRID_SIZE acc) as (acc' & Hinner & Hacc').
    + exact Hacc.
    + intros x t Hx (m & c & Hm & Hc' & Hmr & Hcr & Hfr). unfold compareCell.
      rewrite Hcrow, Hgrow, Hprow. cbn [mbind option_bind].
      destruct (lookup_lt_is_Some_2 crow x) as [v Hv]; [lia |].
      destruct (lookup_lt_is_Some_2 grow x) as [w Hw]; [lia |].
      pose proof (binary_cell cand y x crow v Hcb Hcrow Hv) as Hvb.
      pose proof (binary_cell gt y x grow w Hgb Hgrow Hw) as Hwb.
      eexists. split; [reflexivity |].
      rewrite Hv, Hw, Hm, Hc'. cbn [toNumber lift1 lift2].
      exists (m + Z.abs (v - w))%Z, (c + v)%Z.
      cbn [mismatchError candidatePopulation candidateFlips].
      split; [reflexivity |]. split; [reflexivity |].
      destruct (bool_decide _); lia.
    + exists acc'. split; [exact Hinner |].
      destruct Hacc' as (m & c & Hm & Hc' & Hmr & Hcr & Hfr).
      exists m, c. split; [exact Hm |]. split; [exact Hc' |].
      cbn [Nat.add] in *. lia.
Qed.

Lemma fitnessStep_bounds trajectory p st (i : nat) :
  groundTruthData trajectory -> (i < FITNESS_SIM_STEPS)%nat ->
  errorsSoFar i st ->
  exists st', fitnessStep trajectory p st i = Some st' /\ errorsSoFar (S i) st'.
Proof.
  intros [Hlen Hdata] Hi (Hq & Hprev & m & e & Hm & He & Hmr & Her & Hdr).
  unfold fitnessStep.
  destruct (performQuantumStep_cells _ _ (quantumGrid st)
              (withFullDecoherence p) Hq) as (q' & -> & Hq' & _);
    [unfold FITNESS_GRID_SIZE; lia | unfold FITNESS_GRID_SIZE; lia |].
  cbn [mbind option_bind].
  destruct (lookup_lt_is_Some_2 trajectory (i + 1)) as [gts Hgts]; [lia |].
  rewrite Hgts. cbn [mbind option_bind].
  destruct (Forall_lookup_1 _ _ _ _ Hdata Hgts) as (Hgt & Hgb & Hpop & Hflips).
  rewrite Hm.
  destruct (compareGrids_bounds (map (map getClassicalState) q') (grid gts)
              (prevClassicalGrid st) m)
    as (totals & -> & mm & c & Hmm & Hc & Hmmr & Hcr & Hfr);
    [by apply isGrid_map_map | done | done | apply getClassicalState_binary
    | done |].
  cbn [mbind option_bind]. eexists. split; [reflexivity |].
  split; [exact Hq' |]. split; [by apply isGrid_map_map |].
  cbn [totalMismatch populationError dynamismError].
  rewrite Hmm, Hc, He. cbn [lift1 lift2].
  exists mm, (e + Z.abs (c - population gts))%Z.
  split; [reflexivity |]. split; [reflexivity |].
  unfold FITNESS_GRID_SIZE in *. lia.
Qed.

(** X30: on a ground truth with the data that [precomputeGroundTruth] records,
    the three error totals stay below 15 * 1024 each, so that the fitness of
    every candidate is at least 1 / 53761 (and at most 1.5). *)
Theorem calculateFitness_floor (trajectory : list TrajectoryStep)
    (params : SimulationParameters) :
  groundTruthData trajectory ->
  exists f, calculateFitness trajectory params = Some (Num f) /\
            1 / 53761 <= f <= DYNAMISM_BONUS_MULTIPLIER.
Proof.
  intros Hdata. pose proof Hdata as [Hlen Hsnap]. unfold calculateFitness.
  destruct trajectory as [| first rest] eqn:Et; [done |]. rewrite <- Et in *.
  assert (Hfirst : isGrid FITNESS_GRID_SIZE FITNESS_GRID_SIZE (grid first)).
  { subst trajectory. by inversion Hsnap as [| ? ? [? _] _]. }
  destruct (foldlM_seq_invariant errorsSoFar (fitnessStep trajectory params)
              0 FITNESS_SIM_STEPS
              {| quantumGrid := createQubitGridFromClassical (grid first);
                 prevClassicalGrid := grid first;
                 totalMismatch := Num 0%Z; populationError := Num 0%Z;
                 dynamismError := 0; candidateDynamismHistory := [] |})
    as (st & -> & _ & _ & m & e & Hm & He & Hmr & Her & Hdr).
  - split; [| split; [exact Hfirst |]].
    + cbn [quantumGrid].
      apply (createQubitGridFromClassical_isGrid _ _ _ Hfirst);
        unfold FITNESS_GRID_SIZE; lia.
    + exists 0%Z, 0%Z. cbn [totalMismatch populationError dynamismError].
      repeat split; lia.
  - intros i st Hi Hst. apply fitnessStep_bounds; [exact Hdata | lia | exact Hst].
  - cbn [mbind option_bind]. rewrite Hm, He. cbn [lift1 lift2].
    set (d := dynamismError st) in *.
    set (totalError := IZR m + IZR e * POPULATION_PENALTY_WEIGHT
                       + IZR d * DYNAMISM_ERROR_WEIGHT).
    assert (Herr : 0 <= totalError <= 53760).
    { unfold totalError, POPULATION_PENALTY_WEIGHT, DYNAMISM_ERROR_WEIGHT.
      unfold FITNESS_SIM_STEPS in *. cbn [Nat.add] in *.
      assert (Hm1 : (0 <= m <= 15360)%Z) by lia.
      assert (He1 : (0 <= e <= 15360)%Z) by lia.
      assert (Hd1 : (0 <= d <= 15360)%Z) by lia.
      destruct Hm1 as [Hm0 Hm1], He1 as [He0 He1], Hd1 as [Hd0 Hd1].
      apply IZR_le in Hm0, Hm1, He0, He1, Hd0, Hd1. lra. }
    assert (Hlow : 1 / 53761 <= 1 / (1 + totalError) <= 1).
    { split.
      - unfold Rdiv. rewrite !Rmult_1_l. apply Rinv_le_contravar; lra.
      - apply (Rmult_le_reg_r (1 + totalError)); [lra |].
        unfold Rdiv. rewrite Rmult_assoc, Rinv_l by lra. lra. }
    unfold DYNAMISM_BONUS_MULTIPLIER. fold totalError.
    destruct (isStagnant _); eexists; (split; [reflexivity | lra]).
Qed.

Lemma calculateFitness_floor_witness :
  exists f, calculateFitness barrenTrajectory DEFAULT_PARAMETERS = Some (Num f) /\
            1 / 53761 <= f <= DYNAMISM_BONUS_MULTIPLIER.
Proof.
  apply (calculateFitness_floor barrenTrajectory DEFAULT_PARAMETERS).
  split; [reflexivity |]. apply Forall_replicate.
  split; [split; [reflexivity |]; apply Forall_replicate; reflexivity |].
  split; [| split; cbn [population flipsSincePrevStep]; lia].
  apply Forall_replicate, Forall_replicate. by left.
Defined.
